(** * Ultralight (Portal Network client): a shallow embedding of the uTP socket,
    the history content store, the gossip rule and the client's message
    sender, and the properties of their specification.

    Conventions.
    - A JavaScript [number] that only ever holds integers is a [Z]; no wrap
      around is written where the source has none ([seqNr++] on a [number]).
    - A value that is [number | undefined] at run time is a [jsnumber]
      ([option Z], [None] for [undefined]).
    - A JavaScript array with holes is a [list (option A)].
    - A [Uint8Array] is a [list byte].
    - A function that may throw returns a [result]. *)

From Stdlib Require Import ZArith Lia Strings.Byte.
From stdpp Require Import base list sorting gmap strings.

Open Scope Z_scope.

(** ** Exceptions *)

Inductive result (A : Type) : Type :=
| Ok (a : A)
| Throw (msg : string).
Arguments Ok {A} a.
Arguments Throw {A} msg.

Definition bind {A B} (r : result A) (k : A → result B) : result B :=
  match r with
  | Ok a => k a
  | Throw m => Throw m
  end.

Notation "'let?' x ':=' r 'in' k" := (bind r (λ x, k))
  (at level 10, x name, r at level 100, k at level 200, only parsing).

Definition is_Ok {A} (r : result A) : Prop := ∃ a, r = Ok a.
Definition is_Throw {A} (r : result A) : Prop := ∃ m, r = Throw m.

Abbreviation bytes := (list byte).

#[global] Instance byte_eq_decision : EqDecision byte := Byte.byte_eq_dec.

(** ** JavaScript arrays *)

Module JsArray.
Section ops.
Context {A : Type}.

(** [a[i]], [undefined] for a hole, an index out of range or a negative one. *)
Definition get (a : list (option A)) (i : Z) : option A :=
  if i <? 0 then None else mjoin (a !! Z.to_nat i).

(** [a[i] = v].  An index beyond the end extends the array with holes; a
  negative index creates a property that is no element of the array, so
  [length], [includes] and [slice] do not see it. *)
Definition set (a : list (option A)) (i : Z) (v : A) : list (option A) :=
  if i <? 0 then a
  else
    let n := Z.to_nat i in
    if (n <? length a)%nat then <[n := Some v]> a
    else a ++ replicate (n - length a)%nat None ++ [Some v].

(** [a.slice(start)]: a negative [start] counts from the end. *)
Definition slice (a : list (option A)) (start : Z) : list (option A) :=
  if start <? 0
  then drop (length a - Z.to_nat (- start))%nat a
  else drop (Z.to_nat start) a.

(** [a.findIndex((n, i, arr) => p i arr)]: the first index whose test
  succeeds, or -1. *)
Fixpoint findIndex_from (p : Z → bool) (i : Z) (n : nat) : Z :=
  match n with
  | O => -1
  | S n' => if p i then i else findIndex_from p (i + 1) n'
  end.

Definition findIndex (p : Z → list (option A) → bool) (a : list (option A)) : Z :=
  findIndex_from (λ i, p i a) 0 (length a).
End ops.

(** [a.includes(x)] for a number [x]. *)
Definition includes (a : list (option Z)) (x : Z) : bool :=
  bool_decide (Some x ∈ a).

Definition is_undefined {A} (o : option A) : bool :=
  match o with None => true | Some _ => false end.
End JsArray.

Abbreviation jsnumber := (option Z).

(** ** uTP: packets, the content reader and the socket *)

Module Utp.

Inductive PacketType := ST_DATA | ST_FIN | ST_STATE | ST_RESET | ST_SYN.
Inductive ConnectionState := SynSent | SynRecv | Connected | GotFin | Closed | Reset.
Inductive UtpSocketType := READ | WRITE.
Inductive RequestCode := FOUNDCONTENT_WRITE | FINDCONTENT_READ | OFFER_WRITE | ACCEPT_READ.

#[global] Instance PacketType_eq_dec : EqDecision PacketType.
Proof. solve_decision. Defined.
#[global] Instance ConnectionState_eq_dec : EqDecision ConnectionState.
Proof. solve_decision. Defined.
#[global] Instance UtpSocketType_eq_dec : EqDecision UtpSocketType.
Proof. solve_decision. Defined.
#[global] Instance RequestCode_eq_dec : EqDecision RequestCode.
Proof. solve_decision. Defined.

(** The header fields [createPacket] fills in, the selective-ACK bitmask and
  the payload.  Timestamps and the window size come from the packet manager
  and play no part below. *)
Module Packet.
Record t := mk {
  pType : PacketType;
  extension : Z;
  connectionId : Z;
  seqNr : Z;
  ackNr : jsnumber;
  bitmask : option bytes;
  payload : option bytes
}.
End Packet.

(** Options of [createPacket] ([ICreatePacketOpts]). *)
Record CreatePacketOpts := {
  opt_pType : PacketType;
  opt_connectionId : option Z;
  opt_bitmask : option bytes;
  opt_payload : option bytes
}.

(** The ContentReader class is not under src/ (ContentReader.js); the socket
    only adds packets to it and reads its [bytes]. *)
Module ContentReader.
(** Modelled from the spec: the reader of a READ socket, missing from src/.
    It keeps the DATA payloads it was given by seq_nr. *)
Record t := mk {
  startingSeqNr : Z;
  bytesExpected : option Z;   (* [None] stands for [Infinity] *)
  lastDataNr : jsnumber;
  packets : list (Z * bytes)  (* ascending seq_nr, one entry per seq_nr *)
}.

(** Modelled from the spec: [new ContentReader(startingSeqNr)], missing from
    src/. *)
Definition new (startingSeqNr : Z) : t :=
  mk startingSeqNr (Some 0) None [].

(** Modelled from the spec: the payloads are kept in seq_nr order ("the
    concatenation of their payloads sorted by seq_nr"); the reader is missing
    from src/. *)
Fixpoint insert (k : Z) (v : bytes) (l : list (Z * bytes)) : list (Z * bytes) :=
  match l with
  | [] => [(k, v)]
  | (k', v') :: l' =>
      if k <? k' then (k, v) :: l
      else if k =? k' then (k, v) :: l'
      else (k', v') :: insert k v l'
  end.

(** Modelled from the spec: [addPacket], missing from src/. *)
Definition addPacket (p : Packet.t) (r : t) : t :=
  mk (startingSeqNr r) (bytesExpected r) (lastDataNr r)
     (insert (Packet.seqNr p) (default [] (Packet.payload p)) (packets r)).

(** Modelled from the spec: the reader's [bytes], missing from src/: the
    payloads concatenated in seq_nr order. *)
Definition bytes_of (r : t) : bytes := concat (map snd (packets r)).
End ContentReader.

(** The socket, with the datagrams it handed to [utp.send], oldest first. *)
Record UtpSocket := mkSocket {
  type : UtpSocketType;
  content : bytes;
  remoteAddress : string;
  seqNr : Z;
  ackNr : jsnumber;
  finNr : jsnumber;
  sndConnectionId : Z;
  rcvConnectionId : Z;
  state : option ConnectionState;
  reader : option ContentReader.t;
  ackNrs : list (option Z);
  sent : list Packet.t
}.

(** [UtpSocketOptions] and the constructor. *)
Record UtpSocketOptions := {
  o_type : UtpSocketType;
  o_content : option bytes;
  o_remoteAddress : string;
  o_rcvId : Z;
  o_sndId : Z;
  o_seqNr : Z;
  o_ackNr : Z
}.

Definition constructor (options : UtpSocketOptions) : UtpSocket :=
  {| type := o_type options;
     content := default [] (o_content options);
     remoteAddress := o_remoteAddress options;
     rcvConnectionId := o_rcvId options;
     sndConnectionId := o_sndId options;
     seqNr := o_seqNr options;
     ackNr := Some (o_ackNr options);
     finNr := None;
     state := None;
     reader := None;
     ackNrs := [];
     sent := [] |}.

Definition setAckNr (a : jsnumber) (s : UtpSocket) : UtpSocket :=
  mkSocket (type s) (content s) (remoteAddress s) (seqNr s) a (finNr s)
    (sndConnectionId s) (rcvConnectionId s) (state s) (reader s) (ackNrs s) (sent s).

Definition setSeqNr (n : Z) (s : UtpSocket) : UtpSocket :=
  mkSocket (type s) (content s) (remoteAddress s) n (ackNr s) (finNr s)
    (sndConnectionId s) (rcvConnectionId s) (state s) (reader s) (ackNrs s) (sent s).

Definition getSeqNr (s : UtpSocket) : Z := seqNr s.

Definition setState (c : ConnectionState) (s : UtpSocket) : UtpSocket :=
  mkSocket (type s) (content s) (remoteAddress s) (seqNr s) (ackNr s) (finNr s)
    (sndConnectionId s) (rcvConnectionId s) (Some c) (reader s) (ackNrs s) (sent s).

Definition setFinNr (f : jsnumber) (s : UtpSocket) : UtpSocket :=
  mkSocket (type s) (content s) (remoteAddress s) (seqNr s) (ackNr s) f
    (sndConnectionId s) (rcvConnectionId s) (state s) (reader s) (ackNrs s) (sent s).

Definition withReader (r : option ContentReader.t) (s : UtpSocket) : UtpSocket :=
  mkSocket (type s) (content s) (remoteAddress s) (seqNr s) (ackNr s) (finNr s)
    (sndConnectionId s) (rcvConnectionId s) (state s) r (ackNrs s) (sent s).

Definition setReader (startingSeqNr : Z) (s : UtpSocket) : UtpSocket :=
  withReader (Some (ContentReader.new startingSeqNr)) s.

Definition withAckNrs (a : list (option Z)) (s : UtpSocket) : UtpSocket :=
  mkSocket (type s) (content s) (remoteAddress s) (seqNr s) (ackNr s) (finNr s)
    (sndConnectionId s) (rcvConnectionId s) (state s) (reader s) a (sent s).

(** [sendPacket]: the encoded packet goes to [utp.send]. *)
Definition sendPacket (p : Packet.t) (s : UtpSocket) : UtpSocket :=
  mkSocket (type s) (content s) (remoteAddress s) (seqNr s) (ackNr s) (finNr s)
    (sndConnectionId s) (rcvConnectionId s) (state s) (reader s) (ackNrs s)
    (sent s ++ [p]).

(** [createPacket]: the packet takes the socket's current seqNr and ackNr;
  only a DATA packet advances seqNr. *)
Definition createPacket (opts : CreatePacketOpts) (s : UtpSocket) : Packet.t * UtpSocket :=
  let extension := if opt_bitmask opts is Some _ then 1 else 0 in
  let p :=
    {| Packet.pType := opt_pType opts;
       Packet.extension := extension;
       Packet.connectionId := default (rcvConnectionId s) (opt_connectionId opts);
       Packet.seqNr := seqNr s;
       Packet.ackNr := ackNr s;
       Packet.bitmask := opt_bitmask opts;
       Packet.payload := opt_payload opts |} in
  let s' := if decide (opt_pType opts = ST_DATA) then setSeqNr (seqNr s + 1) s else s in
  (p, s').

Definition sendAckPacket (bitmask : option bytes) (s : UtpSocket) : UtpSocket :=
  let '(packet, s1) :=
    createPacket {| opt_pType := ST_STATE; opt_connectionId := None;
                    opt_bitmask := bitmask; opt_payload := None |} s in
  sendPacket packet s1.

Definition sendSynAckPacket (s : UtpSocket) : UtpSocket := sendAckPacket None s.

Definition sendFinPacket (s : UtpSocket) : UtpSocket :=
  let '(packet, s1) :=
    createPacket {| opt_pType := ST_FIN; opt_connectionId := None;
                    opt_bitmask := None; opt_payload := None |} s in
  sendPacket packet (setFinNr (Some (Packet.seqNr packet)) s1).

(** [sendDataPacket].  The congestion controller's [canSend] gate and the
  out-buffer bookkeeping are the packet manager's and are left out: they
  delay a packet, they do not change what it carries. *)
Definition sendDataPacket (payload : bytes) (s : UtpSocket) : UtpSocket :=
  let s0 := setState Connected s in
  let '(packet, s1) :=
    createPacket {| opt_pType := ST_DATA; opt_connectionId := None;
                    opt_bitmask := None; opt_payload := Some payload |} s0 in
  sendPacket packet s1.

(** [compile], the reader's bytes; it is called through [close(true)] only,
    where the socket has a reader. *)
Definition compile (s : UtpSocket) : bytes :=
  match reader s with
  | Some r => ContentReader.bytes_of r
  | None => []
  end.

(** [close]; the timers it clears are the congestion controller's. *)
Definition close (compile_flag : bool) (s : UtpSocket) : option bytes :=
  if compile_flag then Some (compile s) else None.

(** *** The selective-ACK bitmask *)

(** Eight window slots make one byte, slot [8k] being the least significant
  bit of byte [k] ([BitArray.fromBoolArray] followed by the serialisation
  of a [BitVectorType]). *)
Definition byte_of_bits (bs : list bool) : byte :=
  Byte.of_bits (nth 0 bs false, (nth 1 bs false, (nth 2 bs false, (nth 3 bs false,
               (nth 4 bs false, (nth 5 bs false, (nth 6 bs false, nth 7 bs false))))))).

Definition bits_of_byte (b : byte) : list bool :=
  let '(b0, (b1, (b2, (b3, (b4, (b5, (b6, b7))))))) := Byte.to_bits b in
  [b0; b1; b2; b3; b4; b5; b6; b7].

Fixpoint fromBoolArray (nbytes : nat) (w : list bool) : bytes :=
  match nbytes with
  | O => []
  | S n => byte_of_bits (take 8 w) :: fromBoolArray n (drop 8 w)
  end.

(** [new BitVectorType(32).serialize(BitArray.fromBoolArray(window))]: four
  bytes for a window of 32 slots; a window that grew past 32 slots does not
  fit the fixed-size output and the serialisation throws. *)
Definition serializeBitVector32 (window : list bool) : result bytes :=
  if decide (length window = 32%nat) then Ok (fromBoolArray 4 window)
  else Throw "offset is out of bounds".

(** Slot [j] of a serialised bitmask. *)
Definition mask_bit (mask : bytes) (j : nat) : bool :=
  nth (j mod 8) (bits_of_byte (nth (j / 8) mask "000"%byte)) false.

(** [window[i] = true] on a JavaScript array of booleans. *)
Definition window_set (window : list bool) (i : Z) : list bool :=
  if i <? 0 then window
  else
    let n := Z.to_nat i in
    if (n <? length window)%nat then <[n := true]> window
    else window ++ replicate (n - length window)%nat false ++ [true].

Section selective_ack.
(** The index table [bitmap] is imported from the package index, which is
  not under src/; it is a parameter here. *)
Variable bitmap : list Z.

Definition window_step (s : UtpSocket) (window : list bool) (i : nat) : list bool :=
  match ackNr s with
  | Some a =>
      if JsArray.includes (ackNrs s) (a + 1 + Z.of_nat i) then
        match bitmap !! i with
        | Some b => window_set window (b - 1)
        | None => window
        end
      else window
  | None => window
  end.

Definition selectiveAckWindow (s : UtpSocket) : list bool :=
  foldl (window_step s) (replicate 32 false) (seq 0 32).

Definition generateSelectiveAckBitMask (s : UtpSocket) : result bytes :=
  serializeBitVector32 (selectiveAckWindow s).

(** The steps of [handleDataPacket] in the order of the source: the state
  becomes Connected unless a FIN was seen; the packet is expected when at
  most one seq_nr is recorded or when it follows ackNr; seqNr is bumped, a
  reader is made if there is none, the seq_nr is recorded at its index
  relative to the first one and the packet is given to the reader. *)
Definition markConnected (s : UtpSocket) : UtpSocket :=
  if decide (state s = Some GotFin) then s else setState Connected s.

Definition isExpected (packet : Packet.t) (s : UtpSocket) : bool :=
  if (1 <? length (ackNrs s))%nat
  then match ackNr s with Some a => a + 1 =? Packet.seqNr packet | None => false end
  else true.

Definition recordPacket (packet : Packet.t) (s : UtpSocket) : UtpSocket :=
  let seq := Packet.seqNr packet in
  let s := setSeqNr (getSeqNr s + 1) s in
  let s :=
    match reader s with
    | Some _ => s
    | None => withReader (Some (ContentReader.mk seq None None [])) s
    end in
  let s :=
    match JsArray.get (ackNrs s) 0 with
    | None => withAckNrs (JsArray.set (ackNrs s) 0 seq) s
    | Some first => withAckNrs (JsArray.set (ackNrs s) (seq - first) seq) s
    end in
  withReader (ContentReader.addPacket packet <$> reader s) s.

(** The new ackNr of an expected packet: the last seq_nr of the run of
  recorded seq_nrs that starts at the packet's index. *)
Definition lastInOrder (packet : Packet.t) (s : UtpSocket) : jsnumber :=
  let first := default 0 (JsArray.get (ackNrs s) 0) in
  let future := JsArray.slice (ackNrs s) (Packet.seqNr packet - first) in
  let idx :=
    JsArray.findIndex
      (λ i arr, JsArray.is_undefined (JsArray.get arr (i + 1))) future in
  JsArray.get (JsArray.slice future idx) 0.

(** [handleDataPacket].  The socket is returned in every case, as the
  mutations made before an exception stay. *)
Definition handleDataPacket (packet : Packet.t) (s : UtpSocket)
  : UtpSocket * result (option bytes) :=
  let s := markConnected s in
  let expected := isExpected packet s in
  let s := recordPacket packet s in
  if expected then
    let s := setAckNr (lastInOrder packet s) s in
    if decide (state s = Some GotFin) then
      if decide (ackNr s = finNr s) then
        let s := sendAckPacket None s in
        (s, Ok (close true s))
      else (sendAckPacket None s, Ok None)
    else (sendAckPacket None s, Ok None)
  else
    match generateSelectiveAckBitMask s with
    | Ok bitmask => (sendAckPacket (Some bitmask) s, Ok None)
    | Throw m => (s, Throw m)
    end.
End selective_ack.

(** [handleSynPacket] of a READ socket (the WRITE branch draws a random
  seqNr and starts the writer). *)
Definition handleSynPacket_read (seq : Z) (s : UtpSocket) : UtpSocket :=
  let s := setState SynRecv s in
  let s := setAckNr (Some seq) s in
  let s := setReader (seq + 1) s in
  sendSynAckPacket s.

(** [handleFinPacket] of a READ socket (a WRITE socket just closes).  The
    reader's [lastDataNr] is set, which throws when there is no reader. *)
Definition handleFinPacket_read (packet : Packet.t) (compile_flag : bool) (s : UtpSocket)
  : UtpSocket * result (option bytes) :=
  let s := setState GotFin s in
  let s := setFinNr (Some (Packet.seqNr packet)) s in
  match reader s with
  | None => (s, Throw "Cannot set properties of undefined")
  | Some r =>
      let s :=
        withReader
          (Some (ContentReader.mk (ContentReader.startingSeqNr r)
                   (ContentReader.bytesExpected r)
                   (Some (Packet.seqNr packet - 1)) (ContentReader.packets r))) s in
      let expected :=
        match ackNr s with Some a => a + 1 =? Packet.seqNr packet | None => false end in
      if expected then
        let s := setSeqNr (seqNr s + 1) s in
        let s := setAckNr (Some (Packet.seqNr packet)) s in
        let s := sendAckPacket None s in
        (s, Ok (close compile_flag s))
      else (s, Ok None)
  end.

End Utp.

(** The ContentWriter class is not under src/ (ContentWriter.js); its test
    and the socket's [setWriter] are. *)
Module ContentWriter.
(** Modelled from the spec: "MSS/PAYLOAD_SIZE is fixed at 512 bytes"; the
    constant is missing from src/. *)
Definition PAYLOAD_SIZE : nat := 512.

(** Modelled from the spec: the number of chunks of the writer, which is
    missing from src/; its test counts [Math.ceil(content.length / 512)]. *)
Definition total (content : bytes) : nat :=
  (length content + (PAYLOAD_SIZE - 1)) / PAYLOAD_SIZE.

(** Modelled from the spec: the loop of [chunk], missing from src/: "larger
    logical content is split across DATA packets"; [n] pieces of 512 bytes are
    cut from the front of what is left. *)
Fixpoint chunk_loop (n : nat) (index : Z) (rest : bytes) : list (Z * bytes) :=
  match n with
  | O => []
  | S n' =>
      (index, take PAYLOAD_SIZE rest)
        :: chunk_loop n' (index + 1) (drop PAYLOAD_SIZE rest)
  end.

(** Modelled from the spec: [chunk], missing from src/: "the WRITE socket
    chunks the payload into 512-byte pieces indexed 1...N". *)
Definition chunk (content : bytes) : list (Z * bytes) :=
  chunk_loop (total content) 1 content.

(** Modelled from the spec: the writer drained, [write] being missing from
    src/: one [sendDataPacket] (of the source) per chunk, in chunk order.  The
    congestion window decides when a chunk goes out, not what it carries. *)
Definition write_all (chunks : list (Z * bytes)) (s : Utp.UtpSocket) : Utp.UtpSocket :=
  foldl (λ s c, Utp.sendDataPacket c.2 s) s chunks.

(** Modelled from the spec: [setWriter(seqNr)], which makes the writer of the
    socket's content and starts it, followed by the complete transfer. *)
Definition start (s : Utp.UtpSocket) : Utp.UtpSocket :=
  write_all (chunk (Utp.content s)) s.

(** The DATA packet that carries chunk number [k] (from 0) of a transfer
  started in socket state [s]. *)
Definition data_packet (s : Utp.UtpSocket) (k : nat) (c : Z * bytes) : Utp.Packet.t :=
  {| Utp.Packet.pType := Utp.ST_DATA;
     Utp.Packet.extension := 0;
     Utp.Packet.connectionId := Utp.rcvConnectionId s;
     Utp.Packet.seqNr := Utp.seqNr s + Z.of_nat k;
     Utp.Packet.ackNr := Utp.ackNr s;
     Utp.Packet.bitmask := None;
     Utp.Packet.payload := Some c.2 |}.
End ContentWriter.

(** The multiplexer class PortalNetworkUTP is not under src/; its test is. *)
Module PortalNetworkUTP.
Import Utp.

Record SocketIds := { sndId : Z; rcvId : Z }.
Record StartingNrs := { start_seqNr : Z; start_ackNr : Z }.

(** Modelled from the spec: [startingIdNrs], missing from src/: "the
    initiator picks a random 16-bit rcv_id; for FOUNDCONTENT/WRITE and
    ACCEPT/READ the peer's snd_id = rcv_id + 1; for FINDCONTENT/READ and
    OFFER/WRITE the roles swap". *)
Definition startingIdNrs (id : Z) (requestCode : RequestCode) : SocketIds :=
  match requestCode with
  | FOUNDCONTENT_WRITE => {| sndId := id + 1; rcvId := id |}
  | FINDCONTENT_READ => {| sndId := id; rcvId := id + 1 |}
  | OFFER_WRITE => {| sndId := id; rcvId := id + 1 |}
  | ACCEPT_READ => {| sndId := id + 1; rcvId := id |}
  end.

(** Modelled from the spec: the role of the socket of a request code,
    missing from src/: the _WRITE codes write, the _READ codes read. *)
Definition socketType (requestCode : RequestCode) : UtpSocketType :=
  match requestCode with
  | FOUNDCONTENT_WRITE | OFFER_WRITE => WRITE
  | FINDCONTENT_READ | ACCEPT_READ => READ
  end.

(** Modelled from the spec: [createPortalNetworkUTPSocket], missing from
    src/, as its test calls it: the ids given go to the socket's constructor;
    the starting seqNr and ackNr of a request code are partly random and are
    taken as an argument. *)
Definition createPortalNetworkUTPSocket
    (startingNrs : RequestCode → StartingNrs)
    (requestCode : RequestCode) (remoteAddress : string)
    (sndId rcvId : Z) (content : option bytes) : UtpSocket :=
  constructor
    {| o_type := socketType requestCode;
       o_content := content;
       o_remoteAddress := remoteAddress;
       o_rcvId := rcvId;
       o_sndId := sndId;
       o_seqNr := start_seqNr (startingNrs requestCode);
       o_ackNr := start_ackNr (startingNrs requestCode) |}.
End PortalNetworkUTP.

(** ** SSZ Merkle trees and single proofs

    The binary Merkle tree of the SSZ library, with the rule that hashes two
    children taken as a parameter ([hash], SHA-256 of the two roots put
    together in the library). *)

Module Merkle.

Inductive Node :=
| LeafNode (root : bytes)
| BranchNode (left right : Node).

(** A generalised index is a positive number: 1 is the root, [2g] and [2g+1]
  are the children of [g]. *)
Abbreviation Gindex := positive.

(** The bits of a gindex below its leading one, least significant first. *)
Fixpoint gindex_bits_lsb (g : Gindex) : list bool :=
  match g with
  | xH => []
  | xO g' => false :: gindex_bits_lsb g'
  | xI g' => true :: gindex_bits_lsb g'
  end.

(** [gindexIterator]: the same bits from the root down. *)
Definition gindexIterator (g : Gindex) : list bool := rev (gindex_bits_lsb g).

(** The number of branches between the root and [g]. *)
Definition gindex_depth (g : Gindex) : nat := length (gindex_bits_lsb g).

Definition zeroHash : bytes := replicate 32 "000"%byte.

Section tree.
Variable hash : bytes → bytes → bytes.

Fixpoint root (n : Node) : bytes :=
  match n with
  | LeafNode r => r
  | BranchNode l r => hash (root l) (root r)
  end.

Fixpoint zeroNode (height : nat) : Node :=
  match height with
  | O => LeafNode zeroHash
  | S h => BranchNode (zeroNode h) (zeroNode h)
  end.

(** [subtreeFillToContents(nodes, depth)]: a tree of the given depth with
  [nodes] as its leftmost leaves and zero nodes for the rest. *)
Fixpoint subtreeFillToContents (nodes : list Node) (depth : nat) : Node :=
  match depth with
  | O => match nodes with n :: _ => n | [] => zeroNode 0 end
  | S d =>
      match nodes with
      | [] => zeroNode (S d)
      | _ =>
          BranchNode (subtreeFillToContents (take (2 ^ d) nodes) d)
                     (subtreeFillToContents (drop (2 ^ d) nodes) d)
      end
  end.

(** The walk of [createSingleProof]: at each bit the sibling's root is
  pushed and the walk goes on in the chosen child; a leaf met on the way
  is an invalid navigation. *)
Fixpoint walk (node : Node) (path : list bool) (witnesses : list bytes) {struct path}
  : result (Node * list bytes) :=
  match path with
  | [] => Ok (node, witnesses)
  | i :: path' =>
      match node with
      | LeafNode _ => Throw "Invalid tree operation: invalid navigation"
      | BranchNode l r =>
          if i then walk r path' (witnesses ++ [root l])
          else walk l path' (witnesses ++ [root r])
      end
  end.

(** [createSingleProof(rootNode, index)]: the leaf and the witnesses, the
  witness next to the leaf first. *)
Definition createSingleProof (rootNode : Node) (index : Gindex)
  : result (bytes * list bytes) :=
  let? r := walk rootNode (gindexIterator index) [] in
  Ok (root r.1, rev r.2).

(** [createNodeFromSingleProof(gindex, leaf, witnesses)]: the witnesses are
  consumed from the first on while the gindex is halved down to 1; a
  witness that is not there is [undefined] and making a leaf of it
  throws. *)
Fixpoint rebuild (gindex : Gindex) (node : Node) (w : list bytes) : result Node :=
  match gindex with
  | xH => Ok node
  | xO g' =>
      match w with
      | sibling :: w' => rebuild g' (BranchNode node (LeafNode sibling)) w'
      | [] => Throw "Cannot read properties of undefined"
      end
  | xI g' =>
      match w with
      | sibling :: w' => rebuild g' (BranchNode (LeafNode sibling) node) w'
      | [] => Throw "Cannot read properties of undefined"
      end
  end.

Definition createNodeFromSingleProof (gindex : Gindex) (leaf : bytes)
    (witnesses : list bytes) : result Node :=
  rebuild gindex (LeafNode leaf) witnesses.

(** [Type.createFromProof(proof, root)]: the tree of the proof, checked
  against the trusted root when one is given. *)
Definition createFromProof (gindex : Gindex) (leaf : bytes)
    (witnesses : list bytes) (trusted : option bytes) : result Node :=
  let? node := createNodeFromSingleProof gindex leaf witnesses in
  match trusted with
  | Some r =>
      if decide (root node = r) then Ok node
      else Throw "Proof does not match trusted root"
  | None => Ok node
  end.
End tree.

(** The tree that [rebuild] makes when the witnesses suffice: each bit, from
  the least significant on, puts the node under a new branch next to a leaf
  made of the next witness. *)
Fixpoint graft (bits : list bool) (node : Node) (w : list bytes) : Node :=
  match bits, w with
  | false :: bits', sibling :: w' => graft bits' (BranchNode node (LeafNode sibling)) w'
  | true :: bits', sibling :: w' => graft bits' (BranchNode (LeafNode sibling) node) w'
  | _, _ => node
  end.

(** The [depth] bits of an index below [2 ^ depth], most significant first:
  the way down a full tree of that depth to its leaf number [i]. *)
Fixpoint bits_msb (depth i : nat) : list bool :=
  match depth with
  | O => []
  | S d =>
      if (2 ^ d <=? i)%nat then true :: bits_msb d (i - 2 ^ d)
      else false :: bits_msb d i
  end.

Arguments bits_msb : simpl never.

(** The gindex reached from [g] by a path of bits, [false] for the left
    child. *)
Definition descend (g : Gindex) (path : list bool) : Gindex :=
  fold_left (λ g (b : bool), if b then xI g else xO g) path g.

(** A proof with byte [j] of witness [i] replaced by [b]. *)
Definition tamper (witnesses : list bytes) (i j : nat) (b : byte) : list bytes :=
  alter (λ w, <[j := b]> w) i witnesses.

(** The pairs of roots that are hashed when the tree of a single proof is
  made and its root is taken, from the leaf up: at each bit the root so far
  and the next witness, on the sides the bit says. *)
Fixpoint hashed_pairs (hash : bytes → bytes → bytes) (bits : list bool) (r : bytes)
    (w : list bytes) : list (bytes * bytes) :=
  match bits, w with
  | false :: bits', sibling :: w' =>
      (r, sibling) :: hashed_pairs hash bits' (hash r sibling) w'
  | true :: bits', sibling :: w' =>
      (sibling, r) :: hashed_pairs hash bits' (hash sibling r) w'
  | _, _ => []
  end.

(** A second preimage on the way of a proof: at some level the hash is given
  other children for the proof [w'] than for the proof [w] of the same leaf
  and gindex, and returns the same root for both. *)
Definition second_preimage (hash : bytes → bytes → bytes) (g : Gindex) (leaf : bytes)
    (w w' : list bytes) : Prop :=
  ∃ k p p',
    hashed_pairs hash (gindex_bits_lsb g) leaf w !! k = Some p
    ∧ hashed_pairs hash (gindex_bits_lsb g) leaf w' !! k = Some p'
    ∧ p ≠ p'
    ∧ hash p.1 p.2 = hash p'.1 p'.2.

(** No two pairs of children hash to the same root, as for the hash of the
  examples, whose output holds both inputs. *)
Definition collision_free (hash : bytes → bytes → bytes) : Prop :=
  ∀ a b a' b', hash a b = hash a' b' → a = a' ∧ b = b'.

End Merkle.

(** ** The history network: header proofs and the content store *)

Module History.
Import Merkle.

Inductive HistoryNetworkContentType := BlockHeader | BlockBody | Receipt | EpochAccumulator.

#[global] Instance HistoryNetworkContentType_eq_dec : EqDecision HistoryNetworkContentType.
Proof. solve_decision. Defined.

(** A record of an epoch accumulator. *)
Record HeaderRecord := { blockHash : bytes; totalDifficulty : N }.

(** What the store reads of a decoded block header. *)
Record Header := { number : N; header_hash : bytes }.

(** The helpers of the history network's util module are not under src/; the
    test of the epoch accumulator proof is. *)

(** Modelled from the spec: [epochIndexByBlocknumber], missing from src/:
    "epoch_index = floor(block_number / 8192)". *)
Definition epochIndexByBlocknumber (blockNumber : N) : N := (blockNumber / 8192)%N.

(** Modelled from the spec: [blockNumberToLeafIndex], missing from src/:
    "leaf_index = (block_number % 8192) * 2". *)
Definition blockNumberToLeafIndex (blockNumber : N) : N := ((blockNumber mod 8192) * 2)%N.

(** Modelled from the spec: the gindex of a leaf of an epoch accumulator tree
    ([tree_getLeafGindices] of the SSZ library, read by the missing
    [blockNumberToGindex]): the leaves, hash and total difficulty of each of
    the 8192 records, lie at depth 15, from gindex 2^15 on. *)
Definition leafGindex (leafIndex : N) : Gindex :=
  match (32768 + leafIndex)%N with
  | Npos p => p
  | N0 => xH
  end.

(** Modelled from the spec: [blockNumberToGindex], missing from src/; the
    test has it be the entry at the block's leaf index of the leaf gindices of
    an epoch accumulator tree. *)
Definition blockNumberToGindex (blockNumber : N) : Gindex :=
  leafGindex (blockNumberToLeafIndex blockNumber).

(** The first post-merge block, [15537393n] in [validateHeader]. *)
Definition MERGE_BLOCK : N := 15537393%N.

Inductive Event :=
| ContentAdded (hashKey : string) (contentType : HistoryNetworkContentType) (value : string).

(** The protocol's state: the durable store, the block index, the events
  emitted and the gossip queue, oldest first, and the number of peers in
  the routing table. *)
Record State := mkState {
  db : gmap string string;
  blockIndex : gmap N string;
  events : list Event;
  gossip : list (string * HistoryNetworkContentType);
  peers : nat
}.

Definition put (key value : string) (st : State) : State :=
  mkState (<[key := value]> (db st)) (blockIndex st) (events st) (gossip st) (peers st).

Definition retrieve (key : string) (st : State) : option string := db st !! key.

Definition indexBlockhash (n : N) (h : string) (st : State) : State :=
  mkState (db st) (<[n := h]> (blockIndex st)) (events st) (gossip st) (peers st).

Definition emit (e : Event) (st : State) : State :=
  mkState (db st) (blockIndex st) (events st ++ [e]) (gossip st) (peers st).

Definition gossipManager_add (hashKey : string) (t : HistoryNetworkContentType) (st : State)
  : State :=
  mkState (db st) (blockIndex st) (events st) (gossip st ++ [(hashKey, t)]) (peers st).

(** A string that JavaScript takes as true: defined and not empty. *)
Definition truthy (v : option string) : option string :=
  match v with
  | Some s => if decide (s = ""%string) then None else Some s
  | None => None
  end.

Section protocol.
(** The hash of the Merkle tree and the 32-byte chunk of an unsigned
  number. *)
Variable hash : bytes → bytes → bytes.
Variable uintToChunk : N → bytes.

(** The baked-in roots of the epoch accumulators, by epoch index. *)
Variable historicalEpochs : list bytes.

(** The codecs, pure functions that throw on input they cannot read;
  [hexToBytes] and [fromHexString] are the hex decoders of two libraries. *)
Variable hexToBytes : string → result bytes.
Variable fromHexString : string → result bytes.
Variable toHexString : bytes → string.
Variable getContentKey : HistoryNetworkContentType → bytes → string.
Variable BlockHeaderWithProof_deserialize : bytes → result (bytes * option (list bytes)).
Variable fromRLPSerializedHeader : bytes → result Header.
Variable EpochAccumulator_deserialize : bytes → result (list HeaderRecord).

(** Block reassembly, and the network lookup of [ETH.getBlockByHash], which
  finds a block or does not. *)
Variable Block : Type.
Variable reassembleBlock : option bytes → bytes → result Block.
Variable getBlockByHash : string → option Block.

(** Modelled from the spec: [epochRootByIndex], missing from src/: "an Epoch
    Accumulator whose root equals a baked-in constant for the epoch";
    [undefined] for an index without a root. *)
Definition epochRootByIndex (index : N) : option bytes :=
  historicalEpochs !! N.to_nat index.

(** Modelled from the spec: [epochRootByBlocknumber], missing from src/: the
    root of the block's epoch. *)
Definition epochRootByBlocknumber (blockNumber : N) : option bytes :=
  epochRootByIndex (epochIndexByBlocknumber blockNumber).

(** [EpochAccumulator.value_toTree]: a list of at most 8192 records, each a
  container of two leaves, under a root that mixes in the length. *)
Definition headerRecordNode (r : HeaderRecord) : Node :=
  BranchNode (LeafNode (blockHash r)) (LeafNode (uintToChunk (totalDifficulty r))).

Definition value_toTree (accumulator : list HeaderRecord) : Node :=
  BranchNode (subtreeFillToContents (map headerRecordNode accumulator) 13)
             (LeafNode (uintToChunk (N.of_nat (length accumulator)))).

Definition hashTreeRoot (accumulator : list HeaderRecord) : bytes :=
  root hash (value_toTree accumulator).

Definition generateInclusionProof (blockNumber : N) (st : State) : result (list bytes) :=
  let r :=
    match epochRootByBlocknumber blockNumber with
    | None => Throw "epochHash is undefined"
    | Some epochHash =>
        match retrieve (getContentKey EpochAccumulator epochHash) st with
        | None => Throw "epoch is undefined"
        | Some epoch =>
            let? raw := hexToBytes epoch in
            let? accumulator := EpochAccumulator_deserialize raw in
            let tree := value_toTree accumulator in
            let? proof := createSingleProof hash tree (blockNumberToGindex blockNumber) in
            Ok proof.2
        end
    end in
  match r with
  | Ok witnesses => Ok witnesses
  | Throw m => Throw ("Error generating inclusion proof: " +:+ m)
  end.

Definition verifyInclusionProof (witnesses : list bytes) (blockHash : string)
    (blockNumber : N) : result bool :=
  let target := epochRootByIndex (epochIndexByBlocknumber blockNumber) in
  let? leaf := hexToBytes blockHash in
  let? _ := createFromProof hash (blockNumberToGindex blockNumber) leaf witnesses target in
  Ok true.

Definition validateHeader (value : bytes) (contentHash : string) (st : State)
  : State * result unit :=
  match BlockHeaderWithProof_deserialize value with
  | Throw m => (st, Throw m)
  | Ok (headerBytes, proof) =>
      match fromRLPSerializedHeader headerBytes with
      | Throw m => (st, Throw m)
      | Ok header =>
          let checked : result unit :=
            if (number header <? MERGE_BLOCK)%N then
              match proof with
              | None => Throw "Received block header without proof"
              | Some witnesses =>
                  match verifyInclusionProof witnesses contentHash (number header) with
                  | Ok _ => Ok ()
                  | Throw _ => Throw "Received block header with invalid proof"
                  end
              end
            else Ok () in
          match checked with
          | Throw m => (st, Throw m)
          | Ok _ =>
              let st := indexBlockhash (number header) (toHexString (header_hash header)) st in
              match hexToBytes contentHash with
              | Throw m => (st, Throw m)
              | Ok h => (put (getContentKey BlockHeader h) (toHexString value) st, Ok ())
              end
          end
      end
  end.

(** [getBlockHeaderFromDB(blockHash)] with [asBytes] left at [true]. *)
Definition getBlockHeaderFromDB (blockHash : bytes) (st : State) : result (option bytes) :=
  match truthy (retrieve (getContentKey BlockHeader blockHash) st) with
  | None => Ok None
  | Some value =>
      let? raw := fromHexString value in
      let? hp := BlockHeaderWithProof_deserialize raw in
      Ok (Some hp.1)
  end.

Definition addBlockBody (value : bytes) (hashKey : string) (header : option bytes)
    (st : State) : State * result unit :=
  match hexToBytes hashKey with
  | Throw m => (st, Throw m)
  | Ok hashBytes =>
      if decide (length value = 0%nat) then (st, Ok ())
      else
        let attempt : result Block :=
          match header with
          | Some h => reassembleBlock (Some h) value
          | None =>
              let? blockHash := fromHexString hashKey in
              let? headerBytes := getBlockHeaderFromDB blockHash st in
              reassembleBlock headerBytes value
          end in
        let block : option Block :=
          match attempt with
          | Ok b => Some b
          | Throw _ => getBlockByHash hashKey
          end in
        let bodyContentKey := getContentKey BlockBody hashBytes in
        match block with
        | Some _ => (put bodyContentKey (toHexString value) st, Ok ())
        | None =>
            (* "Could not verify block content", "Adding anyway for testing..." *)
            (put bodyContentKey (toHexString value) st, Ok ())
        end
  end.

Definition store (contentType : HistoryNetworkContentType) (hashKey : string)
    (value : bytes) (st : State) : State * result unit :=
  let '(st, r) :=
    match contentType with
    | BlockBody => addBlockBody value hashKey None st
    | BlockHeader =>
        (* the exception of validateHeader is caught and logged *)
        ((validateHeader value hashKey st).1, Ok ())
    | _ =>
        match hexToBytes hashKey with
        | Throw m => (st, Throw m)
        | Ok h => (put (getContentKey contentType h) (toHexString value) st, Ok ())
        end
    end in
  match r with
  | Throw m => (st, Throw m)
  | Ok _ =>
      let st := emit (ContentAdded hashKey contentType (toHexString value)) st in
      let st := if (0 <? peers st)%nat then gossipManager_add hashKey contentType st else st in
      (st, Ok ())
  end.
End protocol.

End History.

(** ** Gossip of newly added history content *)

Module Gossip.

(** Node ids and content ids are 256-bit numbers. *)
Abbreviation NodeId := Z.

(** [distance] of discv5: the XOR of the two ids as a number. *)
Definition distance (a b : NodeId) : Z := Z.lxor a b.

(** The routing table as the gossip rule reads it: the peers it holds, the
  radius each advertised and the content keys already offered to each. *)
Record RoutingTable := {
  values : list NodeId;
  radiusMap : gmap Z Z;
  gossipMap : gmap Z (gset string)
}.

Definition closer (id a b : NodeId) : Prop := distance id a ≤ distance id b.

#[global] Instance closer_dec id a b : Decision (closer id a b).
Proof. unfold closer. apply _. Defined.

(** Modelled from the spec: the routing table class is not under src/;
  "nearest(target_id, n): return up to n ENRs ordered by XOR distance to
  target". *)
Definition nearest (rt : RoutingTable) (id : NodeId) (limit : nat) : list NodeId :=
  take limit (merge_sort (closer id) (values rt)).

Definition getRadius (rt : RoutingTable) (nodeId : NodeId) : option Z :=
  radiusMap rt !! nodeId.

Definition contentKeyKnownToPeer (rt : RoutingTable) (nodeId : NodeId) (key : string) : bool :=
  match gossipMap rt !! nodeId with
  | Some keys => bool_decide (key ∈ keys)
  | None => false
  end.

(** [distance(peer, contentId) < getRadius(peer)!]: a comparison with
  [undefined] is false. *)
Definition within_radius (rt : RoutingTable) (peer contentId : NodeId) : bool :=
  match getRadius rt peer with
  | Some r => distance peer contentId <? r
  | None => false
  end.

(** [gossipHistoryNetworkContent]: the peers [sendOffer] is called for, in
  order; [contentId] and [encodedKey] are the content id and the hex string
  of the serialised content key. *)
Definition gossipHistoryNetworkContent (rt : RoutingTable) (contentId : NodeId)
    (encodedKey : string) : list NodeId :=
  let nearestPeers := nearest rt contentId 5 in
  filter (λ peer,
            (negb (contentKeyKnownToPeer rt peer encodedKey)
             && within_radius rt peer contentId) = true)
         nearestPeers.

(** The peers of the table that are strictly closer to [id] than [peer]. *)
Definition strictly_closer (rt : RoutingTable) (id peer : NodeId) : list NodeId :=
  filter (λ q, distance id q < distance id peer) (values rt).

End Gossip.

(** ** The client: sending a message to a peer *)

Module Client.

Inductive NetworkId :=
| HistoryNetwork | StateNetwork | BeaconLightClientNetwork | Rendezvous | UTPNetwork.

#[global] Instance NetworkId_eq_dec : EqDecision NetworkId.
Proof. solve_decision. Defined.

Record ENR := { nodeId : string; record : string }.

Inductive Event :=
| SendTalkReq (nodeId : string) (res payload : bytes)
| Sent.

(** An open uTP transfer, as far as the client needs it. *)
Record ContentRequest := { requestNetwork : NetworkId; contentKeys : list bytes }.

(** The client: the routing table (with pending entries) of each overlay
  network it runs, the open uTP requests by socket key (peer, connection
  id), the events emitted, oldest first, and the eventLog switch. *)
Record State := mkState {
  networks : NetworkId → option (gmap string ENR);
  openContentRequest : gmap (string * Z) ContentRequest;
  events : list Event;
  eventLog : bool
}.

Definition emit (e : Event) (st : State) : State :=
  mkState (networks st) (openContentRequest st) (events st ++ [e]) (eventLog st).

(** The constructor, as far as this state goes: a network, with an empty
  routing table, for each of the three overlay ids among
  [supportedNetworks]; Rendezvous sets a flag only, and any other id, the uTP
  one among them, registers nothing.  No request is open and nothing has
  been emitted.  The constructor is the only place where the class puts a
  network in the map. *)
Definition constructor (supportedNetworks : list NetworkId) (eventLog : bool) : State :=
  mkState
    (λ id, match id with
           | HistoryNetwork | StateNetwork | BeaconLightClientNetwork =>
               if bool_decide (id ∈ supportedNetworks) then Some ∅ else None
           | Rendezvous | UTPNetwork => None
           end)
    ∅ [] eventLog.

(** Modelled from the spec: [closeRequest] of the uTP multiplexer, which is
  not under src/: "guaranteed removal from the open-request table"; its test
  finds no request under the socket key afterwards. *)
Definition closeRequest (connectionId : Z) (peerId : string) (st : State) : State :=
  mkState (networks st) (delete (peerId, connectionId) (openContentRequest st))
          (events st) (eventLog st).

(** [msg.readUInt16BE(offset)], a RangeError when the bytes are not there. *)
Definition readUInt16BE (msg : bytes) (offset : nat) : result Z :=
  match msg !! offset, msg !! S offset with
  | Some hi, Some lo => Ok (Z.of_N (Byte.to_N hi) * 256 + Z.of_N (Byte.to_N lo))
  | _, _ => Throw "ERR_OUT_OF_RANGE"
  end.

Section client.
(** [discv5.sendTalkReq(enr, payload, protocol)]: the response, or the
  rejection of the request. *)
Variable sendTalkReq : ENR → bytes → NetworkId → result bytes.

(** [utpMessage !== undefined ? NetworkId.UTPNetwork : networkId] *)
Definition messageNetwork (networkId : NetworkId) (utpMessage : option bool) : NetworkId :=
  if utpMessage is Some _ then UTPNetwork else networkId.

(** The address the message goes to: the ENR given, or the one the routing
  table of [networkId] has for a node id given as a string. *)
Definition nodeAddr (enr : ENR + string) (networkId : NetworkId) (st : State) : option ENR :=
  match enr with
  | inr id =>
      match networks st networkId with
      | Some routingTable => routingTable !! id
      | None => None
      end
  | inl e => Some e
  end.

Definition sendPortalNetworkMessage (enr : ENR + string) (payload : bytes)
    (networkId : NetworkId) (utpMessage : option bool) (st : State)
  : State * result bytes :=
  match nodeAddr enr networkId st with
  | None => (st, Ok [])
  | Some addr =>
      match sendTalkReq addr payload (messageNetwork networkId utpMessage) with
      | Ok res =>
          let st := if eventLog st then emit (SendTalkReq (nodeId addr) res payload) st
                    else st in
          (st, Ok res)
      | Throw err =>
          if decide (networkId = UTPNetwork)
          then (st, Throw ("Error sending TALKREQ message: " +:+ err))
          else (st, Ok [])
      end
  end.

(** [enr ?? peerId] of the 'Send' listener, [enr] being the routing table's
  entry for the peer. *)
Definition sendTarget (peerId : string) (networkId : NetworkId) (st : State) : ENR + string :=
  let enr : option ENR :=
    match networks st networkId with
    | Some routingTable => routingTable !! peerId
    | None => None
    end in
  match enr with Some e => inl e | None => inr peerId end.

(** The listener of the multiplexer's 'Send' event. *)
Definition onSend (peerId : string) (msg : bytes) (networkId : NetworkId) (st : State)
  : State * result unit :=
  match sendPortalNetworkMessage (sendTarget peerId networkId st) msg networkId (Some true) st with
  | (st, Ok _) => (emit Sent st, Ok ())
  | (st, Throw _) =>
      match readUInt16BE msg 2 with
      | Ok connectionId => (closeRequest connectionId peerId st, Ok ())
      | Throw m => (st, Throw m)
      end
  end.
End client.

End Client.

(** ** Concrete inputs used by the examples *)

Module Samples.

(** A transport on which every TALKREQ fails. *)
Definition unreachable : Client.ENR → bytes → Client.NetworkId → result bytes :=
  λ _ _ _, Throw "Request timed out".

Definition peer_enr : Client.ENR := {| Client.nodeId := "0xabc"; Client.record := "enr:-abc" |}.

(** The first four bytes of a uTP packet for connection id 258 (bytes 2 and 3,
  big-endian). *)
Definition utp_datagram : bytes := ["001"; "000"; "001"; "002"]%byte.

(** A client made for the history network that has since put the peer in
  the routing table of that network and has one open uTP request for it. *)
Definition client : Client.State :=
  {| Client.networks :=
       λ id, (λ _ : gmap string Client.ENR, {[ "0xabc"%string := peer_enr ]})
             <$> Client.networks (Client.constructor [Client.HistoryNetwork] false) id;
     Client.openContentRequest :=
       {[ ("0xabc"%string, 258) :=
            {| Client.requestNetwork := Client.HistoryNetwork; Client.contentKeys := [] |} ]};
     Client.events := [];
     Client.eventLog := false |}.

(** A routing table of seven peers; peer 9 was already offered the key,
  peer 5 advertised a radius that is too small. *)
Definition table : Gossip.RoutingTable :=
  {| Gossip.values := [40; 3; 9; 5; 12; 77; 6];
     Gossip.radiusMap := {[ 3 := 100; 9 := 100; 5 := 2; 12 := 100; 6 := 6; 40 := 100 ]};
     Gossip.gossipMap := {[ 9 := {[ "0x00aa"%string ]} ]} |}.

(** A READ socket as the multiplexer creates it, and a DATA packet. *)
Definition reader_socket : Utp.UtpSocket :=
  Utp.constructor
    {| Utp.o_type := Utp.READ; Utp.o_content := None; Utp.o_remoteAddress := "0xabc";
       Utp.o_rcvId := 258; Utp.o_sndId := 259; Utp.o_seqNr := 100; Utp.o_ackNr := 0 |}.

Definition data (seqNr : Z) (payload : bytes) : Utp.Packet.t :=
  {| Utp.Packet.pType := Utp.ST_DATA; Utp.Packet.extension := 0;
     Utp.Packet.connectionId := 259; Utp.Packet.seqNr := seqNr;
     Utp.Packet.ackNr := Some 100; Utp.Packet.bitmask := None;
     Utp.Packet.payload := Some payload |}.

(** The socket after DATA packets with the given seq_nrs arrived in the order
  of the list. *)
Definition received (bitmap : list Z) (seqNrs : list Z) : Utp.UtpSocket :=
  foldl (λ s n, (Utp.handleDataPacket bitmap (data n ["042"%byte]) s).1) reader_socket seqNrs.

Definition fin (seqNr : Z) : Utp.Packet.t :=
  {| Utp.Packet.pType := Utp.ST_FIN; Utp.Packet.extension := 0;
     Utp.Packet.connectionId := 259; Utp.Packet.seqNr := seqNr;
     Utp.Packet.ackNr := Some 100; Utp.Packet.bitmask := None;
     Utp.Packet.payload := None |}.

(** An index table that fills each byte of the bitmask from its most
  significant bit. *)
Definition bitmap : list Z :=
  [8; 7; 6; 5; 4; 3; 2; 1; 16; 15; 14; 13; 12; 11; 10; 9;
   24; 23; 22; 21; 20; 19; 18; 17; 32; 31; 30; 29; 28; 27; 26; 25].

(** Codecs for the examples: a string stands for its own bytes, a content key
  is a tag for the type followed by the hash. *)
Definition hexToBytes (s : string) : result bytes := Ok (String.list_byte_of_string s).
Definition toHexString (b : bytes) : string := String.string_of_list_byte b.

Definition getContentKey (t : History.HistoryNetworkContentType) (h : bytes) : string :=
  (match t with
   | History.BlockHeader => "00"
   | History.BlockBody => "01"
   | History.Receipt => "02"
   | History.EpochAccumulator => "03"
   end +:+ String.string_of_list_byte h)%string.

(** Every offered header value decodes to the header of block 1000, a
  pre-merge block, and carries no proof. *)
Definition header_without_proof (value : bytes) : result (bytes * option (list bytes)) :=
  Ok (value, None).

Definition header_1000 (headerBytes : bytes) : result History.Header :=
  Ok {| History.number := 1000; History.header_hash := headerBytes |}.

(** No block can be reassembled and the network does not know the block. *)
Definition no_block (header : option bytes) (body : bytes) : result unit :=
  Throw "invalid block".

Definition unknown_block (hashKey : string) : option unit := None.

(** A hash without collisions: the length of the first child in unary, a
  separator, and the two children. *)
Definition pair_hash (a b : bytes) : bytes :=
  replicate (length a) "001"%byte ++ "000"%byte :: a ++ b.

Definition chunk_of (n : N) : bytes := [default "000"%byte (Byte.of_N (n mod 256))].

(** An epoch accumulator of three records, its root as the only known epoch
  root, and a node that stores the accumulator under its content key. *)
Definition accumulator : list History.HeaderRecord :=
  [ {| History.blockHash := String.list_byte_of_string "h0"; History.totalDifficulty := 17 |};
    {| History.blockHash := String.list_byte_of_string "h1"; History.totalDifficulty := 34 |};
    {| History.blockHash := String.list_byte_of_string "h2"; History.totalDifficulty := 51 |} ].

Definition epoch_root : bytes := History.hashTreeRoot pair_hash chunk_of accumulator.

Definition decode_accumulator (raw : bytes) : result (list History.HeaderRecord) :=
  Ok accumulator.

Definition node : History.State :=
  {| History.db := {[ getContentKey History.EpochAccumulator epoch_root := "epoch"%string ]};
     History.blockIndex := ∅;
     History.events := [];
     History.gossip := [];
     History.peers := 1 |}.

End Samples.

(** ** The selective-ACK window as the specification words it *)

Module SelectiveAckSpec.
Import Utp.

(** "A STATE packet sent after receiving out-of-order DATA carries a
  selective-ACK extension whose 4-byte bitmap covers exactly the 32
  sequence numbers ack_nr+2 through ack_nr+33, with bit i set if and only
  if seq_nr ack_nr+2+i has been received", for a READ socket that uses the
  index table [bitmap]. *)
Definition as_claimed (bitmap : list Z) : Prop :=
  ∀ (s : UtpSocket) (packet : Packet.t) (a : Z),
    type s = READ →
    ackNr s = Some a →
    (1 < length (ackNrs s))%nat →
    a + 1 ≠ Packet.seqNr packet →
    let s' := (handleDataPacket bitmap packet s).1 in
    ∃ p mask,
      last (sent s') = Some p
      ∧ Packet.pType p = ST_STATE
      ∧ Packet.bitmask p = Some mask
      ∧ length mask = 4%nat
      ∧ ∀ i, (i < 32)%nat →
          (mask_bit mask i = true
           ↔ JsArray.includes (ackNrs s') (a + 2 + Z.of_nat i) = true).

(** An index table is usable when it sends the 32 positions one-to-one to
  the slots 1..32. *)
Definition table_ok (bitmap : list Z) : Prop :=
  length bitmap = 32%nat ∧ Forall (λ b, 1 ≤ b ≤ 32) bitmap ∧ NoDup bitmap.
End SelectiveAckSpec.

(** The recorded seq_nrs after [k] packets arrived in order from [first] on. *)
Definition run_of (first : Z) (k : nat) : list (option Z) :=
  map (λ i, Some (first + Z.of_nat i)) (seq 0 k).

(** ** The history network, earlier revision of the protocol class

    [addContentToHistory], the predecessor of [store]: the same dispatch by
    content type, where a refused header or body returns before anything is
    written or emitted. *)

Module HistoryLegacy.

Inductive HistoryNetworkContentTypes := BlockHeader | BlockBody | Receipt | Unknown.

Inductive Event :=
| ContentAdded (blockHash : string) (contentType : HistoryNetworkContentTypes) (value : string).

Section protocol.
(** What a header updates besides the store, the header accumulator and the
    canonical block index: [headerEffects] stands for these updates, which
    run inside the try block and may throw after a part of them is done. *)
Variable Aux : Type.
Variable Header : Type.
Variable Block : Type.
Variable headerEffects : Header → Aux → Aux * result unit.

(** The codecs, which throw on input they cannot read (a block hash that is
    no hex string), the network lookup of [getBlockByHash(blockHash, false)],
    which throws, finds a block or finds none, and the listeners of the
    client's ContentAdded event, which [emit] runs and which may throw. *)
Variable getHistoryNetworkContentId
  : Z → string → HistoryNetworkContentTypes → result string.
Variable fromHexString : string → result bytes.
Variable toHexString : bytes → string.
Variable fromRLPSerializedHeader : bytes → result Header.
Variable reassembleBlock : bytes → bytes → result Block.
Variable getBlockByHash : string → result (option Block).
Variable listeners : Event → result unit.

Record State := mkState {
  db : gmap string string;
  events : list Event;
  aux : Aux
}.

(** [this.client.emit('ContentAdded', blockHash, contentType, value)]: the
    event goes out and the listeners run. *)
Definition added (blockHash : string) (contentType : HistoryNetworkContentTypes)
    (value : bytes) (st : State) : State * result unit :=
  let e := ContentAdded blockHash contentType (toHexString value) in
  (mkState (db st) (events st ++ [e]) (aux st), listeners e).

(** The block body is valid when a block can be reassembled from the stored
    header and the body or, failing that (no content id, no stored header,
    no block), when the network lookup of the block by its hash returns a
    block; the lookup is made outside any try block. *)
Definition validBlock (blockHash : string) (value : bytes) (st : State) : result bool :=
  let local : result Block :=
    let? headerContentId := getHistoryNetworkContentId 1 blockHash BlockHeader in
    match db st !! headerContentId with
    | Some hexHeader =>
        let? header := fromHexString hexHeader in
        reassembleBlock header value
    | None => Throw "NotFound"
    end in
  match local with
  | Ok _ => Ok true
  | Throw _ =>
      let? retrievedHeader := getBlockByHash blockHash in
      Ok (if retrievedHeader is Some _ then true else false)
  end.

Definition addContentToHistory (chainId : Z) (contentType : HistoryNetworkContentTypes)
    (blockHash : string) (value : bytes) (st : State) : State * result unit :=
  match getHistoryNetworkContentId chainId blockHash contentType with
  | Throw m => (st, Throw m)
  | Ok contentId =>
      match contentType with
      | BlockHeader =>
          match fromRLPSerializedHeader value with
          | Ok header =>
              match headerEffects header (aux st) with
              | (aux', Ok _) =>
                  added blockHash contentType value
                    (mkState (<[contentId := toHexString value]> (db st)) (events st) aux')
              | (aux', Throw _) => (mkState (db st) (events st) aux', Ok ())
              end
          | Throw _ => (st, Ok ())
          end
      | BlockBody =>
          match validBlock blockHash value st with
          | Ok true =>
              added blockHash contentType value
                (mkState (<[contentId := toHexString value]> (db st)) (events st) (aux st))
          | Ok false => (st, Ok ())
          | Throw m => (st, Throw m)
          end
      | Receipt => (st, Throw "Receipts data not implemented")
      | Unknown => (st, Throw "unknown data type provided")
      end
  end.
End protocol.

End HistoryLegacy.

(** ** uTP: the socket's other senders and packet handlers *)

Module UtpHandlers.
Import Utp.

(** [sendSynPacket(pktId?)]: a SYN for the connection id given, the socket's
    receive id by default; the state becomes SynSent. *)
Definition sendSynPacket (pktId : option Z) (s : UtpSocket) : UtpSocket :=
  let '(p, s1) :=
    createPacket {| opt_pType := ST_SYN;
                    opt_connectionId := Some (default (rcvConnectionId s) pktId);
                    opt_bitmask := None; opt_payload := None |} s in
  sendPacket p (setState SynSent s1).

Definition sendResetPacket (s : UtpSocket) : UtpSocket :=
  let s := setState Reset s in
  let '(packet, s1) :=
    createPacket {| opt_pType := ST_RESET; opt_connectionId := None;
                    opt_bitmask := None; opt_payload := None |} s in
  sendPacket packet s1.

(** [sendDataPacket] with the answer of the congestion controller's
    [canSend]: when it rejects, the socket sends a RESET and closes, and the
    function goes on after the [catch] with the DATA packet. *)
Definition sendDataPacket_gated (canSend : bool) (payload : bytes) (s : UtpSocket)
  : UtpSocket :=
  let s := setState Connected s in
  let s := if canSend then s else sendResetPacket s in
  let '(packet, s1) :=
    createPacket {| opt_pType := ST_DATA; opt_connectionId := None;
                    opt_bitmask := None; opt_payload := Some payload |} s in
  sendPacket packet s1.

(** What a socket may be asked to send. *)
Inductive Send :=
| SendSyn (pktId : option Z)
| SendAck (bitmask : option bytes)
| SendFin
| SendReset
| SendData (canSend : bool) (payload : bytes).

Definition send (c : Send) (s : UtpSocket) : UtpSocket :=
  match c with
  | SendSyn pktId => sendSynPacket pktId s
  | SendAck bitmask => sendAckPacket bitmask s
  | SendFin => sendFinPacket s
  | SendReset => sendResetPacket s
  | SendData canSend payload => sendDataPacket_gated canSend payload s
  end.

Definition is_data (c : Send) : bool :=
  match c with SendData _ _ => true | _ => false end.

Definition is_data_packet (p : Packet.t) : bool :=
  bool_decide (Packet.pType p = ST_DATA).

(** [handleSynPacket(seqNr)].  A READ socket makes its reader for the seq_nr
    after the SYN's; a WRITE socket takes a random seq_nr ([randUint16()],
    given here as [rand]) and, after the SYN-ACK, asks for a writer that
    starts there: the second component is the argument of [setWriter]. *)
Definition handleSynPacket (seq : Z) (rand : Z) (s : UtpSocket) : UtpSocket * option Z :=
  let s := setState SynRecv s in
  let s := setAckNr (Some seq) s in
  if decide (type s = READ) then
    (sendSynAckPacket (setReader (seq + 1) s), None)
  else
    let s := setSeqNr rand s in
    let s := sendSynAckPacket s in
    (s, Some (seqNr s)).

(** [handleFinAck] *)
Definition handleFinAck (s : UtpSocket) : UtpSocket := setState Closed s.

(** The writer as the socket reads it: [dataChunks], an object keyed by
    seq_nr, as the list of its entries in the order of [Object.keys], and
    [dataNrs]. *)
Record Writer := {
  dataChunks : list (Z * bytes);
  dataNrs : list Z
}.

(** [updateAckNrs(ackNr)]: the keys of the writer's chunks up to [ackNr]. *)
Definition updateAckNrs (ackNr : Z) (w : Writer) (s : UtpSocket) : UtpSocket :=
  withAckNrs (Some <$> filter (λ n, n ≤ ackNr) (fst <$> dataChunks w)) s.

(** [compare()] *)
Definition compare (w : Writer) (s : UtpSocket) : bool :=
  negb (bool_decide (None ∈ ackNrs s))
  && bool_decide (length (ackNrs s) = length (dataNrs w)).

Section state_packet.
(** [writer.write()], of the writer class that is not under src/. *)
Variable write : Writer → UtpSocket → Writer * UtpSocket.

(** [handleStatePacket(ackNr, timestamp)]; the round-trip time and the
    window are the packet manager's, [logProgress] only logs. *)
Definition handleStatePacket (ackNr : Z) (w : option Writer) (s : UtpSocket)
  : option Writer * UtpSocket * result unit :=
  if decide (Some ackNr = finNr s) then (w, handleFinAck s, Ok ())
  else if decide (type s = READ) then (w, s, Ok ())
  else
    match w with
    | None => (None, s, Throw "Cannot read properties of undefined (reading 'dataChunks')")
    | Some wr =>
        let s := updateAckNrs ackNr wr s in
        if compare wr s then (Some wr, sendFinPacket s, Ok ())
        else let '(wr', s') := write wr s in (Some wr', s', Ok ())
    end.
End state_packet.

(** [handleFinPacket(packet, compile)]: a WRITE socket closes without
    compiling; a READ socket acknowledges the FIN when it follows ackNr. *)
Definition handleFinPacket (packet : Packet.t) (compile_flag : bool) (s : UtpSocket)
  : UtpSocket * result (option bytes) :=
  if decide (type s = WRITE) then
    let s := setState GotFin s in (s, Ok (close false s))
  else handleFinPacket_read packet compile_flag s.

(** Every recorded seq_nr stands at its offset from the first one. *)
Definition recorded_at_offsets (a : list (option Z)) : Prop :=
  ∀ (i : nat) (x : Z), a !! i = Some (Some x) →
    ∃ first, JsArray.get a 0 = Some first ∧ x = first + Z.of_nat i.

(** The socket after DATA packets arrived in the order of the list. *)
Definition receive (bitmap : list Z) (packets : list Packet.t) (s : UtpSocket) : UtpSocket :=
  foldl (λ s p, (handleDataPacket bitmap p s).1) s packets.

(** The STATE packet that [sendAckPacket] makes in socket state [s]. *)
Definition ack_of (bitmask : option bytes) (s : UtpSocket) : Packet.t :=
  {| Packet.pType := ST_STATE;
     Packet.extension := if bitmask is Some _ then 1 else 0;
     Packet.connectionId := rcvConnectionId s;
     Packet.seqNr := seqNr s;
     Packet.ackNr := ackNr s;
     Packet.bitmask := bitmask;
     Packet.payload := None |}.

(** The FIN that [sendFinPacket] makes in socket state [s]. *)
Definition fin_of (s : UtpSocket) : Packet.t :=
  {| Packet.pType := ST_FIN;
     Packet.extension := 0;
     Packet.connectionId := rcvConnectionId s;
     Packet.seqNr := seqNr s;
     Packet.ackNr := ackNr s;
     Packet.bitmask := None;
     Packet.payload := None |}.

(** The plain STATE packet that answers DATA packet [p], the packet number
    [i] (from 0) of a run that reaches a socket in state [s] in order. *)
Definition in_order_reply (s : UtpSocket) (i : nat) (p : Packet.t) : Packet.t :=
  {| Packet.pType := ST_STATE;
     Packet.extension := 0;
     Packet.connectionId := rcvConnectionId s;
     Packet.seqNr := seqNr s + 1 + Z.of_nat i;
     Packet.ackNr := Some (Packet.seqNr p);
     Packet.bitmask := None;
     Packet.payload := None |}.

(** The recorded seq_nrs once a first one is in place: the first one stays
    at index 0, every seq_nr stands at its offset, and the last slot is not
    a hole. *)
Definition record_from (first : Z) (a : list (option Z)) : Prop :=
  a !! 0%nat = Some (Some first)
  ∧ (∀ (i : nat) (x : Z), a !! i = Some (Some x) → x = first + Z.of_nat i)
  ∧ (∀ o, last a = Some o → is_Some o).

(** ackNr [m] is the end of the run of consecutive recorded seq_nrs that
    starts at the first one. *)
Definition contiguous_up_to (first m : Z) (a : list (option Z)) : Prop :=
  first ≤ m
  ∧ (∀ x, first ≤ x ≤ m → JsArray.includes a x = true)
  ∧ JsArray.includes a (m + 1) = false.

End UtpHandlers.

(** ** The history network: reading the store back *)

Module HistoryReads.
Import History.

Section reads.
Variable hexToBytes : string → result bytes.
Variable fromHexString : string → result bytes.
Variable toHexString : bytes → string.
Variable getContentKey : HistoryNetworkContentType → bytes → string.
Variable BlockHeaderWithProof_deserialize : bytes → result (bytes * option (list bytes)).
Variable Block : Type.
(** [reassembleBlock(header, body)], either of which may be [undefined]. *)
Variable reassembleBlock : option bytes → option bytes → result Block.

(** [findContentLocally(contentKey)] *)
Definition findContentLocally (contentKey : bytes) (st : State) : result bytes :=
  match truthy (retrieve (toHexString contentKey) st) with
  | Some value => hexToBytes value
  | None => hexToBytes "0x"
  end.

(** [getBlockBodyBytes(blockHash)] *)
Definition getBlockBodyBytes (blockHash : bytes) (st : State) : result (option bytes) :=
  match truthy (retrieve (getContentKey BlockBody blockHash) st) with
  | Some value => let? body := hexToBytes value in Ok (Some body)
  | None => Ok None
  end.

(** [getBlockFromDB(blockHash, includeTransactions)] *)
Definition getBlockFromDB (blockHash : bytes) (includeTransactions : bool) (st : State)
  : result Block :=
  let? header :=
    getBlockHeaderFromDB fromHexString getContentKey BlockHeaderWithProof_deserialize
      blockHash st in
  match header with
  | None => Throw "Block not found"
  | Some h =>
      let? body := getBlockBodyBytes blockHash st in
      match body with
      | None =>
          if includeTransactions then Throw "Block body not found"
          else reassembleBlock (Some h) None
      | Some b => reassembleBlock (Some h) (Some b)
      end
  end.
End reads.
End HistoryReads.

(** ** The client: connecting to the bootnodes *)

Module ClientBootstrap.
Import Client.

Section bootstrap.
(** The state that adding a bootnode works on, [network.addBootNode(enr)] of
    the network class that is not under src/, and the text of the error that
    [bootstrap] throws for a bootnode, a network and the message of the
    failure. *)
Variable St : Type.
Variable addBootNode : NetworkId → string → St → St * result unit.
Variable errorMessage : string → NetworkId → string → string.

(** The inner loop of [bootstrap]: the bootnodes of one network. *)
Fixpoint addBootNodes (network : NetworkId) (bootnodes : list string) (st : St)
  : St * result unit :=
  match bootnodes with
  | [] => (st, Ok ())
  | enr :: rest =>
      match addBootNode network enr st with
      | (st', Ok _) => addBootNodes network rest st'
      | (st', Throw m) => (st', Throw (errorMessage enr network m))
      end
  end.

(** [bootstrap()]: [networks] are the keys of the client's network map in
    the order of insertion. *)
Fixpoint bootstrap (networks : list NetworkId) (bootnodes : list string) (st : St)
  : St * result unit :=
  match networks with
  | [] => (st, Ok ())
  | network :: rest =>
      match addBootNodes network bootnodes st with
      | (st', Ok _) => bootstrap rest bootnodes st'
      | (st', Throw m) => (st', Throw m)
      end
  end.

(** Every bootnode for every network, network by network. *)
Definition attempts (networks : list NetworkId) (bootnodes : list string)
  : list (NetworkId * string) :=
  network ← networks; (λ enr, (network, enr)) <$> bootnodes.

Definition attempt (st : St) (a : NetworkId * string) : St := (addBootNode a.1 a.2 st).1.

(** Every attempt of the list, made one after the other from [st], returns
    normally: the bootnode was added. *)
Fixpoint all_added (st : St) (todo : list (NetworkId * string)) : Prop :=
  match todo with
  | [] => True
  | a :: rest => (addBootNode a.1 a.2 st).2 = Ok () ∧ all_added (attempt st a) rest
  end.

(** What [bootstrap] leaves behind, [todo] being the attempts it had to
    make: either all were made and succeeded, or it threw at the first one
    that failed, after the ones before it had succeeded. *)
Definition outcome (st : St) (todo : list (NetworkId * string)) (r : St * result unit)
  : Prop :=
  match r.2 with
  | Ok _ => all_added st todo ∧ r.1 = foldl attempt st todo
  | Throw msg =>
      ∃ tried network enr rest m,
        todo = tried ++ (network, enr) :: rest
        ∧ all_added st tried
        ∧ addBootNode network enr (foldl attempt st tried) = (r.1, Throw m)
        ∧ msg = errorMessage enr network m
  end.
End bootstrap.
End ClientBootstrap.

(** ** More concrete inputs *)

Module MoreSamples.

(** A WRITE socket with two bytes to send, a writer with two chunks, and a
    [write] that sends nothing. *)
Definition writer_socket : Utp.UtpSocket :=
  Utp.constructor
    {| Utp.o_type := Utp.WRITE; Utp.o_content := Some ["001"; "002"]%byte;
       Utp.o_remoteAddress := "0xabc";
       Utp.o_rcvId := 258; Utp.o_sndId := 259; Utp.o_seqNr := 3; Utp.o_ackNr := 100 |}.

Definition two_chunks : UtpHandlers.Writer :=
  {| UtpHandlers.dataChunks := [(1, ["001"%byte]); (2, ["002"%byte])];
     UtpHandlers.dataNrs := [1; 2] |}.

Definition write_nothing (w : UtpHandlers.Writer) (s : Utp.UtpSocket)
  : UtpHandlers.Writer * Utp.UtpSocket := (w, s).

(** Every offered header value decodes to the header of block 1 and carries
    the proof that the sample node generates for block 1. *)
Definition header_with_proof_1 (value : bytes)
  : result (bytes * option (list bytes)) :=
  Ok (value,
      match
        History.generateInclusionProof Samples.pair_hash Samples.chunk_of
          [Samples.epoch_root] Samples.hexToBytes Samples.getContentKey
          Samples.decode_accumulator 1 Samples.node
      with
      | Ok witnesses => Some witnesses
      | Throw _ => None
      end).

Definition header_1 (headerBytes : bytes) : result History.Header :=
  Ok {| History.number := 1; History.header_hash := headerBytes |}.

(** The same, with the first byte of the first witness set to zero. *)
Definition header_with_tampered_proof_1 (value : bytes)
  : result (bytes * option (list bytes)) :=
  Ok (value,
      match
        History.generateInclusionProof Samples.pair_hash Samples.chunk_of
          [Samples.epoch_root] Samples.hexToBytes Samples.getContentKey
          Samples.decode_accumulator 1 Samples.node
      with
      | Ok witnesses => Some (Merkle.tamper witnesses 0 0 "000"%byte)
      | Throw _ => None
      end).

(** Every offered header value decodes to a header from after the merge. *)
Definition header_post_merge (headerBytes : bytes) : result History.Header :=
  Ok {| History.number := 15537394; History.header_hash := headerBytes |}.

(** A block is the pair of its header and body. *)
Definition block_of_parts (header body : option bytes)
  : result (option bytes * option bytes) := Ok (header, body).

Definition no_lookup (hashKey : string) : option (option bytes * option bytes) := None.

(** The earlier protocol class: no side effects of a header, the block hash
    as content id, every header and block readable, a network that finds no
    block and no listener that throws. *)
Definition no_effects (h : unit) (a : unit) : unit * result unit := (a, Ok ()).
Definition content_id (chainId : Z) (blockHash : string)
    (t : HistoryLegacy.HistoryNetworkContentTypes) : result string := Ok blockHash.
Definition any_header (b : bytes) : result unit := Ok ().
Definition any_block (h b : bytes) : result unit := Ok ().
Definition block_not_found (blockHash : string) : result (option unit) := Ok None.
Definition quiet_listeners (e : HistoryLegacy.Event) : result unit := Ok ().

End MoreSamples.

(** * Properties *)

(** ** Connection ids (uTP multiplexer) *)

Section connection_ids.
Import Utp PortalNetworkUTP.

(** C6: for every connection id [c] chosen by the initiator, the socket
  created for FOUNDCONTENT_WRITE and for ACCEPT_READ has
  sndConnectionId = c + 1 and rcvConnectionId = c, and the socket created
  for FINDCONTENT_READ and for OFFER_WRITE has the two swapped
  (sndConnectionId = c, rcvConnectionId = c + 1). *)
Theorem connection_id_allocation
    (c : Z) (startingNrs : RequestCode → StartingNrs) (peer : string)
    (content : option bytes) (requestCode : RequestCode) :
  let ids := startingIdNrs c requestCode in
  let socket :=
    createPortalNetworkUTPSocket startingNrs requestCode peer
      (sndId ids) (rcvId ids) content in
  match requestCode with
  | FOUNDCONTENT_WRITE | ACCEPT_READ =>
      sndConnectionId socket = c + 1 ∧ rcvConnectionId socket = c
  | FINDCONTENT_READ | OFFER_WRITE =>
      sndConnectionId socket = c ∧ rcvConnectionId socket = c + 1
  end.
Proof. destruct requestCode; simpl; split; reflexivity. Qed.
End connection_ids.

(** ** The writer: chunks and DATA packets *)

Section writer.
Import Utp ContentWriter.

Lemma chunk_loop_length n i rest : length (chunk_loop n i rest) = n.
Proof.
  revert i rest. induction n as [|n IH]; intros i rest; simpl; [done|].
  by rewrite IH.
Qed.

Lemma chunk_loop_concat n i rest :
  (length rest ≤ PAYLOAD_SIZE * n)%nat →
  concat (map snd (chunk_loop n i rest)) = rest.
Proof.
  revert i rest. induction n as [|n IH]; intros i rest Hlen; simpl.
  - destruct rest; [done | simpl in Hlen; lia].
  - rewrite IH; [apply take_drop|].
    rewrite length_drop. lia.
Qed.

Lemma chunk_loop_bound n i rest :
  Forall (λ c, (length c.2 ≤ PAYLOAD_SIZE)%nat) (chunk_loop n i rest).
Proof.
  revert i rest. induction n as [|n IH]; intros i rest; simpl; constructor.
  - simpl. rewrite length_take. lia.
  - apply IH.
Qed.

Lemma total_ceiling (content : bytes) :
  (length content ≤ PAYLOAD_SIZE * total content < length content + PAYLOAD_SIZE)%nat.
Proof.
  unfold total, PAYLOAD_SIZE.
  pose proof (Nat.div_mod_eq (length content + (512 - 1)) 512) as E.
  pose proof (Nat.mod_upper_bound (length content + (512 - 1)) 512) as B.
  lia.
Qed.

Lemma length_concat_sum (l : list bytes) :
  length (concat l) = sum_list (map length l).
Proof. induction l as [|x l IH]; simpl; [done|]. rewrite length_app, IH. done. Qed.

Lemma write_all_sent chunks : ∀ s,
  sent (write_all chunks s) = sent s ++ imap (data_packet s) chunks
  ∧ seqNr (write_all chunks s) = seqNr s + Z.of_nat (length chunks)
  ∧ ackNr (write_all chunks s) = ackNr s
  ∧ rcvConnectionId (write_all chunks s) = rcvConnectionId s.
Proof.
  induction chunks as [|c chunks IH]; intros s.
  - simpl. rewrite app_nil_r. repeat split; lia.
  - unfold write_all in *. simpl foldl.
    destruct (IH (sendDataPacket c.2 s)) as (Hs & Hq & Ha & Hr).
    rewrite Hs, Hq, Ha, Hr. simpl.
    repeat split; try lia.
    rewrite <- app_assoc. simpl. f_equal. f_equal.
    + unfold data_packet. simpl. f_equal. lia.
    + apply imap_ext. intros k x _. unfold data_packet. simpl.
      f_equal. lia.
Qed.

Lemma seqNr_imap_data_packet s chunks :
  map Packet.seqNr (imap (data_packet s) chunks)
  = map (λ k, seqNr s + Z.of_nat k) (seq 0 (length chunks)).
Proof.
  apply list_eq. intros k.
  rewrite !list_lookup_fmap, list_lookup_imap.
  destruct (chunks !! k) as [c|] eqn:E; simpl.
  - rewrite lookup_seq_lt by (by eapply lookup_lt_Some). done.
  - rewrite lookup_seq_ge by (by apply lookup_ge_None). done.
Qed.

(** C7: for every content of N bytes (in particular N > 0) the chunker
  produces exactly ceil(N / 512) chunks, none longer than 512 bytes, whose
  lengths add up to N (they are the content, cut in order); the writer
  emits one DATA packet per chunk, and the seq_nrs of these packets are
  the contiguous range seqNr, seqNr + 1, ..., seqNr + ceil(N/512) - 1 of
  the socket, hence distinct. *)
Theorem chunker_and_data_packets (s : UtpSocket) :
  let N := length (content s) in
  let chunks := chunk (content s) in
  let k := length chunks in
  (N ≤ 512 * k < N + 512)%nat
  ∧ k = ((N + 511) / 512)%nat
  ∧ sum_list (map (λ c, length c.2) chunks) = N
  ∧ concat (map snd chunks) = content s
  ∧ Forall (λ c, (length c.2 ≤ 512)%nat) chunks
  ∧ ∃ packets,
      sent (start s) = sent s ++ packets
      ∧ Forall (λ p, Packet.pType p = ST_DATA) packets
      ∧ map Packet.payload packets = map (λ c, Some c.2) chunks
      ∧ map Packet.seqNr packets = map (λ i, seqNr s + Z.of_nat i) (seq 0 k)
      ∧ NoDup (map Packet.seqNr packets).
Proof.
  intros N chunks k.
  assert (Hk : k = total (content s)) by apply chunk_loop_length.
  pose proof (total_ceiling (content s)) as Hc. fold N in Hc. rewrite <- Hk in Hc.
  assert (Hcat : concat (map snd chunks) = content s).
  { apply chunk_loop_concat. fold N. rewrite <- Hk. unfold PAYLOAD_SIZE in *. lia. }
  split; [exact Hc|]. split; [exact Hk|]. split.
  { replace (map (λ c : Z * bytes, length c.2) chunks) with (map length (map snd chunks))
      by (rewrite map_map; done).
    rewrite <- length_concat_sum, Hcat. done. }
  split; [exact Hcat|]. split; [apply chunk_loop_bound|].
  exists (imap (data_packet s) chunks).
  destruct (write_all_sent chunks s) as (Hs & _).
  split; [exact Hs|]. split.
  { apply Forall_forall. intros p Hp.
    apply list_elem_of_lookup in Hp as [i Hi]. rewrite list_lookup_imap in Hi.
    destruct (chunks !! i); simpl in Hi; [|done]. by inversion Hi. }
  split.
  { apply list_eq. intros i. rewrite !list_lookup_fmap, list_lookup_imap.
    by destruct (chunks !! i). }
  split; [apply seqNr_imap_data_packet|].
  rewrite seqNr_imap_data_packet.
  apply NoDup_fmap_2; [|apply NoDup_seq].
  intros a b Hab. lia.
Qed.
End writer.

(** ** Sending a message: which failures are swallowed *)

Section client_send.
Import Client.
Variable sendTalkReq : ENR → bytes → NetworkId → result bytes.

Lemma send_no_address enr payload networkId utpMessage st :
  nodeAddr enr networkId st = None →
  sendPortalNetworkMessage sendTalkReq enr payload networkId utpMessage st = (st, Ok []).
Proof. intros H. unfold sendPortalNetworkMessage. by rewrite H. Qed.

Lemma send_throw_inv enr payload networkId utpMessage st :
  is_Throw (sendPortalNetworkMessage sendTalkReq enr payload networkId utpMessage st).2 →
  networkId = UTPNetwork
  ∧ ∃ addr, nodeAddr enr networkId st = Some addr
            ∧ is_Throw (sendTalkReq addr payload (messageNetwork networkId utpMessage)).
Proof.
  unfold sendPortalNetworkMessage. intros [m Hm].
  destruct (nodeAddr enr networkId st) as [addr|]; [|discriminate].
  destruct (sendTalkReq addr payload _) as [res|err] eqn:E; [discriminate|].
  destruct (decide (networkId = UTPNetwork)) as [->|]; [|discriminate].
  split; [done|]. exists addr. split; [done|]. by exists err.
Qed.

(** With the network id of an overlay the listener of 'Send' never sees an
  exception: a failed TALKREQ is answered by the empty array, 'Sent' is
  emitted and the open requests stay as they are. *)
Lemma onSend_overlay peerId msg networkId st :
  networkId ≠ UTPNetwork →
  ∃ st', onSend sendTalkReq peerId msg networkId st = (st', Ok ())
         ∧ openContentRequest st' = openContentRequest st
         ∧ last (events st') = Some Sent.
Proof.
  intros Hne. unfold onSend, sendPortalNetworkMessage.
  destruct (nodeAddr _ networkId st) as [addr|].
  - destruct (sendTalkReq addr msg _) as [res|err].
    + destruct (eventLog st); eexists; (split; [reflexivity|]); simpl;
        (split; [done|]); apply last_snoc.
    + destruct (decide (networkId = UTPNetwork)); [done|].
      eexists. split; [reflexivity|]. simpl. split; [done|]. apply last_snoc.
  - eexists. split; [reflexivity|]. simpl. split; [done|]. apply last_snoc.
Qed.

(** A call of sendPortalNetworkMessage for an overlay network (any network
  id but the uTP one) never throws, and answers the empty byte array when no
  reachable address is found or when the TALKREQ fails; an exception leaves
  the function only for the uTP network id, as the failure of a TALKREQ. *)
Lemma overlay_send_never_throws
    (enr : ENR + string) (payload : bytes) (networkId : NetworkId)
    (utpMessage : option bool) (st : State) :
  let r := sendPortalNetworkMessage sendTalkReq enr payload networkId utpMessage st in
  (networkId ≠ UTPNetwork →
     is_Ok r.2
     ∧ (nodeAddr enr networkId st = None → r = (st, Ok []))
     ∧ (∀ addr, nodeAddr enr networkId st = Some addr →
          is_Throw (sendTalkReq addr payload (messageNetwork networkId utpMessage)) →
          r = (st, Ok [])))
  ∧ (is_Throw r.2 →
       networkId = UTPNetwork
       ∧ messageNetwork networkId utpMessage = UTPNetwork
       ∧ ∃ addr, nodeAddr enr networkId st = Some addr
                 ∧ is_Throw (sendTalkReq addr payload UTPNetwork)).
Proof.
  intros r. split.
  - intros Hne. subst r. unfold sendPortalNetworkMessage.
    destruct (nodeAddr enr networkId st) as [addr|] eqn:Ha.
    + destruct (sendTalkReq addr payload _) as [res|err] eqn:E.
      * split; [by eexists|]. split; [done|].
        intros addr' [= <-] [m Hm]. congruence.
      * destruct (decide (networkId = UTPNetwork)); [done|].
        split; [by eexists|]. split; [done|]. done.
    + split; [by eexists|]. split; done.
  - intros Ht. apply send_throw_inv in Ht as (-> & addr & Ha & Hf).
    split; [done|].
    assert (Hm : messageNetwork UTPNetwork utpMessage = UTPNetwork)
      by (by destruct utpMessage).
    split; [done|]. exists addr. by rewrite Hm in Hf.
Qed.

(** No client has a network under the uTP id when it leaves the
  constructor. *)
Lemma constructor_registers_no_utp_network supportedNetworks log :
  networks (constructor supportedNetworks log) UTPNetwork = None.
Proof. reflexivity. Qed.

(** C10 (evaluation of the code where it departs from the claim): the
  listener of 'Send' hands a uTP datagram to sendPortalNetworkMessage with
  the network id of the event.  In a client that has no network under the
  uTP id, as the constructor leaves it, no failure of the transport reaches
  the listener, whatever the network id of the event is: the call returns
  normally, 'Sent' is emitted, and the open content requests are what they
  were, so the request of a datagram that could not be sent stays open. *)
Theorem failed_utp_send_is_reported_sent
    (peerId : string) (msg : bytes) (networkId : NetworkId) (st : State) :
  networks st UTPNetwork = None →
  is_Ok (sendPortalNetworkMessage sendTalkReq (sendTarget peerId networkId st) msg
           networkId (Some true) st).2
  ∧ ∃ st', onSend sendTalkReq peerId msg networkId st = (st', Ok ())
           ∧ openContentRequest st' = openContentRequest st
           ∧ last (events st') = Some Sent.
Proof.
  intros Hutp.
  destruct (decide (networkId = UTPNetwork)) as [->|Hne].
  - unfold onSend, sendPortalNetworkMessage, sendTarget, nodeAddr. rewrite Hutp. simpl.
    split; [by eexists|].
    eexists. split; [reflexivity|]. simpl. split; [done|]. apply last_snoc.
  - split; [|by apply onSend_overlay].
    by apply (overlay_send_never_throws _ msg networkId (Some true) st).
Qed.
End client_send.

Lemma failed_utp_send_is_reported_sent_witness :
  Client.nodeAddr (inr "0xabc"%string) Client.HistoryNetwork Samples.client
  = Some Samples.peer_enr
  ∧ is_Throw (Samples.unreachable Samples.peer_enr Samples.utp_datagram Client.UTPNetwork)
  ∧ ∃ st', Client.onSend Samples.unreachable "0xabc" Samples.utp_datagram
             Client.HistoryNetwork Samples.client = (st', Ok ())
           ∧ is_Some (Client.openContentRequest st' !! ("0xabc"%string, 258))
           ∧ last (Client.events st') = Some Client.Sent.
Proof.
  split; [reflexivity|]. split; [by eexists|].
  destruct (failed_utp_send_is_reported_sent Samples.unreachable "0xabc"
              Samples.utp_datagram Client.HistoryNetwork Samples.client)
    as (_ & st' & Hsend & Hopen & Hsent).
  - reflexivity.
  - exists st'. split; [exact Hsend|]. split; [|exact Hsent].
    rewrite Hopen. by eexists.
Defined.

(** ** Gossip: who is offered a new content key *)

Section gossip.
Import Gossip.

#[local] Instance closer_trans id : Transitive (closer id).
Proof. unfold closer. intros a b c. lia. Qed.

#[local] Instance closer_total id : Total (closer id).
Proof. unfold closer. intros a b. lia. Qed.

Lemma filter_nil_of_none {A} (P : A → Prop) `{∀ x, Decision (P x)} (l : list A) :
  Forall (λ x, ¬ P x) l → filter P l = [].
Proof.
  induction 1 as [|x l Hx _ IH]; [done|].
  rewrite filter_cons. destruct (decide (P x)); [done | exact IH].
Qed.

(** In a list sorted by distance, the elements strictly closer than the one
  at position [i] all stand before it. *)
Lemma sorted_closer_count id (l : list NodeId) (i : nat) (peer : NodeId) :
  StronglySorted (closer id) l →
  l !! i = Some peer →
  (length (filter (λ q, (distance id q < distance id peer)%Z) l) ≤ i)%nat.
Proof.
  intros Hs Hi.
  pose proof (lookup_lt_Some _ _ _ Hi) as Hlt.
  rewrite <- (take_drop_middle l i peer Hi) in Hs |- *.
  apply StronglySorted_app_1_r in Hs.
  apply StronglySorted_inv in Hs as [_ Hall].
  rewrite filter_app, filter_cons.
  destruct (decide (distance id peer < distance id peer)) as [Habs|_]; [lia|].
  rewrite (filter_nil_of_none _ (drop (S i) l)).
  - rewrite app_nil_r.
    etrans; [apply length_filter|]. rewrite length_take. lia.
  - eapply Forall_impl; [exact Hall|]. unfold closer. intros q Hq. simpl in Hq. lia.
Qed.

Lemma nearest_closer_count rt id limit peer :
  peer ∈ nearest rt id limit →
  peer ∈ values rt ∧ (length (strictly_closer rt id peer) < limit)%nat.
Proof.
  unfold nearest, strictly_closer. intros Hin.
  apply list_elem_of_lookup in Hin as [i Hi].
  apply lookup_take_Some in Hi as [Hi Hlt].
  pose proof (merge_sort_Permutation (closer id) (values rt)) as Hp.
  split.
  - rewrite <- Hp. apply list_elem_of_lookup. by exists i.
  - rewrite <- Hp.
    eapply Nat.le_lt_trans; [|exact Hlt].
    apply sorted_closer_count; [|exact Hi].
    apply StronglySorted_merge_sort; apply _.
Qed.

(** The comparison with the radius is strict: a peer whose distance to the
  content id equals its radius is not offered the key. *)
Lemma gossip_radius_strict rt contentId key peer :
  peer ∈ gossipHistoryNetworkContent rt contentId key →
  ∃ r, getRadius rt peer = Some r ∧ distance peer contentId < r.
Proof.
  unfold gossipHistoryNetworkContent. intros Hin.
  apply list_elem_of_filter in Hin as [Hc _].
  apply andb_true_iff in Hc as [_ Hr]. unfold within_radius in Hr.
  destruct (getRadius rt peer) as [r|]; [|done].
  exists r. split; [done|]. lia.
Qed.

(** C5: gossip of a newly added content key sends an OFFER to a peer only
  if the peer is among the 5 nearest peers of the routing table to the
  content id (it is one of the 5 that [nearest] returns: a peer of the
  table with fewer than 5 peers strictly closer), the radius the peer
  advertised covers the content id (distance(peer, content-id) ≤ radius),
  and the key is not recorded as already offered to the peer. *)
Theorem gossip_offer_only_if
    (rt : RoutingTable) (contentId : NodeId) (key : string) (peer : NodeId) :
  peer ∈ gossipHistoryNetworkContent rt contentId key →
  peer ∈ nearest rt contentId 5
  ∧ peer ∈ values rt
  ∧ (length (strictly_closer rt contentId peer) < 5)%nat
  ∧ (∃ radius, getRadius rt peer = Some radius ∧ distance peer contentId ≤ radius)
  ∧ contentKeyKnownToPeer rt peer key = false.
Proof.
  intros Hin.
  destruct (gossip_radius_strict _ _ _ _ Hin) as (r & Hr & Hlt).
  unfold gossipHistoryNetworkContent in Hin.
  apply list_elem_of_filter in Hin as [Hc Hn].
  apply andb_true_iff in Hc as [Hk _]. apply negb_true_iff in Hk.
  destruct (nearest_closer_count _ _ _ _ Hn) as [Hv Hcount].
  split; [done|]. split; [done|]. split; [done|]. split; [|done].
  exists r. split; [done|]. lia.
Qed.
End gossip.

Lemma gossip_offer_only_if_witness :
  3 ∈ Gossip.nearest Samples.table 0 5
  ∧ 3 ∈ Gossip.values Samples.table
  ∧ (length (Gossip.strictly_closer Samples.table 0 3) < 5)%nat
  ∧ (∃ radius, Gossip.getRadius Samples.table 3 = Some radius
               ∧ Gossip.distance 3 0 ≤ radius)
  ∧ Gossip.contentKeyKnownToPeer Samples.table 3 "0x00aa" = false.
Proof.
  apply (gossip_offer_only_if Samples.table 0 "0x00aa" 3).
  apply (bool_decide_unpack _). vm_compute. reflexivity.
Defined.

(** ** The selective-ACK bitmask *)

Section bitmask.
Import Utp.

Lemma bits_of_byte_of_bits (bs : list bool) :
  bits_of_byte (byte_of_bits bs)
  = [nth 0 bs false; nth 1 bs false; nth 2 bs false; nth 3 bs false;
     nth 4 bs false; nth 5 bs false; nth 6 bs false; nth 7 bs false].
Proof. unfold bits_of_byte, byte_of_bits. by rewrite Byte.to_bits_of_bits. Qed.

Lemma nth_take_lt {A} (l : list A) (d : A) (n i : nat) :
  (i < n)%nat → nth i (take n l) d = nth i l d.
Proof. intros H. rewrite !nth_lookup, lookup_take_lt by done. done. Qed.

Lemma nth_drop_add {A} (l : list A) (d : A) (n i : nat) :
  nth i (drop n l) d = nth (n + i) l d.
Proof. by rewrite !nth_lookup, lookup_drop. Qed.

(** Slot [j] of the serialised window is slot [j] of the window. *)
Lemma mask_bit_fromBoolArray (n : nat) : ∀ (w : list bool) (j : nat),
  (j < 8 * n)%nat → mask_bit (fromBoolArray n w) j = nth j w false.
Proof.
  induction n as [|n IH]; intros w j Hj; [lia|].
  destruct (decide (j < 8)%nat) as [Hlt|Hge].
  - unfold mask_bit. simpl fromBoolArray.
    rewrite (Nat.div_small j 8), (Nat.mod_small j 8) by done.
    simpl nth at 2. rewrite bits_of_byte_of_bits.
    do 8 (destruct j as [|j]; [simpl; by rewrite nth_take_lt by lia|]). lia.
  - assert (Hj' : j = (8 + (j - 8))%nat) by lia.
    set (j' := (j - 8)%nat) in *. rewrite Hj'.
    specialize (IH (drop 8 w) j' ltac:(lia)).
    rewrite nth_drop_add in IH. rewrite <- IH.
    unfold mask_bit. simpl fromBoolArray.
    replace ((8 + j') / 8)%nat with (S (j' / 8)).
    2:{ pose proof (Nat.div_add_l 1 8 j' ltac:(lia)) as E. simpl in E. simpl. lia. }
    replace ((8 + j') mod 8)%nat with (j' mod 8)%nat.
    2:{ pose proof (Nat.Div0.mod_add j' 1 8) as E.
        replace (j' + 1 * 8)%nat with (8 + j')%nat in E by lia. done. }
    done.
Qed.

Lemma length_fromBoolArray n w : length (fromBoolArray n w) = n.
Proof. revert w. induction n as [|n IH]; intros w; simpl; [done|]. by rewrite IH. Qed.

Lemma nth_window_set (w : list bool) (idx : Z) (j : nat) :
  nth j (window_set w idx) false = nth j w false || bool_decide (idx = Z.of_nat j).
Proof.
  unfold window_set. destruct (Z.ltb_spec idx 0) as [Hneg|Hpos].
  { rewrite bool_decide_eq_false_2 by lia. by rewrite orb_false_r. }
  destruct (Nat.ltb_spec (Z.to_nat idx) (length w)) as [Hin|Hout].
  - rewrite !nth_lookup.
    destruct (decide (Z.to_nat idx = j)) as [<-|Hne].
    + rewrite list_lookup_insert_eq by done.
      rewrite bool_decide_eq_true_2 by lia. by rewrite orb_true_r.
    + rewrite list_lookup_insert_ne by done.
      rewrite bool_decide_eq_false_2 by lia. by rewrite orb_false_r.
  - rewrite !nth_lookup.
    destruct (decide (j < length w)%nat) as [Hj|Hj].
    + rewrite lookup_app_l by done.
      rewrite bool_decide_eq_false_2 by lia. by rewrite orb_false_r.
    + rewrite lookup_app_r by lia.
      rewrite (lookup_ge_None_2 w j) by lia. simpl.
      destruct (decide (j - length w < Z.to_nat idx - length w)%nat) as [Hk|Hk].
      * rewrite lookup_app_l by (rewrite length_replicate; lia).
        rewrite lookup_replicate_2 by lia.
        rewrite bool_decide_eq_false_2 by lia. done.
      * rewrite lookup_app_r by (rewrite length_replicate; lia).
        rewrite length_replicate.
        destruct (decide (Z.to_nat idx = j)) as [<-|Hne].
        -- replace (_ - _ - _)%nat with 0%nat by lia. simpl.
           rewrite bool_decide_eq_true_2 by lia. done.
        -- destruct (j - length w - (Z.to_nat idx - length w))%nat eqn:E; [lia|].
           simpl. rewrite bool_decide_eq_false_2 by lia. done.
Qed.

Lemma length_window_set (w : list bool) (idx : Z) :
  0 ≤ idx < Z.of_nat (length w) → length (window_set w idx) = length w.
Proof.
  intros H. unfold window_set.
  destruct (Z.ltb_spec idx 0); [lia|].
  destruct (Nat.ltb_spec (Z.to_nat idx) (length w)); [|lia].
  apply length_insert.
Qed.
End bitmask.

Section selective_ack_window.
Import Utp SelectiveAckSpec.
Variable bitmap : list Z.

Lemma window_step_nth s w i j :
  nth j (window_step bitmap s w i) false = true ↔
  nth j w false = true
  ∨ ∃ a b, ackNr s = Some a
           ∧ JsArray.includes (ackNrs s) (a + 1 + Z.of_nat i) = true
           ∧ bitmap !! i = Some b ∧ b - 1 = Z.of_nat j.
Proof.
  unfold window_step.
  destruct (ackNr s) as [a|];
    [|split; [by left | intros [H|(a & b & Ha & _)]; [done | discriminate]]].
  destruct (JsArray.includes (ackNrs s) (a + 1 + Z.of_nat i)) eqn:Hi;
    [|split; [by left | intros [H|(a' & b & [= <-] & Hi' & _)]; [done | congruence]]].
  destruct (bitmap !! i) as [b|] eqn:Hb;
    [|split; [by left | intros [H|(a' & b & _ & _ & Hb' & _)]; [done | discriminate]]].
  rewrite nth_window_set, orb_true_iff, bool_decide_eq_true.
  split.
  - intros [H|H]; [by left|]. right. exists a, b. done.
  - intros [H|(a' & b' & Ha & _ & Hb' & Hj)]; [by left|]. right. congruence.
Qed.

Lemma window_fold_nth s (positions : list nat) : ∀ w j,
  nth j (foldl (window_step bitmap s) w positions) false = true ↔
  nth j w false = true
  ∨ ∃ i, i ∈ positions
         ∧ ∃ a b, ackNr s = Some a
                  ∧ JsArray.includes (ackNrs s) (a + 1 + Z.of_nat i) = true
                  ∧ bitmap !! i = Some b ∧ b - 1 = Z.of_nat j.
Proof.
  induction positions as [|i positions IH]; intros w j; simpl.
  - split; [by left|]. intros [H|(i & Hi & _)]; [done|]. by apply elem_of_nil in Hi.
  - rewrite IH, window_step_nth. split.
    + intros [[H|H]|(i' & Hi' & H)].
      * by left.
      * right. exists i. split; [apply list_elem_of_here|done].
      * right. exists i'. split; [by apply list_elem_of_further|done].
    + intros [H|(i' & Hi' & H)]; [by left; left|].
      apply elem_of_cons in Hi' as [->|Hi']; [left; by right|].
      right. by exists i'.
Qed.

Lemma window_fold_length s (positions : list nat) : ∀ w,
  Forall (λ b, 1 ≤ b ≤ 32) bitmap →
  length w = 32%nat →
  length (foldl (window_step bitmap s) w positions) = 32%nat.
Proof.
  induction positions as [|i positions IH]; intros w Hr Hw; simpl; [done|].
  apply IH; [done|]. unfold window_step.
  destruct (ackNr s) as [a|]; [|done].
  destruct (JsArray.includes _ _); [|done].
  destruct (bitmap !! i) as [b|] eqn:Hb; [|done].
  rewrite length_window_set; [done|].
  eapply Forall_lookup_1 in Hr; [|exact Hb]. simpl in Hr. lia.
Qed.

(** With a usable index table the bitmask is made, is four bytes long, and
  slot [bitmap[i] - 1] tells whether seq_nr ackNr + 1 + i is among the
  recorded ones. *)
Lemma generateSelectiveAckBitMask_spec s a :
  table_ok bitmap →
  ackNr s = Some a →
  ∃ mask,
    generateSelectiveAckBitMask bitmap s = Ok mask
    ∧ length mask = 4%nat
    ∧ ∀ i b, (i < 32)%nat → bitmap !! i = Some b →
        (mask_bit mask (Z.to_nat (b - 1)) = true
         ↔ JsArray.includes (ackNrs s) (a + 1 + Z.of_nat i) = true).
Proof.
  intros (Hlen & Hrange & Hnd) Ha.
  unfold generateSelectiveAckBitMask, serializeBitVector32.
  assert (Hw : length (selectiveAckWindow bitmap s) = 32%nat).
  { apply window_fold_length; [done|]. apply length_replicate. }
  rewrite decide_True by done.
  eexists. split; [reflexivity|]. split; [apply length_fromBoolArray|].
  intros i b Hi Hb.
  pose proof (Forall_lookup_1 _ _ _ _ Hrange Hb) as Hbr. simpl in Hbr.
  rewrite mask_bit_fromBoolArray by lia.
  unfold selectiveAckWindow. rewrite window_fold_nth.
  split.
  - intros [H|(i' & Hi' & a' & b' & Ha' & Hinc & Hb' & Hj)].
    + rewrite nth_lookup in H.
      destruct (replicate 32 false !! Z.to_nat (b - 1)) as [x|] eqn:E; [|done].
      apply lookup_replicate in E as [-> _]. done.
    + assert (b' = b) as -> by lia.
      assert (i' = i) as -> by (eapply NoDup_lookup; eauto).
      congruence.
  - intros Hinc. right. exists i. split; [apply elem_of_seq; lia|].
    exists a, b. repeat split; try done. lia.
Qed.
End selective_ack_window.

Section out_of_order.
Import Utp SelectiveAckSpec.

Lemma ackNr_markConnected s : ackNr (markConnected s) = ackNr s.
Proof. unfold markConnected. by destruct (decide _). Qed.

Lemma ackNrs_markConnected s : ackNrs (markConnected s) = ackNrs s.
Proof. unfold markConnected. by destruct (decide _). Qed.

Lemma ackNr_recordPacket packet s : ackNr (recordPacket packet s) = ackNr s.
Proof.
  unfold recordPacket. simpl.
  destruct (reader s); simpl; destruct (JsArray.get _ 0); done.
Qed.

(** C3, as amended: a STATE packet that a socket sends after a DATA packet
  arrived out of order (more than one seq_nr recorded, and the packet's
  seq_nr is not ackNr + 1) carries the selective-ACK extension with a
  4-byte bitmask that covers the 32 sequence numbers ackNr + 1 through
  ackNr + 32: for each i below 32, slot bitmap[i] - 1 of the mask is set
  if and only if seq_nr ackNr + 1 + i is among the recorded ones (the new
  packet's included), where bitmap is the index table of the package, any
  one-to-one table onto 1..32.  ackNr is left as it was. *)
Theorem selective_ack_after_out_of_order
    (bitmap : list Z) (s : UtpSocket) (packet : Packet.t) (a : Z) :
  table_ok bitmap →
  ackNr s = Some a →
  (1 < length (ackNrs s))%nat →
  a + 1 ≠ Packet.seqNr packet →
  let s' := (handleDataPacket bitmap packet s).1 in
  (handleDataPacket bitmap packet s).2 = Ok None
  ∧ ackNr s' = Some a
  ∧ ∃ p mask,
      last (sent s') = Some p
      ∧ Packet.pType p = ST_STATE
      ∧ Packet.extension p = 1
      ∧ Packet.ackNr p = Some a
      ∧ Packet.bitmask p = Some mask
      ∧ length mask = 4%nat
      ∧ ∀ i b, (i < 32)%nat → bitmap !! i = Some b →
          (mask_bit mask (Z.to_nat (b - 1)) = true
           ↔ JsArray.includes (ackNrs s') (a + 1 + Z.of_nat i) = true).
Proof.
  intros Htable Ha Hlen Hseq. unfold handleDataPacket.
  assert (Hexp : isExpected packet (markConnected s) = false).
  { unfold isExpected. rewrite ackNrs_markConnected, ackNr_markConnected, Ha.
    destruct (Nat.ltb_spec 1 (length (ackNrs s))); [|lia].
    by apply Z.eqb_neq. }
  rewrite Hexp. cbv zeta.
  set (s2 := recordPacket packet (markConnected s)).
  assert (Ha2 : ackNr s2 = Some a).
  { subst s2. by rewrite ackNr_recordPacket, ackNr_markConnected. }
  destruct (generateSelectiveAckBitMask_spec bitmap s2 a Htable Ha2)
    as (mask & Hm & Hl & Hbits).
  rewrite Hm. simpl.
  split; [done|]. split; [done|].
  eexists _, mask. split; [apply last_snoc|]. simpl.
  repeat (split; [done|]). exact Hbits.
Qed.
End out_of_order.

Lemma Samples_bitmap_ok : SelectiveAckSpec.table_ok Samples.bitmap.
Proof.
  split; [reflexivity|]. split.
  - unfold Samples.bitmap. repeat (constructor; [lia|]). constructor.
  - apply (bool_decide_unpack (NoDup Samples.bitmap)). vm_compute. reflexivity.
Qed.

Lemma selective_ack_after_out_of_order_witness :
  let s' := (Utp.handleDataPacket Samples.bitmap (Samples.data 4 [])
               (Samples.received Samples.bitmap [1; 2])).1 in
  (Utp.handleDataPacket Samples.bitmap (Samples.data 4 [])
     (Samples.received Samples.bitmap [1; 2])).2 = Ok None
  ∧ Utp.ackNr s' = Some 2
  ∧ ∃ p mask,
      last (Utp.sent s') = Some p
      ∧ Utp.Packet.pType p = Utp.ST_STATE
      ∧ Utp.Packet.extension p = 1
      ∧ Utp.Packet.ackNr p = Some 2
      ∧ Utp.Packet.bitmask p = Some mask
      ∧ length mask = 4%nat
      ∧ ∀ i b, (i < 32)%nat → Samples.bitmap !! i = Some b →
          (Utp.mask_bit mask (Z.to_nat (b - 1)) = true
           ↔ JsArray.includes (Utp.ackNrs s') (2 + 1 + Z.of_nat i) = true).
Proof.
  apply (selective_ack_after_out_of_order Samples.bitmap
           (Samples.received Samples.bitmap [1; 2]) (Samples.data 4 []) 2).
  - exact Samples_bitmap_ok.
  - reflexivity.
  - vm_compute. lia.
  - vm_compute. discriminate.
Defined.

(** C3, as the specification words it, fails whatever the index table is: a
  socket that has received seq_nrs 1 to 4 in order and then 37 answers with
  ackNr 4 and an all-zero bitmask, although 37 = ackNr + 2 + 31 has been
  received: the window of the code ends at ackNr + 32. *)
Lemma selective_ack_as_claimed_fails :
  ¬ ∃ bitmap : list Z, SelectiveAckSpec.as_claimed bitmap.
Proof.
  intros [bitmap Hclaim].
  destruct (Hclaim (Samples.received bitmap [1; 2; 3; 4]) (Samples.data 37 []) 4)
    as (p & mask & Hlast & _ & Hmask & _ & Hbits).
  - reflexivity.
  - reflexivity.
  - vm_compute. lia.
  - vm_compute. discriminate.
  - vm_compute in Hlast. injection Hlast as <-.
    vm_compute in Hmask. injection Hmask as <-.
    specialize (Hbits 31%nat ltac:(lia)).
    vm_compute in Hbits. destruct Hbits as [_ Hb]. discriminate (Hb eq_refl).
Qed.

(** ** Merkle single proofs: what is made is accepted, what is altered is not *)

Section merkle_proofs.
Import Merkle.
Variable hash : bytes → bytes → bytes.

Lemma walk_acc path : ∀ node acc,
  walk hash node path acc
  = (let? r := walk hash node path [] in Ok (r.1, acc ++ r.2)).
Proof.
  induction path as [|i path IH]; intros node acc; simpl.
  - by rewrite app_nil_r.
  - destruct node as [r|l r]; [done|].
    destruct i.
    + rewrite (IH r (acc ++ _)), (IH r [_]).
      destruct (walk hash r path []) as [[n ws]|m]; simpl; [|done].
      by rewrite <- app_assoc.
    + rewrite (IH l (acc ++ _)), (IH l [_]).
      destruct (walk hash l path []) as [[n ws]|m]; simpl; [|done].
      by rewrite <- app_assoc.
Qed.

Lemma walk_length path : ∀ node n ws,
  walk hash node path [] = Ok (n, ws) → length ws = length path.
Proof.
  induction path as [|i path IH]; intros node n ws; simpl.
  - by intros [= _ <-].
  - destruct node as [r|l r]; [done|].
    destruct i; rewrite walk_acc;
      (destruct (walk hash _ path []) as [[n' ws']|m] eqn:E; simpl; [|done]);
      intros [= _ <-]; simpl; f_equal; by eapply IH.
Qed.

Lemma rebuild_graft (g : Gindex) : ∀ node w,
  (length (gindex_bits_lsb g) ≤ length w)%nat →
  rebuild g node w = Ok (graft (gindex_bits_lsb g) node w).
Proof.
  induction g as [g IH|g IH|]; intros node w Hlen; simpl in *.
  - destruct w as [|x w]; simpl in Hlen; [lia|]. apply IH. lia.
  - destruct w as [|x w]; simpl in Hlen; [lia|]. apply IH. lia.
  - by destruct w.
Qed.

Lemma rebuild_short (g : Gindex) : ∀ node w,
  (length w < length (gindex_bits_lsb g))%nat → is_Throw (rebuild g node w).
Proof.
  induction g as [g IH|g IH|]; intros node w Hlen; simpl in *.
  - destruct w as [|x w]; [by eexists|]. apply IH. simpl in Hlen. lia.
  - destruct w as [|x w]; [by eexists|]. apply IH. simpl in Hlen. lia.
  - lia.
Qed.

Lemma graft_app bits1 : ∀ bits2 node w1 w2,
  length w1 = length bits1 →
  graft (bits1 ++ bits2) node (w1 ++ w2) = graft bits2 (graft bits1 node w1) w2.
Proof.
  induction bits1 as [|b bits1 IH]; intros bits2 node w1 w2 Hlen.
  - destruct w1; [|done]. simpl. by destruct bits2.
  - destruct w1 as [|x w1]; [done|]. simpl in Hlen.
    destruct b; simpl; apply IH; lia.
Qed.

(** The witnesses collected on the way down rebuild a tree with the same
  root, from any node that has the root of the one reached. *)
Lemma walk_graft_root path : ∀ tree n ws sub,
  walk hash tree path [] = Ok (n, ws) →
  root hash sub = root hash n →
  root hash (graft (rev path) sub (rev ws)) = root hash tree.
Proof.
  induction path as [|i path IH]; intros tree n ws sub; simpl.
  - intros [= <- <-] Hsub. done.
  - destruct tree as [r|l r]; [done|].
    destruct i; rewrite walk_acc;
      (destruct (walk hash _ path []) as [[n' ws']|m] eqn:E; simpl; [|done]);
      intros [= -> <-] Hsub; simpl;
      rewrite graft_app
        by (rewrite !length_rev; by eapply walk_length);
      simpl; by erewrite IH.
Qed.

(** Two proofs of the same shape that rebuild the same root are the same
  proof of the same leaf, unless at some level the hash has taken different
  children to the same root. *)
Lemma graft_root_second_preimage bits : ∀ sub sub' w w',
  length w = length bits → length w' = length bits →
  root hash (graft bits sub w) = root hash (graft bits sub' w') →
  (root hash sub = root hash sub' ∧ w = w')
  ∨ ∃ k p p',
      hashed_pairs hash bits (root hash sub) w !! k = Some p
      ∧ hashed_pairs hash bits (root hash sub') w' !! k = Some p'
      ∧ p ≠ p'
      ∧ hash p.1 p.2 = hash p'.1 p'.2.
Proof.
  induction bits as [|b bits IH]; intros sub sub' w w' Hl Hl' Hroot.
  - destruct w, w'; try done. by left.
  - destruct w as [|x w], w' as [|x' w']; try done.
    simpl in Hl, Hl'.
    destruct b; simpl in Hroot.
    + apply IH in Hroot as [[Hr ->]|(k & p & p' & Hp & Hp' & Hne & Hh)]; try lia.
      * simpl in Hr.
        destruct (decide ((x, root hash sub) = (x', root hash sub'))) as [[= -> ->]|Hne].
        -- by left.
        -- right. by exists 0%nat, (x, root hash sub), (x', root hash sub').
      * right. by exists (S k), p, p'.
    + apply IH in Hroot as [[Hr ->]|(k & p & p' & Hp & Hp' & Hne & Hh)]; try lia.
      * simpl in Hr.
        destruct (decide ((root hash sub, x) = (root hash sub', x'))) as [[= -> ->]|Hne].
        -- by left.
        -- right. by exists 0%nat, (root hash sub, x), (root hash sub', x').
      * right. by exists (S k), p, p'.
Qed.

Lemma createSingleProof_accepted tree g leaf ws :
  createSingleProof hash tree g = Ok (leaf, ws) →
  length ws = gindex_depth g
  ∧ ∃ node, createNodeFromSingleProof g leaf ws = Ok node
            ∧ root hash node = root hash tree.
Proof.
  unfold createSingleProof, gindexIterator, createNodeFromSingleProof, gindex_depth.
  destruct (walk hash tree _ []) as [[n sibs]|m] eqn:E; simpl; [|done].
  intros [= <- <-].
  pose proof (walk_length _ _ _ _ E) as Hl. rewrite length_rev in Hl.
  split; [by rewrite length_rev|].
  rewrite rebuild_graft by (rewrite length_rev; lia).
  eexists. split; [done|].
  rewrite <- (rev_involutive (gindex_bits_lsb g)).
  by eapply walk_graft_root.
Qed.
End merkle_proofs.

(** ** The epoch accumulator tree: where the record of a block lies *)

Section epoch_tree.
Import Merkle History.
Variable hash : bytes → bytes → bytes.
Variable uintToChunk : N → bytes.

Lemma walk_left l r path acc :
  walk hash (BranchNode l r) (false :: path) acc = walk hash l path (acc ++ [root hash r]).
Proof. reflexivity. Qed.

Lemma walk_nil node acc : walk hash node [] acc = Ok (node, acc).
Proof. reflexivity. Qed.

Lemma bits_msb_length d : ∀ i, length (bits_msb d i) = d.
Proof.
  induction d as [|d IH]; intros i; [done|].
  unfold bits_msb; fold bits_msb.
  destruct (2 ^ d <=? i)%nat; simpl; by rewrite IH.
Qed.

(** Going down a filled tree of depth [d] by the bits of [i] reaches the
  node number [i], with [d] witnesses collected. *)
Lemma walk_fill d : ∀ (nodes : list Node) i x rest acc,
  nodes !! i = Some x →
  (length nodes ≤ 2 ^ d)%nat →
  ∃ sibs, length sibs = d
          ∧ walk hash (subtreeFillToContents nodes d) (bits_msb d i ++ rest) acc
            = walk hash x rest (acc ++ sibs).
Proof.
  induction d as [|d IH]; intros nodes i x rest acc Hi Hlen.
  - simpl in Hlen. destruct nodes as [|y [|z nodes]]; simpl in Hlen; try done; try lia.
    destruct i; [|done]. injection Hi as ->.
    exists []. simpl. by rewrite app_nil_r.
  - pose proof (lookup_lt_Some _ _ _ Hi) as Hlt.
    assert (Hpow : (2 ^ S d = 2 ^ d + 2 ^ d)%nat) by (simpl; lia).
    simpl subtreeFillToContents. destruct nodes as [|y nodes'] eqn:En; [done|].
    rewrite <- En in *. clear En y nodes'.
    unfold bits_msb; fold bits_msb.
    destruct (Nat.leb_spec (2 ^ d) i) as [Hge|Hlt'].
    + destruct (IH (drop (2 ^ d) nodes) (i - 2 ^ d)%nat x rest
                  (acc ++ [root hash (subtreeFillToContents (take (2 ^ d) nodes) d)]))
        as (sibs & Hs & Hw).
      * rewrite lookup_drop. rewrite <- Hi. f_equal. lia.
      * rewrite length_drop. lia.
      * exists (root hash (subtreeFillToContents (take (2 ^ d) nodes) d) :: sibs).
        split; [simpl; lia|]. simpl. rewrite Hw. by rewrite <- app_assoc.
    + destruct (IH (take (2 ^ d) nodes) i x rest
                  (acc ++ [root hash (subtreeFillToContents (drop (2 ^ d) nodes) d)]))
        as (sibs & Hs & Hw).
      * by rewrite lookup_take_lt.
      * rewrite length_take. lia.
      * exists (root hash (subtreeFillToContents (drop (2 ^ d) nodes) d) :: sibs).
        split; [simpl; lia|]. simpl. rewrite Hw. by rewrite <- app_assoc.
Qed.

Lemma descend_path path : ∀ g,
  gindexIterator (descend g path) = gindexIterator g ++ path.
Proof.
  unfold descend, gindexIterator.
  induction path as [|b path IH]; intros g; simpl.
  - by rewrite app_nil_r.
  - rewrite IH. destruct b; simpl; by rewrite <- app_assoc.
Qed.

(** Going down [d] levels by the bits of [i] multiplies the gindex by [2^d]
    and adds [i]. *)
Lemma descend_value d : ∀ g i,
  (N.of_nat i < 2 ^ N.of_nat d)%N →
  (Npos (descend g (bits_msb d i)) = Npos g * 2 ^ N.of_nat d + N.of_nat i)%N.
Proof.
  induction d as [|d IH]; intros g i Hi.
  - change (2 ^ N.of_nat 0)%N with 1%N in *. unfold bits_msb, descend. simpl. lia.
  - unfold bits_msb; fold bits_msb.
    assert (Hpow : (2 ^ N.of_nat (S d) = 2 * 2 ^ N.of_nat d)%N)
      by (rewrite Nat2N.inj_succ; apply N.pow_succ_r').
    assert (Hnat : N.of_nat (2 ^ d) = (2 ^ N.of_nat d)%N) by apply Nat2N.inj_pow.
    destruct (Nat.leb_spec (2 ^ d) i) as [Hge|Hlt].
    + change (descend g (true :: bits_msb d (i - 2 ^ d)))
        with (descend (xI g) (bits_msb d (i - 2 ^ d))).
      rewrite IH by lia. lia.
    + change (descend g (false :: bits_msb d i)) with (descend (xO g) (bits_msb d i)).
      rewrite IH by lia. lia.
Qed.

(** The way from the root to the block hash of record [i]: into the list's
    contents, down 13 levels to the record, into its first field. *)
Lemma leaf_path_of_index (i : nat) :
  (i < N.to_nat 8192)%nat →
  gindexIterator (leafGindex (N.of_nat (2 * i))) = false :: bits_msb 13 i ++ [false].
Proof.
  intros Hi.
  assert (Hi' : (N.of_nat i < 2 ^ N.of_nat 13)%N).
  { change (2 ^ N.of_nat 13)%N with 8192%N. lia. }
  assert (Hg : leafGindex (N.of_nat (2 * i)) = descend 1 (false :: bits_msb 13 i ++ [false])).
  { assert (Hinj : ∀ p q : positive, Npos p = Npos q → p = q) by (intros p q [=]; done).
    apply Hinj.
    unfold descend. simpl fold_left. rewrite fold_left_app. simpl fold_left.
    fold (descend 2 (bits_msb 13 i)).
    pose proof (descend_value 13 2 i Hi') as Hv.
    change (2 ^ N.of_nat 13)%N with 8192%N in Hv.
    change (N.pos (descend 2 (bits_msb 13 i))~0)
      with (2 * N.pos (descend 2 (bits_msb 13 i)))%N.
    rewrite Hv.
    unfold leafGindex. destruct (32768 + N.of_nat (2 * i))%N eqn:E; lia. }
  rewrite Hg, descend_path. reflexivity.
Qed.

Lemma blockNumberToGindex_path (blockNumber : N) :
  gindexIterator (blockNumberToGindex blockNumber)
  = false :: bits_msb 13 (N.to_nat (blockNumber mod 8192)) ++ [false].
Proof.
  unfold blockNumberToGindex, blockNumberToLeafIndex.
  replace ((blockNumber mod 8192) * 2)%N
    with (N.of_nat (2 * N.to_nat (blockNumber mod 8192))) by lia.
  apply leaf_path_of_index.
  pose proof (N.mod_upper_bound blockNumber 8192 ltac:(done)). lia.
Qed.

Lemma blockNumberToGindex_depth (blockNumber : N) :
  gindex_depth (blockNumberToGindex blockNumber) = 15%nat.
Proof.
  unfold gindex_depth.
  rewrite <- (length_rev (gindex_bits_lsb _)).
  fold (gindexIterator (blockNumberToGindex blockNumber)).
  rewrite blockNumberToGindex_path.
  rewrite length_cons, length_app, bits_msb_length. done.
Qed.

(** The single proof of a block's gindex in the tree of an accumulator that
  has the block's record: it is made, and its leaf is the block hash of
  the record. *)
Lemma createSingleProof_record (accumulator : list HeaderRecord) blockNumber r :
  accumulator !! N.to_nat (blockNumber mod 8192) = Some r →
  (length accumulator ≤ N.to_nat 8192)%nat →
  ∃ ws, createSingleProof hash (value_toTree uintToChunk accumulator)
          (blockNumberToGindex blockNumber)
        = Ok (blockHash r, uintToChunk (totalDifficulty r) :: ws).
Proof.
  intros Hr Hlen. unfold createSingleProof.
  rewrite blockNumberToGindex_path. unfold value_toTree.
  rewrite walk_left.
  destruct (walk_fill 13 (map (headerRecordNode uintToChunk) accumulator)
              (N.to_nat (blockNumber mod 8192)) (headerRecordNode uintToChunk r) [false]
              ([] ++ [root hash (LeafNode (uintToChunk (N.of_nat (length accumulator))))]))
    as (sibs & _ & Hw).
  - by rewrite list_lookup_fmap, Hr.
  - rewrite length_map. change (2 ^ 13)%nat with (N.to_nat 8192). exact Hlen.
  - rewrite Hw. unfold headerRecordNode. rewrite walk_left, walk_nil.
    unfold bind. cbn [fst snd]. rewrite rev_unit.
    eexists. reflexivity.
Qed.
End epoch_tree.

(** ** Header inclusion proofs *)

Section inclusion_proofs.
Import Merkle History.
Variable hash : bytes → bytes → bytes.
Variable uintToChunk : N → bytes.
Variable historicalEpochs : list bytes.
Variable hexToBytes : string → result bytes.
Variable getContentKey : HistoryNetworkContentType → bytes → string.
Variable EpochAccumulator_deserialize : bytes → result (list HeaderRecord).

Lemma tamper_length ws i j b : length (tamper ws i j b) = length ws.
Proof. unfold tamper. apply length_alter. Qed.

Lemma tamper_changes (ws : list bytes) i j w b0 b :
  ws !! i = Some w → w !! j = Some b0 → b ≠ b0 → tamper ws i j b ≠ ws.
Proof.
  intros Hw Hb Hne Heq.
  assert (Hi : tamper ws i j b !! i = Some (<[j := b]> w)).
  { unfold tamper. by rewrite list_lookup_alter_eq, Hw. }
  rewrite Heq, Hw in Hi. injection Hi as Hi.
  assert (Hj : (<[j := b]> w) !! j = Some b).
  { apply list_lookup_insert_eq. by eapply lookup_lt_Some. }
  rewrite <- Hi, Hb in Hj. congruence.
Qed.

(** A proof of the right length that differs from an accepted one is
  rejected, unless it holds a second preimage of the hash at a node of the
  accepted one. *)
Lemma verify_other_witnesses witnesses witnesses' blockHash leaf blockNumber :
  is_Some (epochRootByIndex historicalEpochs (epochIndexByBlocknumber blockNumber)) →
  hexToBytes blockHash = Ok leaf →
  verifyInclusionProof hash historicalEpochs hexToBytes witnesses blockHash blockNumber
    = Ok true →
  length witnesses = 15%nat →
  length witnesses' = 15%nat →
  witnesses' ≠ witnesses →
  is_Throw (verifyInclusionProof hash historicalEpochs hexToBytes witnesses' blockHash
              blockNumber)
  ∨ second_preimage hash (blockNumberToGindex blockNumber) leaf witnesses witnesses'.
Proof.
  intros [target Ht] Hleaf Hok Hl Hl' Hne. unfold verifyInclusionProof in *.
  rewrite Hleaf in *. simpl in *.
  rewrite Ht in *. unfold createFromProof, createNodeFromSingleProof in *.
  pose proof (blockNumberToGindex_depth blockNumber) as Hd. unfold gindex_depth in Hd.
  rewrite rebuild_graft in * by lia. simpl in *.
  destruct (decide (root hash (graft _ (LeafNode leaf) witnesses) = target)) as [Hr|];
    [|done].
  destruct (decide (root hash (graft _ (LeafNode leaf) witnesses') = target)) as [Hr'|];
    [|left; by eexists].
  right.
  destruct (graft_root_second_preimage hash
              (gindex_bits_lsb (blockNumberToGindex blockNumber))
              (LeafNode leaf) (LeafNode leaf) witnesses witnesses')
    as [[_ Heq]|H]; [lia | lia | congruence | by subst | exact H].
Qed.

(** A hash without collisions has no second preimage. *)
Lemma collision_free_no_second_preimage g leaf w w' :
  collision_free hash → ¬ second_preimage hash g leaf w w'.
Proof.
  intros Hcf (k & [a b] & [a' b'] & _ & _ & Hne & Hh).
  apply Hcf in Hh as [? ?]. simpl in *. by subst.
Qed.

(** C8: for every block number whose epoch accumulator is available (the
  epoch's root is known, the store has the accumulator of that root under
  its content key, and the accumulator has the block's record), the proof
  that generateInclusionProof returns has 15 witnesses and is accepted by
  verifyInclusionProof for the block hash of the record and the block
  number; and the proof with any one byte of any witness changed is
  rejected (verifyInclusionProof throws), unless the changed proof holds a
  second preimage of the hash: at some level on the way from the leaf to
  the root it has the hash take other children than the generated proof
  does, to the same root.  Nothing is asked of the hash.  The first witness
  is the total difficulty of the record. *)
Theorem inclusion_proof_roundtrip
    (blockNumber : N) (st : State) (epochHash : bytes) (epoch : string) (raw : bytes)
    (accumulator : list HeaderRecord) (r : HeaderRecord) (blockHashHex : string) :
  epochRootByBlocknumber historicalEpochs blockNumber = Some epochHash →
  retrieve (getContentKey EpochAccumulator epochHash) st = Some epoch →
  hexToBytes epoch = Ok raw →
  EpochAccumulator_deserialize raw = Ok accumulator →
  hashTreeRoot hash uintToChunk accumulator = epochHash →
  (length accumulator ≤ N.to_nat 8192)%nat →
  accumulator !! N.to_nat (blockNumber mod 8192) = Some r →
  hexToBytes blockHashHex = Ok (blockHash r) →
  ∃ witnesses,
    generateInclusionProof hash uintToChunk historicalEpochs hexToBytes getContentKey
      EpochAccumulator_deserialize blockNumber st = Ok witnesses
    ∧ length witnesses = 15%nat
    ∧ witnesses !! 0%nat = Some (uintToChunk (totalDifficulty r))
    ∧ verifyInclusionProof hash historicalEpochs hexToBytes witnesses blockHashHex
        blockNumber = Ok true
    ∧ (∀ i j w b0 b,
         witnesses !! i = Some w → w !! j = Some b0 → b ≠ b0 →
         is_Throw (verifyInclusionProof hash historicalEpochs hexToBytes
                     (tamper witnesses i j b) blockHashHex blockNumber)
         ∨ second_preimage hash (blockNumberToGindex blockNumber) (blockHash r)
             witnesses (tamper witnesses i j b)).
Proof.
  intros Hroot Hdb Hhex Hdec Htree Hlen Hrec Hleaf.
  destruct (createSingleProof_record hash uintToChunk accumulator blockNumber r Hrec Hlen)
    as (ws0 & Hproof).
  set (ws := uintToChunk (totalDifficulty r) :: ws0) in *.
  destruct (createSingleProof_accepted hash _ _ _ _ Hproof) as (Hl & node & Hnode & Hr).
  rewrite blockNumberToGindex_depth in Hl.
  assert (Hverify : verifyInclusionProof hash historicalEpochs hexToBytes ws blockHashHex
                      blockNumber = Ok true).
  { unfold verifyInclusionProof.
    pose proof Hroot as Hroot'. unfold epochRootByBlocknumber in Hroot'.
    rewrite Hroot', Hleaf.
    unfold createFromProof, bind. rewrite Hnode.
    rewrite decide_True; [done|]. rewrite Hr. exact Htree. }
  exists ws. split.
  { unfold generateInclusionProof. rewrite Hroot, Hdb, Hhex. simpl.
    rewrite Hdec. simpl. rewrite Hproof. done. }
  split; [exact Hl|]. split; [done|]. split; [exact Hverify|].
  intros i j w b0 b Hw Hb Hne.
  apply verify_other_witnesses; [ | exact Hleaf | exact Hverify | exact Hl | | ].
  - unfold epochRootByBlocknumber in Hroot. by rewrite Hroot.
  - by rewrite tamper_length.
  - by eapply tamper_changes.
Qed.

(** C9: for every block number b the epoch index is floor(b / 8192), the
  leaf index is (b mod 8192) * 2 and the gindex of the proof is the gindex
  of that leaf, 2^15 + leaf index, which lies 15 branches below the root:
  a single proof made for it has 15 witnesses, and rebuilding from a proof
  needs 15.  For b = 1000 the leaf index is 2000. *)
Theorem header_proof_indices (b : N) :
  epochIndexByBlocknumber b = (b / 8192)%N
  ∧ blockNumberToLeafIndex b = ((b mod 8192) * 2)%N
  ∧ Npos (blockNumberToGindex b) = (2 ^ 15 + blockNumberToLeafIndex b)%N
  ∧ gindex_depth (blockNumberToGindex b) = 15%nat
  ∧ (∀ tree,
       match createSingleProof hash tree (blockNumberToGindex b) with
       | Ok proof => length proof.2 = 15%nat
       | Throw _ => True
       end)
  ∧ (∀ leaf witnesses,
       if decide (15 ≤ length witnesses)%nat
       then is_Ok (createNodeFromSingleProof (blockNumberToGindex b) leaf witnesses)
       else is_Throw (createNodeFromSingleProof (blockNumberToGindex b) leaf witnesses))
  ∧ blockNumberToLeafIndex 1000 = 2000%N.
Proof.
  split; [done|]. split; [done|]. split.
  { unfold blockNumberToGindex, leafGindex.
    destruct (32768 + blockNumberToLeafIndex b)%N eqn:E; lia. }
  pose proof (blockNumberToGindex_depth b) as Hd.
  split; [exact Hd|]. split.
  { intros tree.
    destruct (createSingleProof hash tree (blockNumberToGindex b)) as [[leaf ws]|m] eqn:E;
      [|done].
    apply createSingleProof_accepted in E as [Hl _]. simpl. by rewrite Hl. }
  split; [|done].
  intros leaf witnesses. unfold createNodeFromSingleProof, gindex_depth in *.
  destruct (decide (15 ≤ length witnesses)%nat) as [Hge|Hlt].
  - rewrite rebuild_graft by lia. by eexists.
  - apply rebuild_short. lia.
Qed.
End inclusion_proofs.

Lemma unary_prefix_inj (n n' : nat) (t t' : bytes) :
  replicate n "001"%byte ++ "000"%byte :: t = replicate n' "001"%byte ++ "000"%byte :: t' →
  n = n' ∧ t = t'.
Proof.
  revert n'. induction n as [|n IH]; intros [|n'] H; simpl in H; try discriminate.
  - by injection H.
  - injection H as H. apply IH in H as [-> ->]. done.
Qed.

Lemma pair_hash_collision_free : Merkle.collision_free Samples.pair_hash.
Proof.
  unfold Merkle.collision_free, Samples.pair_hash.
  intros a b a' b' H.
  apply unary_prefix_inj in H as [Hlen H].
  by apply app_inj_1 in H.
Qed.

Lemma inclusion_proof_roundtrip_witness :
  ∃ witnesses,
    History.generateInclusionProof Samples.pair_hash Samples.chunk_of [Samples.epoch_root]
      Samples.hexToBytes Samples.getContentKey Samples.decode_accumulator 1 Samples.node
    = Ok witnesses
    ∧ length witnesses = 15%nat
    ∧ History.verifyInclusionProof Samples.pair_hash [Samples.epoch_root] Samples.hexToBytes
        witnesses "h1" 1 = Ok true
    ∧ is_Throw (History.verifyInclusionProof Samples.pair_hash [Samples.epoch_root]
                  Samples.hexToBytes (Merkle.tamper witnesses 0 0 "000"%byte) "h1" 1).
Proof.
  destruct (inclusion_proof_roundtrip Samples.pair_hash Samples.chunk_of [Samples.epoch_root]
              Samples.hexToBytes Samples.getContentKey Samples.decode_accumulator
              1 Samples.node Samples.epoch_root "epoch" (String.list_byte_of_string "epoch")
              Samples.accumulator
              {| History.blockHash := String.list_byte_of_string "h1";
                 History.totalDifficulty := 34 |}
              "h1")
    as (witnesses & Hgen & Hlen & Hfirst & Hok & Htamper).
  - reflexivity.
  - apply lookup_singleton_eq.
  - reflexivity.
  - reflexivity.
  - unfold Samples.epoch_root. reflexivity.
  - simpl. lia.
  - reflexivity.
  - reflexivity.
  - exists witnesses. split; [exact Hgen|]. split; [exact Hlen|]. split; [exact Hok|].
    destruct (Htamper 0%nat 0%nat ["034"%byte] "034"%byte "000"%byte) as [Hthrow|Hpre].
    + exact Hfirst.
    + reflexivity.
    + discriminate.
    + exact Hthrow.
    + exfalso. revert Hpre.
      apply collision_free_no_second_preimage, pair_hash_collision_free.
Defined.

(** ** The content store: what a refused header or body leaves behind *)

Section store_properties.
Import History.
Variable hash : bytes → bytes → bytes.
Variable historicalEpochs : list bytes.
Variable hexToBytes : string → result bytes.
Variable fromHexString : string → result bytes.
Variable toHexString : bytes → string.
Variable getContentKey : HistoryNetworkContentType → bytes → string.
Variable BlockHeaderWithProof_deserialize : bytes → result (bytes * option (list bytes)).
Variable fromRLPSerializedHeader : bytes → result Header.
Variable Block : Type.
Variable reassembleBlock : option bytes → bytes → result Block.
Variable getBlockByHash : string → option Block.

Local Abbreviation validateHeader' :=
  (validateHeader hash historicalEpochs hexToBytes toHexString getContentKey
     BlockHeaderWithProof_deserialize fromRLPSerializedHeader).
Local Abbreviation addBlockBody' :=
  (addBlockBody hexToBytes fromHexString toHexString getContentKey
     BlockHeaderWithProof_deserialize
     Block reassembleBlock getBlockByHash).
Local Abbreviation store' :=
  (store hash historicalEpochs hexToBytes fromHexString toHexString getContentKey
     BlockHeaderWithProof_deserialize fromRLPSerializedHeader Block reassembleBlock
     getBlockByHash).

(** A pre-merge header without a proof, or with a proof that
  verifyInclusionProof refuses, is not written: validateHeader throws and
  leaves the state as it was. *)
Lemma validateHeader_rejects value contentHash st headerBytes proof header :
  BlockHeaderWithProof_deserialize value = Ok (headerBytes, proof) →
  fromRLPSerializedHeader headerBytes = Ok header →
  (number header < MERGE_BLOCK)%N →
  (proof = None
   ∨ ∃ ws, proof = Some ws
           ∧ is_Throw (verifyInclusionProof hash historicalEpochs hexToBytes ws contentHash
                         (number header))) →
  ∃ m, validateHeader' value contentHash st = (st, Throw m).
Proof.
  intros Hd Hh Hpre Hbad. unfold validateHeader. rewrite Hd, Hh.
  destruct (N.ltb_spec (number header) MERGE_BLOCK) as [_|]; [|lia].
  destruct Hbad as [->|(ws & -> & m & Hm)].
  - by eexists.
  - rewrite Hm. by eexists.
Qed.

(** The store is unchanged by such a header, but [store] goes on after the
  caught exception: ContentAdded is emitted and, with peers in the routing
  table, the key is queued for gossip. *)
Lemma store_rejected_header value hashKey st headerBytes proof header :
  BlockHeaderWithProof_deserialize value = Ok (headerBytes, proof) →
  fromRLPSerializedHeader headerBytes = Ok header →
  (number header < MERGE_BLOCK)%N →
  (proof = None
   ∨ ∃ ws, proof = Some ws
           ∧ is_Throw (verifyInclusionProof hash historicalEpochs hexToBytes ws hashKey
                         (number header))) →
  let r := store' BlockHeader hashKey value st in
  r.2 = Ok ()
  ∧ db r.1 = db st
  ∧ blockIndex r.1 = blockIndex st
  ∧ events r.1 = events st ++ [ContentAdded hashKey BlockHeader (toHexString value)]
  ∧ gossip r.1 = if (0 <? peers st)%nat then gossip st ++ [(hashKey, BlockHeader)]
                 else gossip st.
Proof.
  intros Hd Hh Hpre Hbad.
  destruct (validateHeader_rejects value hashKey st _ _ _ Hd Hh Hpre Hbad) as [m Hm].
  unfold store. rewrite Hm. simpl.
  destruct (0 <? peers st)%nat; done.
Qed.

(** A body that is not empty is written whatever the reassembly and the
  network lookup say. *)
Lemma addBlockBody_always_stores value hashKey header st h :
  hexToBytes hashKey = Ok h →
  value ≠ [] →
  addBlockBody' value hashKey header st
  = (put (getContentKey BlockBody h) (toHexString value) st, Ok ()).
Proof.
  intros Hh Hne. unfold addBlockBody. rewrite Hh.
  destruct (decide (length value = 0%nat)) as [Hz|_].
  { destruct value; [done | discriminate]. }
  destruct header; simpl.
  - destruct (reassembleBlock _ value); [done|]. by destruct (getBlockByHash hashKey).
  - destruct (bind _ _); [done|]. by destruct (getBlockByHash hashKey).
Qed.
End store_properties.

(** C1 (evaluation of the code where it departs from the claim): a value that
  decodes to the header of block 1000, a pre-merge block, without a proof is
  offered to [store].  The durable store and the block index are left as
  they were, yet ContentAdded is emitted for the key and the key is queued
  for gossip when the routing table has peers: the exception of
  validateHeader is caught and logged, and [store] carries on. *)
Theorem rejected_header_is_announced
    (hash : bytes → bytes → bytes) (historicalEpochs : list bytes)
    (st : History.State) (hashKey : string) (value : bytes) :
  let r :=
    History.store hash historicalEpochs Samples.hexToBytes Samples.hexToBytes
      Samples.toHexString
      Samples.getContentKey Samples.header_without_proof Samples.header_1000
      unit Samples.no_block Samples.unknown_block
      History.BlockHeader hashKey value st in
  r.2 = Ok ()
  ∧ History.db r.1 = History.db st
  ∧ History.blockIndex r.1 = History.blockIndex st
  ∧ History.events r.1
    = History.events st
      ++ [History.ContentAdded hashKey History.BlockHeader (Samples.toHexString value)]
  ∧ History.gossip r.1
    = if (0 <? History.peers st)%nat
      then History.gossip st ++ [(hashKey, History.BlockHeader)]
      else History.gossip st.
Proof.
  apply (store_rejected_header hash historicalEpochs Samples.hexToBytes Samples.hexToBytes
           Samples.toHexString
           Samples.getContentKey Samples.header_without_proof Samples.header_1000
           unit Samples.no_block Samples.unknown_block value hashKey st value None
           {| History.number := 1000; History.header_hash := value |}).
  - reflexivity.
  - reflexivity.
  - reflexivity.
  - by left.
Qed.

(** C2 (evaluation of the code where it departs from the claim): a block
  body that is not empty is offered to [store] while no block can be
  reassembled from the stored header and the body, and the network does not
  know the block.  The body is written to the durable store under its
  content key all the same, and ContentAdded is emitted. *)
Theorem unverified_body_is_stored
    (hash : bytes → bytes → bytes) (historicalEpochs : list bytes)
    (st : History.State) (hashKey : string) (b : byte) (rest : bytes) :
  let value := b :: rest in
  let r :=
    History.store hash historicalEpochs Samples.hexToBytes Samples.hexToBytes
      Samples.toHexString
      Samples.getContentKey Samples.header_without_proof Samples.header_1000
      unit Samples.no_block Samples.unknown_block
      History.BlockBody hashKey value st in
  r.2 = Ok ()
  ∧ History.db r.1
    = <[ Samples.getContentKey History.BlockBody (String.list_byte_of_string hashKey)
         := Samples.toHexString value ]> (History.db st)
  ∧ History.events r.1
    = History.events st
      ++ [History.ContentAdded hashKey History.BlockBody (Samples.toHexString value)].
Proof.
  intros value r. subst r. unfold History.store.
  rewrite (addBlockBody_always_stores Samples.hexToBytes Samples.hexToBytes
             Samples.toHexString
             Samples.getContentKey Samples.header_without_proof unit Samples.no_block
             Samples.unknown_block value hashKey None st
             (String.list_byte_of_string hashKey)) by done.
  simpl. destruct (0 <? History.peers st)%nat; done.
Qed.

(** ** ackNr of a READ socket *)

(** C4 (evaluation of the code where it departs from the claim): DATA
  packets with seq_nrs 1 and 3 reach a fresh READ socket in this order.
  After the second one seq_nr 2 is still missing, so the largest contiguous
  seq_nr received is 1, but the socket has ackNr 3 and says so in the STATE
  packet it sends: with a single seq_nr recorded the packet is taken as
  expected whatever its seq_nr.  A FIN with seq_nr 4 then finds no gap and
  the transfer completes with the payloads of 1 and 3 only. *)
Theorem ackNr_passes_a_gap (bitmap : list Z) :
  let s := Samples.received bitmap [1; 3] in
  Utp.ackNrs s = [Some 1; None; Some 3]
  ∧ JsArray.includes (Utp.ackNrs s) 2 = false
  ∧ Utp.ackNr s = Some 3
  ∧ Utp.Packet.ackNr <$> last (Utp.sent s) = Some (Some 3)
  ∧ (Utp.handleFinPacket_read (Samples.fin 4) true s).2 = Ok (Some ["042"; "042"]%byte).
Proof. vm_compute. repeat split. Qed.

(** ** The earlier revision refuses without a trace *)

Section legacy.
Import HistoryLegacy.
Variable Aux Header Block : Type.
Variable headerEffects : Header → Aux → Aux * result unit.
Variable getHistoryNetworkContentId
  : Z → string → HistoryNetworkContentTypes → result string.
Variable fromHexString : string → result bytes.
Variable toHexString : bytes → string.
Variable fromRLPSerializedHeader : bytes → result Header.
Variable reassembleBlock : bytes → bytes → result Block.
Variable getBlockByHash : string → result (option Block).
Variable listeners : Event → result unit.

Local Abbreviation addContentToHistory' :=
  (addContentToHistory Aux Header Block headerEffects getHistoryNetworkContentId
     fromHexString toHexString fromRLPSerializedHeader reassembleBlock getBlockByHash
     listeners).

(** A header that cannot be read leaves the state as it was: nothing is
    written and no ContentAdded is emitted. *)
Lemma legacy_header_refused chainId blockHash value st :
  is_Throw (fromRLPSerializedHeader value) →
  (addContentToHistory' chainId BlockHeader blockHash value st).1 = st.
Proof.
  intros [m Hm]. unfold addContentToHistory.
  destruct (getHistoryNetworkContentId _ _ _); [|done]. by rewrite Hm.
Qed.

(** A body is written only if a block was reassembled from the stored header
    and the body, or the network returned the block. *)
Lemma legacy_body_stored_only_if chainId blockHash value st :
  (addContentToHistory' chainId BlockBody blockHash value st).1 ≠ st →
  (∃ headerContentId hexHeader header,
      getHistoryNetworkContentId 1 blockHash BlockHeader = Ok headerContentId
      ∧ db Aux st !! headerContentId = Some hexHeader
      ∧ fromHexString hexHeader = Ok header
      ∧ is_Ok (reassembleBlock header value))
  ∨ (∃ block, getBlockByHash blockHash = Ok (Some block)).
Proof.
  unfold addContentToHistory, validBlock. intros Hne.
  destruct (getHistoryNetworkContentId chainId _ _) as [contentId|]; [|done].
  destruct (getHistoryNetworkContentId 1 _ _) as [headerContentId|] eqn:Hid;
    simpl in Hne.
  - destruct (db Aux st !! _) as [hexHeader|] eqn:Hdb; simpl in Hne.
    + destruct (fromHexString hexHeader) as [header|] eqn:Hh; simpl in Hne.
      * destruct (reassembleBlock header value) as [b|] eqn:Hr.
        -- left. exists headerContentId, hexHeader, header.
           repeat split; try done. by eexists.
        -- destruct (getBlockByHash blockHash) as [[block|]|]; simpl in Hne;
             [right; by eexists | done | done].
      * destruct (getBlockByHash blockHash) as [[block|]|]; simpl in Hne;
          [right; by eexists | done | done].
    + destruct (getBlockByHash blockHash) as [[block|]|]; simpl in Hne;
        [right; by eexists | done | done].
  - destruct (getBlockByHash blockHash) as [[block|]|]; simpl in Hne;
      [right; by eexists | done | done].
Qed.
End legacy.

(** For packets that arrive in order the socket does what the claim says:
    the seq_nr is appended to the recorded ones and becomes the new ackNr. *)
Section in_order.
Import Utp.
Variable bitmap : list Z.

Lemma get_run_of_0 first k : JsArray.get (run_of first (S k)) 0 = Some first.
Proof.
  unfold run_of, JsArray.get. cbn [seq map]. change (Z.of_nat 0) with 0.
  rewrite Z.add_0_r. reflexivity.
Qed.

Lemma ackNrs_recordPacket packet s :
  ackNrs (recordPacket packet s)
  = match JsArray.get (ackNrs s) 0 with
    | None => JsArray.set (ackNrs s) 0 (Packet.seqNr packet)
    | Some first => JsArray.set (ackNrs s) (Packet.seqNr packet - first) (Packet.seqNr packet)
    end.
Proof.
  unfold recordPacket. simpl.
  destruct (reader s); simpl; destruct (JsArray.get (ackNrs s) 0); done.
Qed.

Lemma handleDataPacket_expected packet s :
  isExpected packet (markConnected s) = true →
  let s' := (handleDataPacket bitmap packet s).1 in
  ackNrs s' = ackNrs (recordPacket packet (markConnected s))
  ∧ ackNr s' = lastInOrder packet (recordPacket packet (markConnected s)).
Proof.
  intros He. unfold handleDataPacket. rewrite He. cbv zeta.
  destruct (decide _); [destruct (decide _)|]; done.
Qed.

Lemma lastInOrder_appended packet s first k :
  ackNrs s = run_of first k ++ [Some (Packet.seqNr packet)] →
  Packet.seqNr packet = first + Z.of_nat k →
  lastInOrder packet s = Some (Packet.seqNr packet).
Proof.
  intros Ha Hseq. unfold lastInOrder. rewrite Ha.
  assert (Hfirst : default 0 (JsArray.get (run_of first k ++ [Some (Packet.seqNr packet)]) 0)
                   = first).
  { destruct k as [|k].
    - change (default 0 (Some (Packet.seqNr packet)) = first). simpl. lia.
    - change (default 0 (Some (first + 0)) = first). simpl. lia. }
  rewrite Hfirst.
  replace (Packet.seqNr packet - first) with (Z.of_nat k) by lia.
  assert (Hslice : JsArray.slice (run_of first k ++ [Some (Packet.seqNr packet)]) (Z.of_nat k)
                   = [Some (Packet.seqNr packet)]).
  { unfold JsArray.slice. destruct (Z.ltb_spec (Z.of_nat k) 0); [lia|].
    rewrite Nat2Z.id.
    replace k with (length (run_of first k)) at 1
      by (unfold run_of; by rewrite length_map, length_seq).
    by rewrite drop_app_length. }
  rewrite Hslice. reflexivity.
Qed.

Lemma handleDataPacket_first packet s :
  ackNrs s = [] →
  let s' := (handleDataPacket bitmap packet s).1 in
  ackNrs s' = [Some (Packet.seqNr packet)] ∧ ackNr s' = Some (Packet.seqNr packet).
Proof.
  intros Ha.
  destruct (handleDataPacket_expected packet s) as [H1 H2].
  { unfold isExpected. by rewrite ackNrs_markConnected, Ha. }
  assert (Hrec : ackNrs (recordPacket packet (markConnected s))
                 = run_of (Packet.seqNr packet) 0 ++ [Some (Packet.seqNr packet)]).
  { by rewrite ackNrs_recordPacket, ackNrs_markConnected, Ha. }
  split.
  - by rewrite H1, Hrec.
  - rewrite H2. eapply lastInOrder_appended; [exact Hrec | lia].
Qed.

Lemma handleDataPacket_in_order packet s first k :
  (0 < k)%nat →
  ackNrs s = run_of first k →
  ackNr s = Some (first + Z.of_nat k - 1) →
  Packet.seqNr packet = first + Z.of_nat k →
  let s' := (handleDataPacket bitmap packet s).1 in
  ackNrs s' = run_of first (S k) ∧ ackNr s' = Some (first + Z.of_nat k).
Proof.
  intros Hk Ha Hack Hseq.
  destruct (handleDataPacket_expected packet s) as [H1 H2].
  { unfold isExpected. rewrite ackNrs_markConnected, ackNr_markConnected, Hack.
    destruct (1 <? length (ackNrs s))%nat; [|done]. apply Z.eqb_eq. lia. }
  assert (Hrec : ackNrs (recordPacket packet (markConnected s))
                 = run_of first k ++ [Some (Packet.seqNr packet)]).
  { rewrite ackNrs_recordPacket, ackNrs_markConnected, Ha.
    destruct k as [|k]; [lia|].
    rewrite get_run_of_0.
    unfold JsArray.set.
    destruct (Z.ltb_spec (Packet.seqNr packet - first) 0); [lia|].
    replace (Z.to_nat (Packet.seqNr packet - first)) with (S k) by lia.
    replace (length (run_of first (S k))) with (S k)
      by (unfold run_of; by rewrite length_map, length_seq).
    rewrite Nat.ltb_irrefl, Nat.sub_diag. done. }
  split.
  - rewrite H1, Hrec. unfold run_of. rewrite (seq_S k 0), map_app. simpl.
    by rewrite Hseq.
  - rewrite H2, <- Hseq. eapply lastInOrder_appended; [exact Hrec | exact Hseq].
Qed.
End in_order.

(** * Further properties of the code *)

(** ** The socket: what is recorded and acknowledged *)
Section offsets.
Import Utp UtpHandlers.
Variable bitmap : list Z.

Lemma get_0_lookup {A} (a : list (option A)) : JsArray.get a 0 = mjoin (a !! 0%nat).
Proof. reflexivity. Qed.

(** Writing at an index at or after the start keeps what the other indices
    hold. *)
Lemma lookup_set_nonneg {A} (a : list (option A)) (k : nat) (v : A) (i : nat) :
  mjoin (JsArray.set a (Z.of_nat k) v !! i)
  = if decide (i = k) then Some v else mjoin (a !! i).
Proof.
  unfold JsArray.set. destruct (Z.ltb_spec (Z.of_nat k) 0) as [|_]; [lia|].
  rewrite Nat2Z.id.
  destruct (Nat.ltb_spec k (length a)) as [Hin|Hout].
  - destruct (decide (i = k)) as [->|Hne].
    + by rewrite list_lookup_insert_eq.
    + by rewrite list_lookup_insert_ne.
  - destruct (decide (i < length a)%nat) as [Hi|Hi].
    + rewrite lookup_app_l by done. rewrite decide_False by lia. done.
    + rewrite lookup_app_r by lia. rewrite (lookup_ge_None_2 a i) by lia.
      destruct (decide (i - length a < k - length a)%nat) as [Hlt|Hge].
      * rewrite lookup_app_l by (rewrite length_replicate; lia).
        rewrite lookup_replicate_2 by lia. rewrite decide_False by lia. done.
      * rewrite lookup_app_r by (rewrite length_replicate; lia).
        rewrite length_replicate.
        destruct (decide (i = k)) as [->|Hne].
        -- replace (_ - _ - _)%nat with 0%nat by lia. done.
        -- destruct (i - length a - (k - length a))%nat eqn:E; [lia|]. done.
Qed.

Lemma set_negative {A} (a : list (option A)) (i : Z) (v : A) :
  i < 0 → JsArray.set a i v = a.
Proof. intros H. unfold JsArray.set. destruct (Z.ltb_spec i 0); [done|lia]. Qed.

Lemma recorded_at_offsets_nil : recorded_at_offsets [].
Proof. intros i x Hi. by rewrite lookup_nil in Hi. Qed.

Lemma recorded_at_offsets_alt a :
  recorded_at_offsets a ↔
  ∀ (i : nat) (x : Z), mjoin (a !! i) = Some x →
    ∃ first, mjoin (a !! 0%nat) = Some first ∧ x = first + Z.of_nat i.
Proof.
  unfold recorded_at_offsets. split; intros H i x Hi.
  - apply H. destruct (a !! i) as [[y|]|]; simpl in Hi; congruence.
  - apply H. by rewrite Hi.
Qed.

(** Recording a packet keeps every seq_nr at its offset. *)
Lemma recordPacket_offsets packet s :
  recorded_at_offsets (ackNrs s) →
  recorded_at_offsets (ackNrs (recordPacket packet s)).
Proof.
  rewrite ackNrs_recordPacket. rewrite !recorded_at_offsets_alt. intros Hinv.
  rewrite get_0_lookup.
  destruct (mjoin (ackNrs s !! 0%nat)) as [first|] eqn:H0.
  - destruct (Z.ltb_spec (Packet.seqNr packet - first) 0) as [Hneg|Hpos].
    { rewrite set_negative, H0 by done. exact Hinv. }
    replace (Packet.seqNr packet - first) with (Z.of_nat (Z.to_nat (Packet.seqNr packet - first)))
      by lia.
    set (k := Z.to_nat (Packet.seqNr packet - first)).
    intros i x. rewrite !lookup_set_nonneg.
    destruct (decide (i = k)) as [->|Hi].
    + intros [= <-]. destruct (decide (0%nat = k)) as [<-|_].
      * eexists. split; [done|]. lia.
      * exists first. split; [done|]. lia.
    + intros Hx. destruct (Hinv i x Hx) as (f & Hf & ->).
      assert (f = first) as -> by congruence.
      destruct (decide (0%nat = k)) as [Hk|_]; [|by eexists].
      exists (Packet.seqNr packet). split; [done|]. lia.
  - intros i x. change 0 with (Z.of_nat 0). rewrite !lookup_set_nonneg.
    destruct (decide (i = 0%nat)) as [->|Hi].
    + intros [= <-]. simpl. eexists. split; [done|]. lia.
    + intros Hx. destruct (Hinv i x Hx) as (f & Hf & _). congruence.
Qed.

Lemma ackNrs_handleDataPacket packet s :
  ackNrs (handleDataPacket bitmap packet s).1 = ackNrs (recordPacket packet (markConnected s)).
Proof.
  unfold handleDataPacket.
  destruct (isExpected _ _).
  - cbv zeta. destruct (decide _); [destruct (decide _)|]; done.
  - destruct (generateSelectiveAckBitMask _ _); done.
Qed.

Lemma handleDataPacket_offsets packet s :
  recorded_at_offsets (ackNrs s) →
  recorded_at_offsets (ackNrs (handleDataPacket bitmap packet s).1).
Proof.
  intros H. rewrite ackNrs_handleDataPacket. apply recordPacket_offsets.
  by rewrite ackNrs_markConnected.
Qed.

Lemma receive_offsets packets : ∀ s,
  recorded_at_offsets (ackNrs s) →
  recorded_at_offsets (ackNrs (receive bitmap packets s)).
Proof.
  induction packets as [|p packets IH]; intros s H; [done|].
  apply IH. by apply handleDataPacket_offsets.
Qed.


Lemma findIndex_from_spec (p : Z → bool) (n : nat) : ∀ i,
  let r := JsArray.findIndex_from p i n in
  (r = -1 ∧ ∀ j, i ≤ j < i + Z.of_nat n → p j = false)
  ∨ (i ≤ r < i + Z.of_nat n ∧ p r = true ∧ ∀ j, i ≤ j < r → p j = false).
Proof.
  induction n as [|n IH]; intros i; simpl.
  - left. split; [done|]. intros j Hj. lia.
  - destruct (p i) eqn:Hp.
    + right. split; [lia|]. split; [done|]. intros j Hj. lia.
    + destruct (IH (i + 1)) as [[Hr Hall]|(Hr & Hpr & Hall)].
      * left. split; [done|]. intros j Hj.
        destruct (decide (j = i)) as [->|]; [done|]. apply Hall. lia.
      * right. split; [lia|]. split; [done|]. intros j Hj.
        destruct (decide (j = i)) as [->|]; [done|]. apply Hall. lia.
Qed.

Lemma get_nonneg {A} (a : list (option A)) (i : nat) :
  JsArray.get a (Z.of_nat i) = mjoin (a !! i).
Proof.
  unfold JsArray.get. destruct (Z.ltb_spec (Z.of_nat i) 0); [lia|]. by rewrite Nat2Z.id.
Qed.

Lemma slice_nonneg {A} (a : list (option A)) (k : nat) :
  JsArray.slice a (Z.of_nat k) = drop k a.
Proof.
  unfold JsArray.slice. destruct (Z.ltb_spec (Z.of_nat k) 0); [lia|]. by rewrite Nat2Z.id.
Qed.

Lemma includes_lookup (a : list (option Z)) (x : Z) :
  JsArray.includes a x = true ↔ ∃ i : nat, mjoin (a !! i) = Some x.
Proof.
  unfold JsArray.includes. rewrite bool_decide_eq_true, list_elem_of_lookup.
  split; intros [i Hi]; exists i.
  - by rewrite Hi.
  - destruct (a !! i) as [[y|]|]; simpl in Hi; congruence.
Qed.

(** The value [lastInOrder] finds when the packet's seq_nr is recorded at its
    offset: the end of the run of consecutive recorded seq_nrs that starts at
    the packet. *)
Lemma lastInOrder_run packet s first :
  recorded_at_offsets (ackNrs s) →
  JsArray.get (ackNrs s) 0 = Some first →
  first ≤ Packet.seqNr packet →
  JsArray.get (ackNrs s) (Packet.seqNr packet - first) = Some (Packet.seqNr packet) →
  ∃ m, lastInOrder packet s = Some m
       ∧ Packet.seqNr packet ≤ m
       ∧ (∀ x, Packet.seqNr packet ≤ x ≤ m → JsArray.includes (ackNrs s) x = true)
       ∧ JsArray.includes (ackNrs s) (m + 1) = false.
Proof.
  intros Hinv H0 Hle Hk. rewrite recorded_at_offsets_alt in Hinv.
  pose proof H0 as H0'. rewrite get_0_lookup in H0'.
  unfold lastInOrder. rewrite H0. simpl default.
  set (seq := Packet.seqNr packet) in *.
  set (k := Z.to_nat (seq - first)).
  replace (seq - first) with (Z.of_nat k) in * by lia.
  rewrite get_nonneg in Hk.
  rewrite slice_nonneg.
  set (future := drop k (ackNrs s)).
  assert (Hfut : ∀ j : nat, mjoin (future !! j) = mjoin (ackNrs s !! (k + j)%nat)).
  { intros j. unfold future. by rewrite lookup_drop. }
  assert (Hlen : (0 < length future)%nat).
  { destruct future as [|y l] eqn:E; [|simpl; lia].
    specialize (Hfut 0%nat). rewrite Nat.add_0_r, Hk in Hfut. done. }
  unfold JsArray.findIndex.
  pose proof (findIndex_from_spec
                (λ i, JsArray.is_undefined (JsArray.get future (i + 1))) (length future) 0)
    as Hspec.
  cbv zeta in Hspec.
  set (r := JsArray.findIndex_from _ 0 (length future)) in *.
  destruct Hspec as [[_ Hall]|(Hr & Hpr & Hall)].
  { exfalso. specialize (Hall (Z.of_nat (length future) - 1) ltac:(lia)).
    simpl in Hall.
    replace (Z.of_nat (length future) - 1 + 1) with (Z.of_nat (length future)) in Hall by lia.
    rewrite get_nonneg, lookup_ge_None_2 in Hall by lia. done. }
  simpl in Hpr.
  set (j := Z.to_nat r).
  replace r with (Z.of_nat j) in * by lia.
  rewrite slice_nonneg, get_0_lookup, (lookup_drop future j 0), Nat.add_0_r, Hfut.
  assert (Hrun : ∀ i : nat, (i ≤ j)%nat →
            mjoin (ackNrs s !! (k + i)%nat) = Some (seq + Z.of_nat i)).
  { intros i Hi. destruct i as [|i].
    - rewrite Nat.add_0_r, Hk. f_equal. lia.
    - specialize (Hall (Z.of_nat i) ltac:(lia)). simpl in Hall.
      replace (Z.of_nat i + 1) with (Z.of_nat (S i)) in Hall by lia.
      rewrite get_nonneg, Hfut in Hall.
      destruct (mjoin (ackNrs s !! (k + S i)%nat)) as [x|] eqn:Hx; [|done].
      destruct (Hinv _ _ Hx) as (f & Hf & ->).
      assert (f = first) as -> by congruence. f_equal. lia. }
  exists (seq + Z.of_nat j). split; [by apply Hrun|]. split; [lia|]. split.
  - intros x Hx. apply includes_lookup.
    exists (k + Z.to_nat (x - seq))%nat. rewrite Hrun by lia. f_equal. lia.
  - apply not_true_is_false. intros (i & Hi)%includes_lookup.
    destruct (Hinv _ _ Hi) as (f & Hf & Hx).
    assert (f = first) as -> by congruence.
    assert (i = (k + S j)%nat) as -> by lia.
    replace (Z.of_nat j + 1) with (Z.of_nat (S j)) in Hpr by lia.
    rewrite get_nonneg, Hfut, Hi in Hpr. done.
Qed.

(** After a packet at or above the first recorded seq_nr was recorded, the
    first seq_nr is in place and the packet's seq_nr stands at its offset. *)
Lemma recordPacket_recorded packet s :
  (∀ first, JsArray.get (ackNrs s) 0 = Some first → first ≤ Packet.seqNr packet) →
  ∃ first,
    JsArray.get (ackNrs (recordPacket packet s)) 0 = Some first
    ∧ first ≤ Packet.seqNr packet
    ∧ JsArray.get (ackNrs (recordPacket packet s)) (Packet.seqNr packet - first)
      = Some (Packet.seqNr packet).
Proof.
  intros Hle. rewrite ackNrs_recordPacket.
  destruct (JsArray.get (ackNrs s) 0) as [first|] eqn:H0.
  - specialize (Hle first eq_refl). exists first.
    set (k := Z.to_nat (Packet.seqNr packet - first)).
    replace (Packet.seqNr packet - first) with (Z.of_nat k) by lia.
    rewrite get_nonneg, get_0_lookup, !lookup_set_nonneg.
    rewrite (decide_True (P := k = k)) by done. split; [|split; [exact Hle|done]].
    destruct (decide (0%nat = k)) as [Hk|_]; [f_equal; lia|].
    by rewrite <- get_0_lookup.
  - exists (Packet.seqNr packet). rewrite Z.sub_diag.
    change 0 with (Z.of_nat 0). rewrite get_nonneg, lookup_set_nonneg. done.
Qed.


(** What is recorded is what a packet brought. *)
Lemma recordPacket_recorded_from packet s (i : nat) (x : Z) :
  mjoin (ackNrs (recordPacket packet s) !! i) = Some x →
  mjoin (ackNrs s !! i) = Some x ∨ x = Packet.seqNr packet.
Proof.
  rewrite ackNrs_recordPacket.
  destruct (JsArray.get (ackNrs s) 0) as [first|].
  - destruct (Z.ltb_spec (Packet.seqNr packet - first) 0) as [Hneg|Hpos].
    { rewrite set_negative by done. by left. }
    replace (Packet.seqNr packet - first)
      with (Z.of_nat (Z.to_nat (Packet.seqNr packet - first))) by lia.
    rewrite lookup_set_nonneg. destruct (decide _); [intros [= <-]; by right | by left].
  - change 0 with (Z.of_nat 0). rewrite lookup_set_nonneg.
    destruct (decide _); [intros [= <-]; by right | by left].
Qed.

Lemma receive_recorded_from packets : ∀ s (x : Z),
  Some x ∈ ackNrs (receive bitmap packets s) →
  Some x ∈ ackNrs s ∨ x ∈ Packet.seqNr <$> packets.
Proof.
  induction packets as [|p packets IH]; intros s x Hx; [by left|].
  apply IH in Hx as [Hx|Hx]; [|right; by apply list_elem_of_further].
  rewrite ackNrs_handleDataPacket in Hx.
  apply list_elem_of_lookup in Hx as [i Hi].
  destruct (recordPacket_recorded_from p (markConnected s) i x) as [H| ->].
  - by rewrite Hi.
  - left. rewrite ackNrs_markConnected in H. apply list_elem_of_lookup. exists i.
    destruct (ackNrs s !! i) as [[y|]|]; simpl in H; congruence.
  - right. apply list_elem_of_here.
Qed.

(** X1: however DATA packets reach a socket made by the constructor, in
    whatever order and with whatever seq_nrs, every seq_nr held in ackNrs
    stands at the index seq_nr - ackNrs[0], and every seq_nr held is the
    seq_nr of one of the packets. *)
Theorem recorded_seq_nrs_keep_their_offsets
    (options : UtpSocketOptions) (packets : list Packet.t) :
  let s := receive bitmap packets (constructor options) in
  recorded_at_offsets (ackNrs s)
  ∧ omap id (ackNrs s) ⊆ Packet.seqNr <$> packets.
Proof.
  intros s. split.
  - apply receive_offsets. exact recorded_at_offsets_nil.
  - intros x Hx. apply list_elem_of_omap in Hx as (o & Ho & Hox). simpl in Hox. subst o.
    apply receive_recorded_from in Ho as [Ho|Ho]; [|done].
    simpl in Ho. by apply elem_of_nil in Ho.
Qed.

(** X2: a DATA packet that the socket takes as expected (at most one seq_nr
    is recorded, or the packet follows ackNr), and whose seq_nr is not below
    the first one recorded, moves ackNr to the end of the run of consecutive
    recorded seq_nrs that starts at the packet: every seq_nr from the
    packet's to the new ackNr is recorded, the one after the new ackNr is
    not. *)
Theorem expected_packet_moves_ackNr_to_run_end (packet : Packet.t) (s : UtpSocket) :
  recorded_at_offsets (ackNrs s) →
  (∀ first, JsArray.get (ackNrs s) 0 = Some first → first ≤ Packet.seqNr packet) →
  (length (ackNrs s) ≤ 1)%nat ∨ ackNr s = Some (Packet.seqNr packet - 1) →
  let s' := (handleDataPacket bitmap packet s).1 in
  ∃ m, ackNr s' = Some m
       ∧ Packet.seqNr packet ≤ m
       ∧ (∀ x, Packet.seqNr packet ≤ x ≤ m → JsArray.includes (ackNrs s') x = true)
       ∧ JsArray.includes (ackNrs s') (m + 1) = false.
Proof.
  intros Hinv Hfirst Hexp s'.
  destruct (handleDataPacket_expected bitmap packet s) as [Ha Hm].
  { unfold isExpected. rewrite ackNrs_markConnected, ackNr_markConnected.
    destruct (Nat.ltb_spec 1 (length (ackNrs s))) as [Hlen|]; [|done].
    destruct Hexp as [| ->]; [lia|]. apply Z.eqb_eq. lia. }
  fold s' in Ha, Hm. rewrite Ha, Hm.
  set (s1 := recordPacket packet (markConnected s)).
  destruct (recordPacket_recorded packet (markConnected s)) as (first & H0 & Hle & Hk).
  { by rewrite ackNrs_markConnected. }
  apply (lastInOrder_run packet s1 first); try done.
  apply recordPacket_offsets. by rewrite ackNrs_markConnected.
Qed.

End offsets.

Lemma expected_packet_moves_ackNr_to_run_end_witness :
  let s := UtpHandlers.receive Samples.bitmap
             [Samples.data 1 []; Samples.data 2 []; Samples.data 4 []]
             Samples.reader_socket in
  let s' := (Utp.handleDataPacket Samples.bitmap (Samples.data 3 []) s).1 in
  ∃ m, Utp.ackNr s' = Some m
       ∧ 3 ≤ m
       ∧ (∀ x, 3 ≤ x ≤ m → JsArray.includes (Utp.ackNrs s') x = true)
       ∧ JsArray.includes (Utp.ackNrs s') (m + 1) = false.
Proof.
  intros s.
  apply (expected_packet_moves_ackNr_to_run_end Samples.bitmap (Samples.data 3 []) s).
  - apply receive_offsets. exact recorded_at_offsets_nil.
  - intros first Hf. vm_compute in Hf. injection Hf as <-. simpl. lia.
  - right. vm_compute. reflexivity.
Defined.

Section replies.
Import Utp UtpHandlers.
Variable bitmap : list Z.

Lemma recordPacket_fields packet s :
  seqNr (recordPacket packet s) = seqNr s + 1
  ∧ sent (recordPacket packet s) = sent s
  ∧ rcvConnectionId (recordPacket packet s) = rcvConnectionId s
  ∧ state (recordPacket packet s) = state s
  ∧ finNr (recordPacket packet s) = finNr s.
Proof.
  unfold recordPacket. simpl.
  destruct (reader s); simpl; destruct (JsArray.get _ 0); done.
Qed.

Lemma markConnected_fields s :
  seqNr (markConnected s) = seqNr s
  ∧ sent (markConnected s) = sent s
  ∧ rcvConnectionId (markConnected s) = rcvConnectionId s
  ∧ finNr (markConnected s) = finNr s.
Proof. unfold markConnected. by destruct (decide _). Qed.

(** An index table without entries above 32 keeps the window at 32 slots. *)
Lemma selectiveAckWindow_length s :
  Forall (λ b, b ≤ 32) bitmap → length (selectiveAckWindow bitmap s) = 32%nat.
Proof.
  intros Hr. unfold selectiveAckWindow.
  assert (H : ∀ positions w, length w = 32%nat →
            length (foldl (window_step bitmap s) w positions) = 32%nat).
  { induction positions as [|i positions IH]; intros w Hw; simpl; [done|].
    apply IH. unfold window_step.
    destruct (ackNr s) as [a|]; [|done].
    destruct (JsArray.includes _ _); [|done].
    destruct (bitmap !! i) as [b|] eqn:Hb; [|done].
    eapply Forall_lookup_1 in Hr; [|exact Hb]. simpl in Hr.
    unfold window_set. destruct (Z.ltb_spec (b - 1) 0); [done|].
    destruct (Nat.ltb_spec (Z.to_nat (b - 1)) (length w)); [|lia].
    by rewrite length_insert. }
  apply H. apply length_replicate.
Qed.


Lemma sendAckPacket_eq bitmask s :
  sendAckPacket bitmask s = sendPacket (ack_of bitmask s) s.
Proof. reflexivity. Qed.

Lemma isExpected_false_iff packet s :
  isExpected packet (markConnected s) = false
  ↔ (1 < length (ackNrs s))%nat ∧ ackNr s ≠ Some (Packet.seqNr packet - 1).
Proof.
  unfold isExpected. rewrite ackNrs_markConnected, ackNr_markConnected.
  destruct (Nat.ltb_spec 1 (length (ackNrs s))) as [Hl|Hl].
  - destruct (ackNr s) as [a|].
    + destruct (Z.eqb_spec (a + 1) (Packet.seqNr packet)) as [He|He].
      * split; [done|]. intros [_ H]. exfalso. apply H. f_equal. lia.
      * split; [|done]. intros _. split; [done|]. intros [= ->]. lia.
    + split; [done|]. done.
  - split; [done|]. intros [H _]. lia.
Qed.

(** X3: with an index table that has no entry above 32, handling a DATA
    packet never throws, advances the socket's seqNr by one and sends exactly
    one packet: a STATE packet for the socket's receive connection id that
    carries the new seqNr and the new ackNr and no payload; it carries a
    selective-ACK bitmask exactly when the packet was not expected. *)
Theorem data_packet_is_answered_once (packet : Packet.t) (s : UtpSocket) :
  Forall (λ b, b ≤ 32) bitmap →
  let r := handleDataPacket bitmap packet s in
  is_Ok r.2
  ∧ seqNr r.1 = seqNr s + 1
  ∧ ∃ p, sent r.1 = sent s ++ [p]
         ∧ Packet.pType p = ST_STATE
         ∧ Packet.connectionId p = rcvConnectionId s
         ∧ Packet.seqNr p = seqNr s + 1
         ∧ Packet.ackNr p = ackNr r.1
         ∧ Packet.payload p = None
         ∧ (is_Some (Packet.bitmask p)
            ↔ (1 < length (ackNrs s))%nat ∧ ackNr s ≠ Some (Packet.seqNr packet - 1)).
Proof.
  intros Hr r. subst r. pose proof (isExpected_false_iff packet s) as Hiff.
  unfold handleDataPacket.
  destruct (recordPacket_fields packet (markConnected s)) as (Hseq & Hsent & Hid & _).
  destruct (markConnected_fields s) as (Hseq' & Hsent' & Hid' & _).
  rewrite Hseq' in Hseq. rewrite Hsent' in Hsent. rewrite Hid' in Hid.
  set (s1 := recordPacket packet (markConnected s)) in *.
  destruct (isExpected packet (markConnected s)) eqn:He; cbv zeta.
  - set (s2 := setAckNr (lastInOrder packet s1) s1).
    assert (H : seqNr (sendAckPacket None s2) = seqNr s + 1
                ∧ ∃ p, sent (sendAckPacket None s2) = sent s ++ [p]
                       ∧ Packet.pType p = ST_STATE
                       ∧ Packet.connectionId p = rcvConnectionId s
                       ∧ Packet.seqNr p = seqNr s + 1
                       ∧ Packet.ackNr p = ackNr (sendAckPacket None s2)
                       ∧ Packet.payload p = None
                       ∧ (is_Some (Packet.bitmask p)
                          ↔ (1 < length (ackNrs s))%nat
                            ∧ ackNr s ≠ Some (Packet.seqNr packet - 1))).
    { split; [exact Hseq|]. exists (ack_of None s2).
      split; [by rewrite <- Hsent|]. split; [done|]. split; [exact Hid|].
      split; [exact Hseq|]. split; [done|]. split; [done|].
      rewrite <- Hiff. split; [intros [? ?]; done | done]. }
    destruct (decide (state s2 = Some GotFin)); [destruct (decide (ackNr s2 = finNr s2))|];
      (split; [by eexists | exact H]).
  - unfold generateSelectiveAckBitMask, serializeBitVector32.
    rewrite decide_True by (by apply selectiveAckWindow_length).
    set (mask := fromBoolArray 4 _).
    split; [by eexists|]. split; [exact Hseq|].
    exists (ack_of (Some mask) s1).
    split; [by rewrite <- Hsent|]. split; [done|]. split; [exact Hid|].
    split; [exact Hseq|]. split; [done|]. split; [done|].
    rewrite <- Hiff. split; [done | by eexists].
Qed.

End replies.

Lemma data_packet_is_answered_once_witness :
  let r := Utp.handleDataPacket Samples.bitmap (Samples.data 7 []) Samples.reader_socket in
  is_Ok r.2
  ∧ Utp.seqNr r.1 = Utp.seqNr Samples.reader_socket + 1
  ∧ ∃ p, Utp.sent r.1 = Utp.sent Samples.reader_socket ++ [p]
         ∧ Utp.Packet.pType p = Utp.ST_STATE
         ∧ Utp.Packet.connectionId p = Utp.rcvConnectionId Samples.reader_socket
         ∧ Utp.Packet.seqNr p = Utp.seqNr Samples.reader_socket + 1
         ∧ Utp.Packet.ackNr p = Utp.ackNr r.1
         ∧ Utp.Packet.payload p = None
         ∧ (is_Some (Utp.Packet.bitmask p)
            ↔ (1 < length (Utp.ackNrs Samples.reader_socket))%nat
              ∧ Utp.ackNr Samples.reader_socket
                ≠ Some (Utp.Packet.seqNr (Samples.data 7 []) - 1)).
Proof.
  apply (data_packet_is_answered_once Samples.bitmap (Samples.data 7 [])
           Samples.reader_socket).
  unfold Samples.bitmap. repeat (constructor; [lia|]). constructor.
Defined.

Section fin.
Import Utp UtpHandlers.
Variable bitmap : list Z.

Lemma get_slice_elem {A} (a : list (option A)) (i j : Z) (x : A) :
  JsArray.get (JsArray.slice a i) j = Some x → Some x ∈ a.
Proof.
  unfold JsArray.get, JsArray.slice. destruct (j <? 0); [done|].
  intros H.
  assert (Hd : ∀ n, mjoin (drop n a !! Z.to_nat j) = Some x → Some x ∈ a).
  { intros n Hn. rewrite lookup_drop in Hn. apply list_elem_of_lookup.
    exists (n + Z.to_nat j)%nat. destruct (a !! _) as [[y|]|]; simpl in Hn; congruence. }
  destruct (i <? 0); by eapply Hd.
Qed.

(** The new ackNr of an expected packet is one of the recorded seq_nrs. *)
Lemma lastInOrder_elem packet s m :
  lastInOrder packet s = Some m → Some m ∈ ackNrs s.
Proof.
  unfold lastInOrder. intros H. apply get_slice_elem in H.
  unfold JsArray.slice in H.
  destruct (_ <? 0); apply list_elem_of_lookup in H as [i Hi];
    rewrite lookup_drop in Hi; apply list_elem_of_lookup; by eexists.
Qed.

(** X4: handleDataPacket returns the content only when the new ackNr equals
    finNr, and the new ackNr is the seq_nr of a DATA packet.  So once a FIN
    with seq_nr f arrived before the last DATA packet, no DATA packet
    completes the transfer: as long as f is not itself the seq_nr of a DATA
    packet, handleDataPacket returns no content, whichever packets were still
    missing. *)
Theorem data_after_early_fin_returns_no_content
    (packet : Packet.t) (s : UtpSocket) (f : Z) :
  finNr s = Some f →
  JsArray.includes (ackNrs s) f = false →
  Packet.seqNr packet ≠ f →
  match (handleDataPacket bitmap packet s).2 with
  | Ok (Some _) => False
  | _ => True
  end.
Proof.
  intros Hfin Hnot Hseq. unfold handleDataPacket.
  destruct (isExpected packet (markConnected s)); cbv zeta.
  2:{ by destruct (generateSelectiveAckBitMask _ _). }
  set (s1 := recordPacket packet (markConnected s)).
  destruct (decide _) as [_|]; [|done].
  destruct (decide _) as [Heq|]; [|done]. exfalso.
  change (lastInOrder packet s1 = finNr s1) in Heq.
  destruct (recordPacket_fields packet (markConnected s)) as (_ & _ & _ & _ & Hf).
  destruct (markConnected_fields s) as (_ & _ & _ & Hf').
  fold s1 in Hf. rewrite Hf, Hf', Hfin in Heq.
  apply lastInOrder_elem in Heq. subst s1.
  apply list_elem_of_lookup in Heq as [i Hi].
  destruct (recordPacket_recorded_from packet (markConnected s) i f) as [H|H].
  - by rewrite Hi.
  - rewrite ackNrs_markConnected in H.
    apply not_true_iff_false in Hnot. apply Hnot, includes_lookup. by exists i.
  - congruence.
Qed.


(** X5: a FIN puts the socket in state GotFin.  A WRITE socket does nothing
    else.  A READ socket with a reader records the FIN's seq_nr as finNr; it
    acknowledges the FIN, with a STATE packet that carries the FIN's seq_nr
    as ackNr, exactly when the FIN follows ackNr, and then returns what
    [close] returns; a FIN that comes early is not acknowledged and leaves
    ackNr and seqNr as they were.  A READ socket without a reader throws. *)
Theorem fin_is_acknowledged_only_in_order
    (packet : Packet.t) (compile_flag : bool) (s : UtpSocket) :
  let r := handleFinPacket packet compile_flag s in
  state r.1 = Some GotFin
  ∧ (type s = WRITE → r = (setState GotFin s, Ok None))
  ∧ (type s = READ → reader s = None → is_Throw r.2 ∧ sent r.1 = sent s)
  ∧ (type s = READ → is_Some (reader s) →
     finNr r.1 = Some (Packet.seqNr packet)
     ∧ if decide (ackNr s = Some (Packet.seqNr packet - 1))
       then r.2 = Ok (close compile_flag r.1)
            ∧ ackNr r.1 = Some (Packet.seqNr packet)
            ∧ seqNr r.1 = seqNr s + 1
            ∧ sent r.1 = sent s ++ [ack_of None r.1]
       else r.2 = Ok None
            ∧ ackNr r.1 = ackNr s
            ∧ seqNr r.1 = seqNr s
            ∧ sent r.1 = sent s).
Proof.
  intros r. subst r. unfold handleFinPacket.
  destruct (decide (type s = WRITE)) as [Hw|Hw].
  { split; [done|]. split; [done|]. split; intros Hr; congruence. }
  unfold handleFinPacket_read.
  change (reader (setFinNr _ (setState GotFin s))) with (reader s).
  destruct (reader s) as [rd|] eqn:Hrd.
  2:{ split; [done|]. split; [done|]. split; [|by intros _ [? ?]].
      intros _ _. split; [by eexists | done]. }
  cbv zeta.
  change (ackNr (withReader _ (setFinNr _ (setState GotFin s)))) with (ackNr s).
  split.
  { by destruct (ackNr s) as [a|]; [destruct (a + 1 =? _)|]. }
  split; [done|]. split; [done|]. intros _ _.
  destruct (decide (ackNr s = Some (Packet.seqNr packet - 1))) as [Ha|Ha].
  - rewrite Ha. rewrite (proj2 (Z.eqb_eq _ _)) by lia. done.
  - destruct (ackNr s) as [a|] eqn:Ea; [|done].
    rewrite (proj2 (Z.eqb_neq _ _)); [done|]. intros H. apply Ha. f_equal. lia.
Qed.

End fin.

Lemma data_after_early_fin_returns_no_content_witness :
  let s := (Utp.handleFinPacket_read (Samples.fin 4) true
              (UtpHandlers.receive Samples.bitmap [Samples.data 1 []; Samples.data 2 []]
                 Samples.reader_socket)).1 in
  Utp.state s = Some Utp.GotFin
  ∧ match (Utp.handleDataPacket Samples.bitmap (Samples.data 3 []) s).2 with
    | Ok (Some _) => False
    | _ => True
    end.
Proof.
  intros s. split; [reflexivity|].
  apply (data_after_early_fin_returns_no_content Samples.bitmap (Samples.data 3 []) s 4).
  - reflexivity.
  - vm_compute. reflexivity.
  - simpl. lia.
Defined.

Lemma fin_is_acknowledged_only_in_order_witness :
  let s := UtpHandlers.receive Samples.bitmap [Samples.data 1 []; Samples.data 2 []]
             Samples.reader_socket in
  Utp.ackNr (UtpHandlers.handleFinPacket (Samples.fin 3) true s).1 = Some 3
  ∧ Utp.sent (UtpHandlers.handleFinPacket (Samples.fin 4) true s).1 = Utp.sent s.
Proof.
  intros s.
  pose proof (fin_is_acknowledged_only_in_order (Samples.fin 3) true s) as H3.
  pose proof (fin_is_acknowledged_only_in_order (Samples.fin 4) true s) as H4.
  cbv zeta in H3, H4.
  destruct H3 as (_ & _ & _ & H3). destruct H4 as (_ & _ & _ & H4).
  destruct (H3 eq_refl) as (_ & H3'); [by eexists|].
  destruct (H4 eq_refl) as (_ & H4'); [by eexists|].
  split.
  - rewrite decide_True in H3' by (vm_compute; reflexivity). apply H3'.
  - rewrite decide_False in H4' by (vm_compute; discriminate). apply H4'.
Defined.


Section in_order_transfer.
Import Utp UtpHandlers.
Variable bitmap : list Z.

Lemma handleDataPacket_expected_socket packet s :
  isExpected packet (markConnected s) = true →
  let s1 := recordPacket packet (markConnected s) in
  (handleDataPacket bitmap packet s).1
  = sendAckPacket None (setAckNr (lastInOrder packet s1) s1).
Proof.
  intros He. unfold handleDataPacket. rewrite He. cbv zeta.
  destruct (decide _); [destruct (decide _)|]; done.
Qed.

Lemma recordPacket_more_fields packet s :
  type (recordPacket packet s) = type s
  ∧ (is_Some (reader s) → is_Some (reader (recordPacket packet s))).
Proof.
  unfold recordPacket. simpl.
  destruct (reader s) eqn:E; simpl; destruct (JsArray.get _ 0); simpl;
    rewrite ?E; (split; [done|]); intros [? ?]; first [done | by eexists].
Qed.

Lemma markConnected_more_fields s :
  type (markConnected s) = type s ∧ reader (markConnected s) = reader s.
Proof. unfold markConnected. by destruct (decide _). Qed.

Lemma length_run_of first k : length (run_of first k) = k.
Proof. unfold run_of. by rewrite length_map, length_seq. Qed.

(** One in-order packet: the seq_nr is appended, becomes the new ackNr and is
    acknowledged by a plain STATE packet. *)
Lemma handleDataPacket_in_order_reply packet s first k :
  ackNrs s = run_of first k →
  k = 0%nat ∨ ackNr s = Some (first + Z.of_nat k - 1) →
  Packet.seqNr packet = first + Z.of_nat k →
  let s' := (handleDataPacket bitmap packet s).1 in
  ackNrs s' = run_of first (S k)
  ∧ ackNr s' = Some (first + Z.of_nat k)
  ∧ sent s' = sent s ++ [in_order_reply s 0 packet]
  ∧ seqNr s' = seqNr s + 1
  ∧ rcvConnectionId s' = rcvConnectionId s
  ∧ type s' = type s
  ∧ (is_Some (reader s) → is_Some (reader s')).
Proof.
  intros Ha Hack Hseq s'.
  assert (H12 : ackNrs s' = run_of first (S k) ∧ ackNr s' = Some (first + Z.of_nat k)).
  { destruct k as [|k].
    - destruct (handleDataPacket_first bitmap packet s Ha) as [H1 H2].
      fold s' in H1, H2. rewrite H1, H2, Hseq. unfold run_of. simpl.
      split; do 2 f_equal; lia.
    - destruct Hack as [|Hack]; [done|].
      by apply (handleDataPacket_in_order bitmap packet s first (S k)); [lia|..]. }
  destruct H12 as [H1 H2]. split; [done|]. split; [done|].
  assert (He : isExpected packet (markConnected s) = true).
  { unfold isExpected. rewrite ackNrs_markConnected, ackNr_markConnected, Ha, length_run_of.
    destruct (Nat.ltb_spec 1 k); [|done].
    destruct Hack as [| ->]; [lia|]. apply Z.eqb_eq. lia. }
  pose proof (handleDataPacket_expected_socket packet s He) as Hs. cbv zeta in Hs.
  fold s' in Hs.
  destruct (recordPacket_fields packet (markConnected s)) as (Hq & Hsent & Hid & _).
  destruct (markConnected_fields s) as (Hq' & Hsent' & Hid' & _).
  destruct (recordPacket_more_fields packet (markConnected s)) as (Ht & Hrd).
  destruct (markConnected_more_fields s) as (Ht' & Hrd').
  set (s1 := recordPacket packet (markConnected s)) in *.
  assert (Hseq' : seqNr s' = seqNr s + 1).
  { rewrite Hs. change (seqNr s1 = seqNr s + 1). congruence. }
  assert (Hid'' : rcvConnectionId s' = rcvConnectionId s).
  { rewrite Hs. change (rcvConnectionId s1 = rcvConnectionId s). congruence. }
  split.
  { assert (Hp : in_order_reply s 0 packet = ack_of None s').
    { unfold ack_of, in_order_reply. rewrite Hseq', Hid'', H2, Hseq.
      change (Z.of_nat 0) with 0. rewrite Z.add_0_r. done. }
    rewrite Hp, <- Hsent', <- Hsent, Hs. reflexivity. }
  split; [done|]. split; [done|]. split.
  - rewrite Hs. change (type s1 = type s). congruence.
  - intros Hr. rewrite Hs. change (is_Some (reader s1)). apply Hrd. by rewrite Hrd'.
Qed.

Lemma seqZ_cons' (m : Z) (n : nat) : seqZ m (Z.of_nat (S n)) = m :: seqZ (m + 1) (Z.of_nat n).
Proof.
  rewrite seqZ_cons by lia. f_equal. f_equal; lia.
Qed.

Lemma receive_in_order packets : ∀ s first k,
  ackNrs s = run_of first k →
  k = 0%nat ∨ ackNr s = Some (first + Z.of_nat k - 1) →
  Packet.seqNr <$> packets = seqZ (first + Z.of_nat k) (Z.of_nat (length packets)) →
  let s' := receive bitmap packets s in
  ackNrs s' = run_of first (k + length packets)
  ∧ (packets ≠ [] → ackNr s' = Some (first + Z.of_nat (k + length packets) - 1))
  ∧ (packets = [] → ackNr s' = ackNr s)
  ∧ sent s' = sent s ++ imap (in_order_reply s) packets
  ∧ seqNr s' = seqNr s + Z.of_nat (length packets)
  ∧ type s' = type s
  ∧ (is_Some (reader s) → is_Some (reader s')).
Proof.
  induction packets as [|p packets IH]; intros s first k Ha Hack Hseqs s'.
  - subst s'. simpl. rewrite Nat.add_0_r, app_nil_r, Z.add_0_r. done.
  - rewrite fmap_cons in Hseqs. cbn [length] in Hseqs. rewrite seqZ_cons' in Hseqs.
    injection Hseqs as Hp Hrest.
    destruct (handleDataPacket_in_order_reply p s first k Ha Hack Hp)
      as (H1 & H2 & H3 & H4 & H5 & H6 & H7).
    set (s1 := (handleDataPacket bitmap p s).1) in *.
    specialize (IH s1 first (S k) H1).
    destruct IH as (I1 & I2 & I3 & I4 & I5 & I6 & I7).
    { right. rewrite H2. f_equal. lia. }
    { rewrite Hrest. f_equal. lia. }
    change (receive bitmap packets s1) with s' in *.
    cbn [length]. split; [rewrite I1; f_equal; lia|]. split.
    { intros _. destruct packets as [|q packets].
      - rewrite I3 by done. rewrite H2. f_equal. simpl. lia.
      - rewrite I2 by done. f_equal. simpl length. lia. }
    split; [done|]. split.
    { rewrite I4, H3, <- app_assoc. f_equal. simpl. f_equal.
      apply imap_ext. intros i q _. unfold in_order_reply. simpl.
      rewrite H4, H5. f_equal. lia. }
    split; [rewrite I5, H4; lia|]. split; [congruence|]. intros Hr. by apply I7, H7.
Qed.

(** X6: a READ socket made by the constructor receives a SYN with seq_nr n,
    then DATA packets with seq_nrs n+1, n+2, ... in order, then the FIN that
    follows them.  The SYN is acknowledged with ackNr n; each DATA packet is
    acknowledged by one STATE packet without a bitmask that carries the
    packet's own seq_nr as ackNr; the recorded seq_nrs are exactly those of
    the packets; the FIN is acknowledged with its seq_nr and the call returns
    what [close] gives for the compile flag. *)
Theorem in_order_transfer_is_acknowledged_packet_by_packet
    (options : UtpSocketOptions) (n rand : Z) (packets : list Packet.t)
    (finPacket : Packet.t) (compile_flag : bool) :
  o_type options = READ →
  Packet.seqNr <$> packets = seqZ (n + 1) (Z.of_nat (length packets)) →
  Packet.seqNr finPacket = n + 1 + Z.of_nat (length packets) →
  let s1 := (handleSynPacket n rand (constructor options)).1 in
  let s2 := receive bitmap packets s1 in
  let r := handleFinPacket finPacket compile_flag s2 in
  sent s1 = [ack_of None s1]
  ∧ ackNr s1 = Some n
  ∧ ackNrs s2 = run_of (n + 1) (length packets)
  ∧ ackNr s2 = Some (n + Z.of_nat (length packets))
  ∧ sent s2 = sent s1 ++ imap (in_order_reply s1) packets
  ∧ r.2 = Ok (close compile_flag r.1)
  ∧ ackNr r.1 = Some (Packet.seqNr finPacket)
  ∧ sent r.1 = sent s2 ++ [ack_of None r.1].
Proof.
  intros Hty Hseqs Hfin s1 s2 r.
  assert (Hs1 : s1 = sendSynAckPacket
                       (setReader (n + 1)
                          (setAckNr (Some n) (setState SynRecv (constructor options))))).
  { subst s1. unfold handleSynPacket. simpl. rewrite Hty. done. }
  destruct (receive_in_order packets s1 (n + 1) 0) as (I1 & I2 & I3 & I4 & I5 & I6 & I7).
  { by rewrite Hs1. }
  { by left. }
  { rewrite Hseqs. f_equal. lia. }
  fold s2 in I1, I2, I3, I4, I5, I6, I7.
  assert (Hack2 : ackNr s2 = Some (n + Z.of_nat (length packets))).
  { destruct packets as [|p packets].
    - rewrite I3 by done. rewrite Hs1. simpl. f_equal. lia.
    - rewrite I2 by done. f_equal. lia. }
  split; [by rewrite Hs1|]. split; [by rewrite Hs1|].
  split; [exact I1|]. split; [exact Hack2|]. split; [exact I4|].
  assert (Hrd : is_Some (reader s2)) by (apply I7; rewrite Hs1; by eexists).
  assert (Hty2 : type s2 = READ) by (rewrite I6, Hs1; exact Hty).
  subst r. unfold handleFinPacket. rewrite decide_False by congruence.
  unfold handleFinPacket_read.
  change (reader (setFinNr _ (setState GotFin s2))) with (reader s2).
  destruct Hrd as [rd Hrd]. rewrite Hrd. cbv zeta.
  change (ackNr (withReader _ (setFinNr _ (setState GotFin s2)))) with (ackNr s2).
  rewrite Hack2. rewrite (proj2 (Z.eqb_eq _ _)) by lia. done.
Qed.

End in_order_transfer.

Lemma in_order_transfer_is_acknowledged_packet_by_packet_witness :
  let s1 := (UtpHandlers.handleSynPacket 100 7 Samples.reader_socket).1 in
  let s2 := UtpHandlers.receive Samples.bitmap
              [Samples.data 101 ["001"%byte]; Samples.data 102 ["002"%byte]] s1 in
  let r := UtpHandlers.handleFinPacket (Samples.fin 103) true s2 in
  Utp.ackNr s2 = Some 102
  ∧ Utp.Packet.ackNr <$> Utp.sent s2 = [Some 100; Some 101; Some 102]
  ∧ Utp.ackNr r.1 = Some 103.
Proof.
  intros s1 s2 r.
  destruct (in_order_transfer_is_acknowledged_packet_by_packet Samples.bitmap
              {| Utp.o_type := Utp.READ; Utp.o_content := None;
                 Utp.o_remoteAddress := "0xabc";
                 Utp.o_rcvId := 258; Utp.o_sndId := 259; Utp.o_seqNr := 100;
                 Utp.o_ackNr := 0 |}
              100 7 [Samples.data 101 ["001"%byte]; Samples.data 102 ["002"%byte]]
              (Samples.fin 103) true)
    as (H1 & H2 & H3 & H4 & H5 & H6 & H7 & H8).
  - reflexivity.
  - reflexivity.
  - reflexivity.
  - split; [exact H4|]. split; [|exact H7].
    etrans; [exact (f_equal (fmap Utp.Packet.ackNr) H5)|].
    rewrite H1. reflexivity.
Defined.


Section state_packets.
Import Utp UtpHandlers.
Variable write : Writer → UtpSocket → Writer * UtpSocket.

(** X7: sendFinPacket sends a FIN that carries the socket's seqNr without
    using it up and records that number as finNr; the STATE packet that
    acknowledges this number then closes the socket, whatever its type and
    whether or not it has a writer, and nothing more is sent.  A READ socket
    ignores every other STATE packet. *)
Theorem fin_then_its_ack_closes_the_socket (s : UtpSocket) (w : option Writer) (a : Z) :
  let s1 := sendFinPacket s in
  sent s1 = sent s ++ [fin_of s]
  ∧ seqNr s1 = seqNr s
  ∧ finNr s1 = Some (seqNr s)
  ∧ handleStatePacket write (seqNr s) w s1 = (w, setState Closed s1, Ok ())
  ∧ (type s = READ → a ≠ seqNr s → handleStatePacket write a w s1 = (w, s1, Ok ())).
Proof.
  intros s1. split; [done|]. split; [done|]. split; [done|]. split.
  - unfold handleStatePacket. by rewrite decide_True.
  - intros Hty Ha. unfold handleStatePacket.
    rewrite decide_False by (simpl; congruence).
    by rewrite decide_True.
Qed.

Lemma length_filter_all {A} (P : A → Prop) `{∀ x, Decision (P x)} (l : list A) :
  length (filter P l) = length l ↔ Forall P l.
Proof.
  induction l as [|x l IH]; [by split|].
  rewrite filter_cons. destruct (decide (P x)) as [Hx|Hx]; simpl.
  - rewrite Forall_cons. split; [intros [= E]; split; [done|by apply IH] |].
    intros [_ Hl]. f_equal. by apply IH.
  - split.
    + intros E. pose proof (length_filter P l). lia.
    + intros [Hx' _]%Forall_cons. done.
Qed.

(** X8: a STATE packet with ackNr a that reaches a WRITE socket with a writer
    (and does not acknowledge a FIN) makes ackNrs the writer's data numbers
    up to a: the acknowledgement is cumulative.  When the writer has as many
    data numbers as chunks, the socket answers with its FIN exactly when a
    reaches every data number; otherwise it hands over to the writer's
    [write].  Without a writer the call throws and leaves the socket as it
    was. *)
Theorem state_packet_on_write_socket (a : Z) (wr : Writer) (s : UtpSocket) :
  type s = WRITE →
  finNr s ≠ Some a →
  length (dataNrs wr) = length (dataChunks wr) →
  let s0 := updateAckNrs a wr s in
  ackNrs s0 = Some <$> filter (λ n, n ≤ a) (fst <$> dataChunks wr)
  ∧ handleStatePacket write a (Some wr) s
    = (if decide (Forall (λ n, n ≤ a) (fst <$> dataChunks wr))
       then (Some wr, sendFinPacket s0, Ok ())
       else let '(wr', s') := write wr s0 in (Some wr', s', Ok ()))
  ∧ ∃ m, handleStatePacket write a None s = (None, s, Throw m).
Proof.
  intros Hty Hfin Hlen s0. split; [done|]. split.
  - unfold handleStatePacket.
    rewrite decide_False by congruence. rewrite decide_False by congruence.
    fold s0.
    assert (Hc : compare wr s0
                 = bool_decide (Forall (λ n, n ≤ a) (fst <$> dataChunks wr))).
    { unfold compare. change (ackNrs s0) with (Some <$> filter (λ n, n ≤ a) (fst <$> dataChunks wr)).
      rewrite bool_decide_eq_false_2.
      2:{ intros (x & Hx & _)%list_elem_of_fmap. done. }
      simpl. apply bool_decide_ext.
      rewrite length_fmap, Hlen, <- (length_fmap fst (dataChunks wr)).
      apply length_filter_all. }
    rewrite Hc. destruct (decide _) as [Hall|Hall].
    + by rewrite bool_decide_eq_true_2.
    + by rewrite bool_decide_eq_false_2.
  - unfold handleStatePacket.
    rewrite decide_False by congruence. rewrite decide_False by congruence.
    by eexists.
Qed.

End state_packets.




Lemma fin_then_its_ack_closes_the_socket_witness :
  let s1 := Utp.sendFinPacket Samples.reader_socket in
  UtpHandlers.handleStatePacket MoreSamples.write_nothing 100 None s1
    = (None, Utp.setState Utp.Closed s1, Ok ())
  ∧ UtpHandlers.handleStatePacket MoreSamples.write_nothing 99 None s1 = (None, s1, Ok ()).
Proof.
  intros s1.
  pose proof (fin_then_its_ack_closes_the_socket MoreSamples.write_nothing Samples.reader_socket None 99)
    as (_ & _ & _ & H1 & H2).
  split; [exact H1|]. apply H2; [reflexivity|]. simpl. lia.
Defined.

Lemma state_packet_on_write_socket_witness :
  UtpHandlers.handleStatePacket MoreSamples.write_nothing 2 (Some MoreSamples.two_chunks) MoreSamples.writer_socket
    = (Some MoreSamples.two_chunks,
       Utp.sendFinPacket (UtpHandlers.updateAckNrs 2 MoreSamples.two_chunks MoreSamples.writer_socket), Ok ())
  ∧ UtpHandlers.handleStatePacket MoreSamples.write_nothing 1 (Some MoreSamples.two_chunks) MoreSamples.writer_socket
    = (Some MoreSamples.two_chunks, UtpHandlers.updateAckNrs 1 MoreSamples.two_chunks MoreSamples.writer_socket, Ok ()).
Proof.
  split.
  - destruct (state_packet_on_write_socket MoreSamples.write_nothing 2 MoreSamples.two_chunks MoreSamples.writer_socket)
      as (_ & H & _); [reflexivity | discriminate | reflexivity |].
    rewrite H. apply decide_True. simpl. repeat constructor; lia.
  - destruct (state_packet_on_write_socket MoreSamples.write_nothing 1 MoreSamples.two_chunks MoreSamples.writer_socket)
      as (_ & H & _); [reflexivity | discriminate | reflexivity |].
    rewrite H. rewrite decide_False; [reflexivity|].
    simpl. intros Hall. apply Forall_cons in Hall as [_ Hall].
    apply Forall_cons in Hall as [Hall _]. lia.
Defined.

Section sequence_numbers.
Import Utp UtpHandlers.

Lemma send_spec (c : Send) (s : UtpSocket) :
  ∃ new,
    sent (send c s) = sent s ++ new
    ∧ seqNr (send c s) = seqNr s + (if is_data c then 1 else 0)
    ∧ Packet.seqNr <$> filter (λ p, is_data_packet p = true) new
      = (if is_data c then [seqNr s] else [])
    ∧ Forall (λ p, Packet.seqNr p = seqNr s) new.
Proof.
  destruct c as [pktId|bitmask| | |canSend payload]; simpl.
  - eexists [_]. split; [reflexivity|]. split; [lia|]. split; [done|]. by repeat constructor.
  - eexists [_]. split; [reflexivity|]. split; [lia|]. split; [done|]. by repeat constructor.
  - eexists [_]. split; [reflexivity|]. split; [lia|]. split; [done|]. by repeat constructor.
  - eexists [_]. split; [reflexivity|]. split; [lia|]. split; [done|]. by repeat constructor.
  - destruct canSend.
    + eexists [_]. split; [reflexivity|]. split; [done|]. split; [done|].
      by repeat constructor.
    + eexists [_; _]. split.
      { unfold sendDataPacket_gated. simpl. rewrite <- app_assoc. reflexivity. }
      split; [done|]. split; [done|]. by repeat constructor.
Qed.

Lemma seqZ_app_1 (m : Z) (n : nat) :
  seqZ m (Z.of_nat (S n)) = seqZ m (Z.of_nat n) ++ [m + Z.of_nat n].
Proof.
  replace (Z.of_nat (S n)) with (Z.of_nat n + 1) by lia.
  rewrite seqZ_app by lia. done.
Qed.

(** X9: whatever the socket is asked to send, in whatever order, only DATA
    packets use up sequence numbers: after the sends seqNr has grown by the
    number of DATA packets, the DATA packets sent carry consecutive seq_nrs
    from the old seqNr on, in the order they were sent, and every packet sent
    carries a seq_nr between the old and the new seqNr. *)
Theorem only_data_packets_use_sequence_numbers (cmds : list Send) (s : UtpSocket) :
  let s' := foldl (λ s c, send c s) s cmds in
  let n := length (filter (λ c, is_data c = true) cmds) in
  seqNr s' = seqNr s + Z.of_nat n
  ∧ ∃ new,
      sent s' = sent s ++ new
      ∧ Packet.seqNr <$> filter (λ p, is_data_packet p = true) new = seqZ (seqNr s) (Z.of_nat n)
      ∧ Forall (λ p, seqNr s ≤ Packet.seqNr p ≤ seqNr s') new.
Proof.
  induction cmds as [|c cmds IH] using rev_ind; intros s' n.
  - subst s' n. simpl. split; [lia|]. exists []. rewrite app_nil_r. done.
  - subst s' n. rewrite foldl_app, filter_app, length_app. simpl foldl.
    cbv zeta in IH. destruct IH as (Hseq & new & Hsent & Hdata & Hrange).
    set (s1 := foldl (λ s c, send c s) s cmds) in *.
    set (n1 := length (filter (λ c, is_data c = true) cmds)) in *.
    destruct (send_spec c s1) as (new' & Hsent' & Hseq' & Hdata' & Hall').
    rewrite filter_cons, filter_nil.
    assert (Hn : Z.of_nat (n1 + length (if decide (is_data c = true) then [c] else []))
                 = Z.of_nat n1 + (if is_data c then 1 else 0)).
    { destruct (is_data c); simpl; lia. }
    split; [rewrite Hseq', Hseq, Hn; lia|].
    exists (new ++ new'). split; [by rewrite Hsent', Hsent, app_assoc|]. split.
    + rewrite filter_app, fmap_app, Hdata, Hdata', Hseq.
      destruct (is_data c); simpl.
      * replace (n1 + 1)%nat with (S n1) by lia. by rewrite seqZ_app_1.
      * by rewrite Nat.add_0_r, app_nil_r.
    + apply Forall_app. split.
      * eapply Forall_impl; [exact Hrange|]. simpl. intros p Hp.
        rewrite Hseq'. destruct (is_data c); lia.
      * eapply Forall_impl; [exact Hall'|]. simpl. intros p Hp.
        rewrite Hp, Hseq', Hseq. destruct (is_data c); lia.
Qed.

End sequence_numbers.

Section empty_mask.
Import Utp UtpHandlers.
Variable bitmap : list Z.

(** X10: when none of the 32 seq_nrs after ackNr is recorded, the
    selective-ACK bitmask is four zero bytes, whatever the index table
    holds. *)
Theorem selective_ack_mask_is_zero_when_nothing_is_ahead (s : UtpSocket) (a : Z) :
  ackNr s = Some a →
  (∀ i : nat, (i < 32)%nat → JsArray.includes (ackNrs s) (a + 1 + Z.of_nat i) = false) →
  generateSelectiveAckBitMask bitmap s = Ok ["000"; "000"; "000"; "000"]%byte.
Proof.
  intros Ha Hnone. unfold generateSelectiveAckBitMask, selectiveAckWindow.
  assert (H : ∀ positions w, Forall (λ i, (i < 32)%nat) positions →
            foldl (window_step bitmap s) w positions = w).
  { induction positions as [|i positions IH]; intros w Hp; [done|].
    apply Forall_cons in Hp as [Hi Hp]. simpl. rewrite <- (IH w Hp) at 2. f_equal.
    unfold window_step. rewrite Ha, Hnone by done. done. }
  rewrite H; [reflexivity|].
  apply Forall_forall. intros i Hi%elem_of_seq. lia.
Qed.

End empty_mask.

Lemma selective_ack_mask_is_zero_when_nothing_is_ahead_witness :
  Utp.generateSelectiveAckBitMask Samples.bitmap
    (UtpHandlers.receive Samples.bitmap [Samples.data 1 []; Samples.data 2 []]
       Samples.reader_socket)
  = Ok ["000"; "000"; "000"; "000"]%byte.
Proof.
  apply (selective_ack_mask_is_zero_when_nothing_is_ahead Samples.bitmap _ 2).
  - reflexivity.
  - intros i Hi.
    assert (E : Utp.ackNrs (UtpHandlers.receive Samples.bitmap
                  [Samples.data 1 []; Samples.data 2 []] Samples.reader_socket)
                = [Some 1; Some 2]) by (vm_compute; reflexivity).
    rewrite E. apply bool_decide_eq_false.
    intros H. repeat (apply elem_of_cons in H as [H|H]; [injection H; lia|]).
    by apply elem_of_nil in H.
Defined.

Section retransmission.
Import Utp UtpHandlers.
Variable bitmap : list Z.

(** X11: a DATA packet whose seq_nr is already recorded, as after a
    retransmission, leaves the recorded seq_nrs exactly as they were: nothing
    is recorded twice. *)
Theorem retransmitted_data_packet_is_recorded_once (packet : Packet.t) (s : UtpSocket) :
  recorded_at_offsets (ackNrs s) →
  JsArray.includes (ackNrs s) (Packet.seqNr packet) = true →
  ackNrs (handleDataPacket bitmap packet s).1 = ackNrs s.
Proof.
  intros Hinv Hin. rewrite ackNrs_handleDataPacket, ackNrs_recordPacket, ackNrs_markConnected.
  apply bool_decide_eq_true, list_elem_of_lookup in Hin as [i Hi].
  destruct (Hinv i _ Hi) as (first & H0 & Hseq). rewrite H0.
  replace (Packet.seqNr packet - first) with (Z.of_nat i) by lia.
  unfold JsArray.set. destruct (Z.ltb_spec (Z.of_nat i) 0); [lia|].
  rewrite Nat2Z.id. pose proof (lookup_lt_Some _ _ _ Hi) as Hlt.
  destruct (Nat.ltb_spec i (length (ackNrs s))); [|lia].
  by apply list_insert_id.
Qed.

End retransmission.

Lemma retransmitted_data_packet_is_recorded_once_witness :
  let s := UtpHandlers.receive Samples.bitmap [Samples.data 1 []; Samples.data 2 []]
             Samples.reader_socket in
  Utp.ackNrs (Utp.handleDataPacket Samples.bitmap (Samples.data 2 []) s).1 = Utp.ackNrs s.
Proof.
  intros s.
  apply (retransmitted_data_packet_is_recorded_once Samples.bitmap (Samples.data 2 []) s).
  - apply receive_offsets. exact recorded_at_offsets_nil.
  - vm_compute. reflexivity.
Defined.

(** ** The content store read back *)
Section history_reads.
Import History HistoryReads.
Variable hash : bytes → bytes → bytes.
Variable historicalEpochs : list bytes.
Variable hexToBytes : string → result bytes.
Variable fromHexString : string → result bytes.
Variable toHexString : bytes → string.
Variable getContentKey : HistoryNetworkContentType → bytes → string.
Variable BlockHeaderWithProof_deserialize : bytes → result (bytes * option (list bytes)).
Variable fromRLPSerializedHeader : bytes → result Header.
Variable Block : Type.
Variable reassembleBlock : option bytes → option bytes → result Block.
Variable getBlockByHash : string → option Block.

Local Abbreviation validateHeader' :=
  (validateHeader hash historicalEpochs hexToBytes toHexString getContentKey
     BlockHeaderWithProof_deserialize fromRLPSerializedHeader).
Local Abbreviation addBlockBody' :=
  (addBlockBody hexToBytes fromHexString toHexString getContentKey
     BlockHeaderWithProof_deserialize
     Block (λ header body, reassembleBlock header (Some body)) getBlockByHash).
Local Abbreviation store' :=
  (store hash historicalEpochs hexToBytes fromHexString toHexString getContentKey
     BlockHeaderWithProof_deserialize fromRLPSerializedHeader Block
     (λ header body, reassembleBlock header (Some body)) getBlockByHash).
Local Abbreviation getBlockHeaderFromDB' :=
  (getBlockHeaderFromDB fromHexString getContentKey BlockHeaderWithProof_deserialize).
Local Abbreviation getBlockFromDB' :=
  (getBlockFromDB hexToBytes fromHexString getContentKey BlockHeaderWithProof_deserialize
     Block reassembleBlock).

(** What a header that passed validateHeader leaves in the state. *)
Lemma validateHeader_ok value contentHash st :
  (validateHeader' value contentHash st).2 = Ok () →
  ∃ headerBytes proof header h,
    BlockHeaderWithProof_deserialize value = Ok (headerBytes, proof)
    ∧ fromRLPSerializedHeader headerBytes = Ok header
    ∧ hexToBytes contentHash = Ok h
    ∧ (validateHeader' value contentHash st).1
      = put (getContentKey BlockHeader h) (toHexString value)
          (indexBlockhash (number header) (toHexString (header_hash header)) st).
Proof.
  unfold validateHeader.
  destruct (BlockHeaderWithProof_deserialize value) as [[headerBytes proof]|] eqn:Hd;
    [|done].
  destruct (fromRLPSerializedHeader headerBytes) as [header|] eqn:Hhd; [|done].
  set (checked := if (number header <? MERGE_BLOCK)%N then _ else _).
  destruct checked; [|done].
  destruct (hexToBytes contentHash) as [h|] eqn:Hh; [|done].
  intros _. by exists headerBytes, proof, header, h.
Qed.

(** X12: a header that validateHeader accepted and a body that is not empty,
    stored for the same block hash, are read back by getBlockFromDB: it
    reassembles the block from exactly the header bytes and the body that
    were stored, and the block index gives the header's hash for its number.
    The hex decoders are taken to read back what was written (the header is
    read with fromHexString, the body with hexToBytes), the header and the
    body to be written as strings that are not empty, and headers and bodies
    to have different content keys. *)
Theorem stored_block_is_read_back
    (value body : bytes) (hashKey : string) (h headerBytes : bytes)
    (proof : option (list bytes)) (header : Header) (st : State) :
  fromHexString (toHexString value) = Ok value →
  toHexString value ≠ ""%string →
  hexToBytes (toHexString body) = Ok body →
  toHexString body ≠ ""%string →
  getContentKey BlockHeader h ≠ getContentKey BlockBody h →
  hexToBytes hashKey = Ok h →
  BlockHeaderWithProof_deserialize value = Ok (headerBytes, proof) →
  fromRLPSerializedHeader headerBytes = Ok header →
  body ≠ [] →
  let r1 := validateHeader' value hashKey st in
  r1.2 = Ok () →
  let r2 := addBlockBody' body hashKey None r1.1 in
  r2.2 = Ok ()
  ∧ getBlockHeaderFromDB' h r2.1 = Ok (Some headerBytes)
  ∧ getBlockBodyBytes hexToBytes getContentKey h r2.1 = Ok (Some body)
  ∧ getBlockFromDB' h true r2.1 = reassembleBlock (Some headerBytes) (Some body)
  ∧ blockIndex r2.1 !! number header = Some (toHexString (header_hash header)).
Proof.
  intros Hcodec Hnev Hcodec' Hne Hkeys Hh Hd Hhd Hbody r1 Hok r2.
  destruct (validateHeader_ok value hashKey st Hok)
    as (hb & pr & hd & h' & Hd' & Hhd' & Hh' & Hst).
  fold r1 in Hst.
  assert (hb = headerBytes) as -> by congruence.
  assert (hd = header) as -> by congruence.
  assert (h' = h) as -> by congruence.
  assert (Hr2 : r2 = (put (getContentKey BlockBody h) (toHexString body) r1.1, Ok ())).
  { subst r2. by apply addBlockBody_always_stores. }
  rewrite Hr2, Hst. cbn [fst snd].
  assert (Hhdr : getBlockHeaderFromDB' h
                   (put (getContentKey BlockBody h) (toHexString body)
                      (put (getContentKey BlockHeader h) (toHexString value)
                         (indexBlockhash (number header)
                            (toHexString (header_hash header)) st)))
                 = Ok (Some headerBytes)).
  { unfold getBlockHeaderFromDB, retrieve, put, truthy. cbn [db].
    rewrite lookup_insert_ne by done. rewrite lookup_insert_eq.
    rewrite decide_False by apply Hnev.
    rewrite Hcodec. simpl. by rewrite Hd. }
  assert (Hbd : getBlockBodyBytes hexToBytes getContentKey h
                   (put (getContentKey BlockBody h) (toHexString body)
                      (put (getContentKey BlockHeader h) (toHexString value)
                         (indexBlockhash (number header)
                            (toHexString (header_hash header)) st)))
                 = Ok (Some body)).
  { unfold getBlockBodyBytes, retrieve, put, truthy. cbn [db].
    rewrite lookup_insert_eq. rewrite decide_False by apply Hne.
    by rewrite Hcodec'. }
  split; [done|]. split; [exact Hhdr|]. split; [exact Hbd|]. split.
  - unfold getBlockFromDB. rewrite Hhdr. simpl. rewrite Hbd. done.
  - unfold put, indexBlockhash. cbn [blockIndex]. apply lookup_insert_eq.
Qed.

(** X13: the header of a block from the merge on (number 15537393 or more) is
    stored and indexed without a look at its proof: none, or one that proves
    nothing, does as well as any. *)
Theorem post_merge_header_is_stored_unchecked
    (value : bytes) (contentHash : string) (h headerBytes : bytes)
    (proof : option (list bytes)) (header : Header) (st : State) :
  BlockHeaderWithProof_deserialize value = Ok (headerBytes, proof) →
  fromRLPSerializedHeader headerBytes = Ok header →
  (MERGE_BLOCK ≤ number header)%N →
  hexToBytes contentHash = Ok h →
  validateHeader' value contentHash st
  = (put (getContentKey BlockHeader h) (toHexString value)
       (indexBlockhash (number header) (toHexString (header_hash header)) st), Ok ()).
Proof.
  intros Hd Hhd Hpost Hh. unfold validateHeader. rewrite Hd, Hhd.
  destruct (N.ltb_spec (number header) MERGE_BLOCK); [lia|].
  by rewrite Hh.
Qed.

(** X14: what getBlockFromDB does when the block is not all there: without a
    stored header it throws "Block not found"; with a header but no body it
    throws "Block body not found" when the transactions are asked for, and
    otherwise reassembles the block from the header and an undefined body. *)
Theorem getBlockFromDB_of_an_incomplete_block
    (blockHash headerBytes : bytes) (includeTransactions : bool) (st : State) :
  (retrieve (getContentKey BlockHeader blockHash) st = None →
   getBlockFromDB' blockHash includeTransactions st = Throw "Block not found")
  ∧ (getBlockHeaderFromDB' blockHash st = Ok (Some headerBytes) →
     retrieve (getContentKey BlockBody blockHash) st = None →
     getBlockFromDB' blockHash includeTransactions st
     = if includeTransactions then Throw "Block body not found"
       else reassembleBlock (Some headerBytes) None).
Proof.
  split.
  - intros Hn. unfold getBlockFromDB, getBlockHeaderFromDB. by rewrite Hn.
  - intros Hh Hn. unfold getBlockFromDB. rewrite Hh. simpl.
    unfold getBlockBodyBytes. by rewrite Hn.
Qed.


Lemma validateHeader_keeps value contentHash st :
  events (validateHeader' value contentHash st).1 = events st
  ∧ gossip (validateHeader' value contentHash st).1 = gossip st
  ∧ peers (validateHeader' value contentHash st).1 = peers st.
Proof.
  unfold validateHeader.
  destruct (BlockHeaderWithProof_deserialize value) as [[headerBytes proof]|]; [|done].
  destruct (fromRLPSerializedHeader headerBytes) as [header|]; [|done].
  set (checked := if (number header <? MERGE_BLOCK)%N then _ else _).
  destruct checked; [|done].
  by destruct (hexToBytes contentHash).
Qed.

Lemma addBlockBody_cases value hashKey header st :
  match hexToBytes hashKey with
  | Throw m => addBlockBody' value hashKey header st = (st, Throw m)
  | Ok h =>
      addBlockBody' value hashKey header st
      = if decide (value = []) then (st, Ok ())
        else (put (getContentKey BlockBody h) (toHexString value) st, Ok ())
  end.
Proof.
  destruct (hexToBytes hashKey) as [h|m] eqn:Hh.
  - destruct (decide (value = [])) as [->|Hne].
    + unfold addBlockBody. by rewrite Hh.
    + by apply addBlockBody_always_stores.
  - unfold addBlockBody. by rewrite Hh.
Qed.

(** X15: [store] either throws and leaves the state as it was, which happens
    only for content other than a header whose hash key is not a hex string,
    or returns normally, and then it has emitted exactly one ContentAdded for
    the key, the type and the value, and has queued the key for gossip exactly
    when the routing table has a peer.  This holds whether or not the content
    was written. *)
Theorem store_announces_once_or_throws
    (contentType : HistoryNetworkContentType) (hashKey : string) (value : bytes)
    (st : State) :
  let r := store' contentType hashKey value st in
  match r.2 with
  | Ok _ =>
      events r.1 = events st ++ [ContentAdded hashKey contentType (toHexString value)]
      ∧ gossip r.1 = (if (0 <? peers st)%nat then gossip st ++ [(hashKey, contentType)]
                      else gossip st)
      ∧ (contentType = BlockHeader ∨ is_Ok (hexToBytes hashKey))
  | Throw _ => r.1 = st ∧ contentType ≠ BlockHeader ∧ is_Throw (hexToBytes hashKey)
  end.
Proof.
  intros r. subst r. unfold store. destruct contentType.
  - destruct (validateHeader_keeps value hashKey st) as (He & Hg & Hp).
    simpl. rewrite Hp. destruct (0 <? peers st)%nat; simpl; rewrite He, Hg; by auto.
  - pose proof (addBlockBody_cases value hashKey None st) as Hc.
    destruct (hexToBytes hashKey) as [h|m]; rewrite Hc.
    + destruct (decide (value = [])); simpl; destruct (0 <? peers st)%nat; simpl;
        (split; [done|]); (split; [done|]); right; by eexists.
    + simpl. split; [done|]. split; [done|]. by eexists.
  - destruct (hexToBytes hashKey) as [h|m]; simpl.
    + destruct (0 <? peers st)%nat; simpl; (split; [done|]); (split; [done|]); right;
        by eexists.
    + split; [done|]. split; [done|]. by eexists.
  - destruct (hexToBytes hashKey) as [h|m]; simpl.
    + destruct (0 <? peers st)%nat; simpl; (split; [done|]); (split; [done|]); right;
        by eexists.
    + split; [done|]. split; [done|]. by eexists.
Qed.

(** X16: an empty block body is not written, but [store] announces it all the
    same: the store is as it was, ContentAdded is emitted and the key is
    queued for gossip when there is a peer. *)
Theorem empty_body_is_announced_but_not_stored (hashKey : string) (h : bytes) (st : State) :
  hexToBytes hashKey = Ok h →
  let r := store' BlockBody hashKey [] st in
  r.2 = Ok ()
  ∧ db r.1 = db st
  ∧ events r.1 = events st ++ [ContentAdded hashKey BlockBody (toHexString [])]
  ∧ gossip r.1 = (if (0 <? peers st)%nat then gossip st ++ [(hashKey, BlockBody)]
                  else gossip st).
Proof.
  intros Hh r. subst r. unfold store.
  pose proof (addBlockBody_cases [] hashKey None st) as Hc. rewrite Hh in Hc.
  rewrite Hc. simpl. by destruct (0 <? peers st)%nat.
Qed.

(** X17: a receipt or an epoch accumulator is written under the content key
    of its type and hash, and findContentLocally gives the value back for the
    content key whose hex string is that key; for a content key with nothing
    stored findContentLocally gives the bytes of "0x".  A hash key that is no
    hex string makes [store] throw without a change. *)
Theorem other_content_is_stored_and_found
    (contentType : HistoryNetworkContentType) (hashKey : string) (value : bytes)
    (contentKey : bytes) (st : State) :
  contentType = Receipt ∨ contentType = EpochAccumulator →
  let r := store' contentType hashKey value st in
  (∀ h, hexToBytes hashKey = Ok h →
     r.2 = Ok ()
     ∧ db r.1 = <[getContentKey contentType h := toHexString value]> (db st)
     ∧ (toHexString contentKey = getContentKey contentType h →
        toHexString value ≠ ""%string →
        findContentLocally hexToBytes toHexString contentKey r.1
        = hexToBytes (toHexString value)))
  ∧ (∀ m, hexToBytes hashKey = Throw m → r = (st, Throw m))
  ∧ (retrieve (toHexString contentKey) st = None →
     findContentLocally hexToBytes toHexString contentKey st = hexToBytes "0x").
Proof.
  intros Hty r. split; [|split].
  - intros h Hh. subst r. unfold store.
    destruct Hty as [-> | ->]; rewrite Hh; simpl.
    all: destruct (0 <? peers st)%nat; simpl; (split; [done|]); (split; [done|]);
      intros Hkey Hne; unfold findContentLocally, retrieve, truthy; simpl;
      rewrite Hkey, lookup_insert_eq, decide_False by done; done.
  - intros m Hm. subst r. unfold store. destruct Hty as [-> | ->]; by rewrite Hm.
  - intros Hn. unfold findContentLocally. by rewrite Hn.
Qed.

End history_reads.

Section proof_then_header.
Import Merkle History HistoryReads.
Variable hash : bytes → bytes → bytes.
Variable uintToChunk : N → bytes.
Variable historicalEpochs : list bytes.
Variable hexToBytes : string → result bytes.
Variable toHexString : bytes → string.
Variable getContentKey : HistoryNetworkContentType → bytes → string.
Variable BlockHeaderWithProof_deserialize : bytes → result (bytes * option (list bytes)).
Variable fromRLPSerializedHeader : bytes → result Header.
Variable EpochAccumulator_deserialize : bytes → result (list HeaderRecord).

(** The proof generated for a block of a stored epoch accumulator is
    accepted for the block hash of the block's record. *)
Lemma generated_proof_verifies
    (blockNumber : N) (st : State) (epochHash : bytes) (epoch : string) (raw : bytes)
    (accumulator : list HeaderRecord) (r : HeaderRecord) (blockHashHex : string)
    (witnesses : list bytes) :
  epochRootByBlocknumber historicalEpochs blockNumber = Some epochHash →
  retrieve (getContentKey EpochAccumulator epochHash) st = Some epoch →
  hexToBytes epoch = Ok raw →
  EpochAccumulator_deserialize raw = Ok accumulator →
  hashTreeRoot hash uintToChunk accumulator = epochHash →
  (length accumulator ≤ N.to_nat 8192)%nat →
  accumulator !! N.to_nat (blockNumber mod 8192) = Some r →
  hexToBytes blockHashHex = Ok (blockHash r) →
  generateInclusionProof hash uintToChunk historicalEpochs hexToBytes getContentKey
    EpochAccumulator_deserialize blockNumber st = Ok witnesses →
  verifyInclusionProof hash historicalEpochs hexToBytes witnesses blockHashHex blockNumber
  = Ok true.
Proof.
  intros Hroot Hdb Hhex Hdec Htree Hlen Hrec Hleaf Hgen.
  destruct (createSingleProof_record hash uintToChunk accumulator blockNumber r Hrec Hlen)
    as (ws0 & Hproof).
  destruct (createSingleProof_accepted hash _ _ _ _ Hproof) as (Hl & node & Hnode & Hr).
  unfold generateInclusionProof in Hgen. rewrite Hroot, Hdb, Hhex in Hgen. simpl in Hgen.
  rewrite Hdec in Hgen. simpl in Hgen. rewrite Hproof in Hgen. simpl in Hgen.
  injection Hgen as <-.
  unfold verifyInclusionProof.
  unfold epochRootByBlocknumber in Hroot. rewrite Hroot, Hleaf.
  unfold createFromProof, bind. rewrite Hnode.
  rewrite decide_True; [done|]. rewrite Hr. exact Htree.
Qed.

(** With the block's record in the stored epoch accumulator, the proof is
    made. *)
Lemma generateInclusionProof_ok
    (blockNumber : N) (st : State) (epochHash : bytes) (epoch : string) (raw : bytes)
    (accumulator : list HeaderRecord) (r : HeaderRecord) :
  epochRootByBlocknumber historicalEpochs blockNumber = Some epochHash →
  retrieve (getContentKey EpochAccumulator epochHash) st = Some epoch →
  hexToBytes epoch = Ok raw →
  EpochAccumulator_deserialize raw = Ok accumulator →
  (length accumulator ≤ N.to_nat 8192)%nat →
  accumulator !! N.to_nat (blockNumber mod 8192) = Some r →
  is_Ok (generateInclusionProof hash uintToChunk historicalEpochs hexToBytes getContentKey
           EpochAccumulator_deserialize blockNumber st).
Proof.
  intros Hroot Hdb Hhex Hdec Hlen Hrec.
  destruct (createSingleProof_record hash uintToChunk accumulator blockNumber r Hrec Hlen)
    as (ws0 & Hproof).
  unfold generateInclusionProof. rewrite Hroot, Hdb, Hhex. simpl.
  rewrite Hdec. simpl. rewrite Hproof. by eexists.
Qed.

(** X18: a pre-merge header that comes with the proof that
    generateInclusionProof makes for its block number, offered under the
    block hash of the block's record in the stored epoch accumulator, passes
    validateHeader: the header is written under its content key and its hash
    is indexed under its number. *)
Theorem header_with_generated_proof_is_stored
    (value headerBytes : bytes) (header : Header) (hashKey : string) (st : State)
    (epochHash : bytes) (epoch : string) (raw : bytes)
    (accumulator : list HeaderRecord) (r : HeaderRecord) (witnesses : list bytes) :
  epochRootByBlocknumber historicalEpochs (number header) = Some epochHash →
  retrieve (getContentKey EpochAccumulator epochHash) st = Some epoch →
  hexToBytes epoch = Ok raw →
  EpochAccumulator_deserialize raw = Ok accumulator →
  hashTreeRoot hash uintToChunk accumulator = epochHash →
  (length accumulator ≤ N.to_nat 8192)%nat →
  accumulator !! N.to_nat (number header mod 8192) = Some r →
  hexToBytes hashKey = Ok (blockHash r) →
  generateInclusionProof hash uintToChunk historicalEpochs hexToBytes getContentKey
    EpochAccumulator_deserialize (number header) st = Ok witnesses →
  BlockHeaderWithProof_deserialize value = Ok (headerBytes, Some witnesses) →
  fromRLPSerializedHeader headerBytes = Ok header →
  validateHeader hash historicalEpochs hexToBytes toHexString getContentKey
    BlockHeaderWithProof_deserialize fromRLPSerializedHeader value hashKey st
  = (put (getContentKey BlockHeader (blockHash r)) (toHexString value)
       (indexBlockhash (number header) (toHexString (header_hash header)) st), Ok ()).
Proof.
  intros Hroot Hdb Hhex Hdec Htree Hlen Hrec Hleaf Hgen Hd Hhd.
  pose proof (generated_proof_verifies _ _ _ _ _ _ _ _ _
                Hroot Hdb Hhex Hdec Htree Hlen Hrec Hleaf Hgen) as Hv.
  unfold validateHeader. rewrite Hd, Hhd, Hv, Hleaf.
  by destruct (number header <? MERGE_BLOCK)%N.
Qed.

End proof_then_header.



Lemma header_with_generated_proof_is_stored_witness :
  (History.validateHeader Samples.pair_hash [Samples.epoch_root] Samples.hexToBytes
     Samples.toHexString Samples.getContentKey MoreSamples.header_with_proof_1 MoreSamples.header_1
     ["007"%byte] "h1" Samples.node).2 = Ok ().
Proof.
  destruct (generateInclusionProof_ok Samples.pair_hash Samples.chunk_of
              [Samples.epoch_root] Samples.hexToBytes Samples.getContentKey
              Samples.decode_accumulator 1 Samples.node Samples.epoch_root "epoch"
              (String.list_byte_of_string "epoch") Samples.accumulator
              {| History.blockHash := String.list_byte_of_string "h1";
                 History.totalDifficulty := 34 |})
    as [witnesses Hgen].
  { reflexivity. }
  { apply lookup_singleton_eq. }
  { reflexivity. }
  { reflexivity. }
  { simpl. lia. }
  { reflexivity. }
  rewrite (header_with_generated_proof_is_stored Samples.pair_hash Samples.chunk_of
             [Samples.epoch_root] Samples.hexToBytes Samples.toHexString
             Samples.getContentKey MoreSamples.header_with_proof_1 MoreSamples.header_1 Samples.decode_accumulator
             ["007"%byte] ["007"%byte]
             {| History.number := 1; History.header_hash := ["007"%byte] |}
             "h1" Samples.node Samples.epoch_root "epoch"
             (String.list_byte_of_string "epoch") Samples.accumulator
             {| History.blockHash := String.list_byte_of_string "h1";
                History.totalDifficulty := 34 |}
             witnesses).
  - reflexivity.
  - reflexivity.
  - apply lookup_singleton_eq.
  - reflexivity.
  - reflexivity.
  - unfold Samples.epoch_root. reflexivity.
  - simpl. lia.
  - reflexivity.
  - reflexivity.
  - exact Hgen.
  - unfold MoreSamples.header_with_proof_1. by rewrite Hgen.
  - reflexivity.
Defined.




Lemma stored_block_is_read_back_witness :
  let r1 := History.validateHeader Samples.pair_hash [] Samples.hexToBytes
              Samples.toHexString Samples.getContentKey Samples.header_without_proof
              MoreSamples.header_post_merge ["007"%byte] "h1" Samples.node in
  let r2 := History.addBlockBody Samples.hexToBytes Samples.hexToBytes
              Samples.toHexString Samples.getContentKey Samples.header_without_proof _
              (λ header body, MoreSamples.block_of_parts header (Some body)) MoreSamples.no_lookup
              ["009"%byte] "h1" None r1.1 in
  HistoryReads.getBlockFromDB Samples.hexToBytes Samples.hexToBytes Samples.getContentKey
    Samples.header_without_proof _ MoreSamples.block_of_parts
    (String.list_byte_of_string "h1") true r2.1
  = Ok (Some ["007"%byte], Some ["009"%byte]).
Proof.
  intros r1 r2.
  apply (stored_block_is_read_back Samples.pair_hash [] Samples.hexToBytes
           Samples.hexToBytes
           Samples.toHexString Samples.getContentKey Samples.header_without_proof
           MoreSamples.header_post_merge _ MoreSamples.block_of_parts MoreSamples.no_lookup
           ["007"%byte] ["009"%byte] "h1" (String.list_byte_of_string "h1") ["007"%byte]
           None {| History.number := 15537394; History.header_hash := ["007"%byte] |}
           Samples.node).
  - reflexivity.
  - discriminate.
  - reflexivity.
  - discriminate.
  - discriminate.
  - reflexivity.
  - reflexivity.
  - reflexivity.
  - discriminate.
  - reflexivity.
Defined.

Lemma post_merge_header_is_stored_unchecked_witness :
  (History.validateHeader Samples.pair_hash [] Samples.hexToBytes Samples.toHexString
     Samples.getContentKey Samples.header_without_proof MoreSamples.header_post_merge
     ["007"%byte] "h1" Samples.node).2 = Ok ().
Proof.
  rewrite (post_merge_header_is_stored_unchecked Samples.pair_hash [] Samples.hexToBytes
             Samples.toHexString Samples.getContentKey Samples.header_without_proof
             MoreSamples.header_post_merge ["007"%byte] "h1" (String.list_byte_of_string "h1")
             ["007"%byte] None
             {| History.number := 15537394; History.header_hash := ["007"%byte] |}
             Samples.node).
  - reflexivity.
  - reflexivity.
  - reflexivity.
  - unfold History.MERGE_BLOCK. simpl. lia.
  - reflexivity.
Defined.

Lemma getBlockFromDB_of_an_incomplete_block_witness :
  HistoryReads.getBlockFromDB Samples.hexToBytes Samples.hexToBytes Samples.getContentKey
    Samples.header_without_proof _ MoreSamples.block_of_parts
    (String.list_byte_of_string "h1") true Samples.node
  = Throw "Block not found".
Proof.
  apply (getBlockFromDB_of_an_incomplete_block Samples.hexToBytes Samples.hexToBytes
           Samples.getContentKey
           Samples.header_without_proof _ MoreSamples.block_of_parts
           (String.list_byte_of_string "h1") [] true Samples.node).
  apply lookup_singleton_ne. unfold Samples.getContentKey. discriminate.
Defined.

Lemma empty_body_is_announced_but_not_stored_witness :
  let r := History.store Samples.pair_hash [] Samples.hexToBytes Samples.hexToBytes
             Samples.toHexString
             Samples.getContentKey Samples.header_without_proof MoreSamples.header_post_merge _
             (λ header body, MoreSamples.block_of_parts header (Some body)) MoreSamples.no_lookup
             History.BlockBody "h1" [] Samples.node in
  r.2 = Ok ()
  ∧ History.db r.1 = History.db Samples.node
  ∧ History.events r.1 = [History.ContentAdded "h1" History.BlockBody ""]
  ∧ History.gossip r.1 = [("h1"%string, History.BlockBody)].
Proof.
  apply (empty_body_is_announced_but_not_stored Samples.pair_hash [] Samples.hexToBytes
           Samples.hexToBytes Samples.toHexString Samples.getContentKey Samples.header_without_proof
           MoreSamples.header_post_merge _ MoreSamples.block_of_parts MoreSamples.no_lookup "h1"
           (String.list_byte_of_string "h1") Samples.node).
  reflexivity.
Defined.

Lemma other_content_is_stored_and_found_witness :
  let r := History.store Samples.pair_hash [] Samples.hexToBytes Samples.hexToBytes
             Samples.toHexString
             Samples.getContentKey Samples.header_without_proof MoreSamples.header_post_merge _
             (λ header body, MoreSamples.block_of_parts header (Some body)) MoreSamples.no_lookup
             History.Receipt "h1" ["005"%byte] Samples.node in
  HistoryReads.findContentLocally Samples.hexToBytes Samples.toHexString
    (String.list_byte_of_string "02h1") r.1
  = Ok ["005"%byte].
Proof.
  intros r.
  destruct (other_content_is_stored_and_found Samples.pair_hash [] Samples.hexToBytes
              Samples.hexToBytes Samples.toHexString Samples.getContentKey Samples.header_without_proof
              MoreSamples.header_post_merge _ MoreSamples.block_of_parts MoreSamples.no_lookup
              History.Receipt "h1" ["005"%byte] (String.list_byte_of_string "02h1")
              Samples.node) as (H & _ & _).
  - by left.
  - destruct (H (String.list_byte_of_string "h1") eq_refl) as (_ & _ & Hfind).
    apply Hfind; [reflexivity | discriminate].
Defined.

(** ** Bootnodes, the earlier store and a refused DATA packet *)
Section bootstrap_properties.
Import Client ClientBootstrap.
Variable St : Type.
Variable addBootNode : NetworkId → string → St → St * result unit.
Variable errorMessage : string → NetworkId → string → string.

Local Abbreviation outcome := (ClientBootstrap.outcome St addBootNode errorMessage).


Lemma foldl_attempt_cons st network enr todo :
  foldl (attempt St addBootNode) st ((network, enr) :: todo)
  = foldl (attempt St addBootNode) (addBootNode network enr st).1 todo.
Proof. reflexivity. Qed.

Lemma all_added_app st todo1 todo2 :
  all_added St addBootNode st (todo1 ++ todo2)
  ↔ all_added St addBootNode st todo1
    ∧ all_added St addBootNode (foldl (attempt St addBootNode) st todo1) todo2.
Proof.
  revert st. induction todo1 as [|a todo1 IH]; intros st; simpl.
  - tauto.
  - rewrite IH. tauto.
Qed.

Lemma outcome_cons st network enr todo st' r :
  addBootNode network enr st = (st', Ok ()) →
  outcome st' todo r → outcome st ((network, enr) :: todo) r.
Proof.
  intros E. unfold outcome. destruct r.2 as [[]|msg].
  - intros [Hall ->]. rewrite foldl_attempt_cons. simpl. unfold attempt. simpl.
    rewrite E. done.
  - intros (tried & n & e & rest & m & -> & Hall & Ha & Hm).
    exists ((network, enr) :: tried), n, e, rest, m. split; [done|].
    rewrite foldl_attempt_cons. simpl. unfold attempt at 1. simpl. rewrite E. done.
Qed.

Lemma outcome_app st todo1 st' todo2 r :
  outcome st todo1 (st', Ok ()) →
  outcome st' todo2 r → outcome st (todo1 ++ todo2) r.
Proof.
  unfold outcome. simpl. intros [Hall1 ->]. destruct r.2 as [[]|msg].
  - intros [Hall2 ->]. rewrite foldl_app. split; [|done]. by apply all_added_app.
  - intros (tried & n & e & rest & m & -> & Hall2 & Ha & Hm).
    exists (todo1 ++ tried), n, e, rest, m. rewrite <- app_assoc. split; [done|].
    rewrite foldl_app. split; [|done]. by apply all_added_app.
Qed.

Lemma outcome_failed st todo1 todo2 st' msg :
  outcome st todo1 (st', Throw msg) → outcome st (todo1 ++ todo2) (st', Throw msg).
Proof.
  unfold outcome. simpl. intros (tried & n & e & rest & m & -> & Hall & Ha & Hm).
  exists tried, n, e, (rest ++ todo2), m. by rewrite <- app_assoc.
Qed.

Lemma addBootNodes_outcome network bootnodes : ∀ st,
  outcome st ((λ enr, (network, enr)) <$> bootnodes)
    (addBootNodes St addBootNode errorMessage network bootnodes st).
Proof.
  induction bootnodes as [|enr bootnodes IH]; intros st; simpl; [done|].
  destruct (addBootNode network enr st) as [st' [[]|m]] eqn:E.
  - eapply outcome_cons; [exact E | apply IH].
  - exists [], network, enr, ((λ enr, (network, enr)) <$> bootnodes), m. done.
Qed.

(** X19: [bootstrap] goes through the networks in order and, for each,
    through the bootnodes in order.  It returns normally exactly when every
    bootnode was added for every network, each call of addBootNode having
    returned normally, and the state is then the one these calls made.  When
    adding one fails it throws at once with the error made for that bootnode
    and network: every call before it had returned normally, the state is the
    one the failing call left, and neither the bootnodes after it nor any
    later network is tried. *)
Theorem bootstrap_stops_at_the_first_failure
    (networks : list NetworkId) (bootnodes : list string) (st : St) :
  let r := bootstrap St addBootNode errorMessage networks bootnodes st in
  let todo := attempts networks bootnodes in
  match r.2 with
  | Ok _ =>
      all_added St addBootNode st todo
      ∧ r.1 = foldl (attempt St addBootNode) st todo
  | Throw msg =>
      ¬ all_added St addBootNode st todo
      ∧ ∃ tried network enr rest m,
          todo = tried ++ (network, enr) :: rest
          ∧ all_added St addBootNode st tried
          ∧ addBootNode network enr (foldl (attempt St addBootNode) st tried)
            = (r.1, Throw m)
          ∧ msg = errorMessage enr network m
  end.
Proof.
  intros r todo.
  assert (H : outcome st todo r).
  { subst r todo. revert st.
    induction networks as [|network networks IH]; intros st; [done|].
    pose proof (addBootNodes_outcome network bootnodes st) as Hin.
    unfold attempts. simpl.
    destruct (addBootNodes _ _ _ network bootnodes st) as [st' [[]|msg]].
    - eapply outcome_app; [exact Hin | apply IH].
    - by apply outcome_failed. }
  unfold outcome in H. destruct r.2 as [[]|msg]; [exact H|].
  split; [|exact H].
  destruct H as (tried & n & e & rest & m & Htodo & Hall & Ha & Hm).
  rewrite Htodo. intros Hall'. apply all_added_app in Hall' as [_ [Hf _]].
  simpl in Hf. rewrite Ha in Hf. discriminate.
Qed.

End bootstrap_properties.

Section legacy_store.
Import HistoryLegacy.
Variable Aux Header Block : Type.
Variable headerEffects : Header → Aux → Aux * result unit.
Variable getHistoryNetworkContentId
  : Z → string → HistoryNetworkContentTypes → result string.
Variable fromHexString : string → result bytes.
Variable toHexString : bytes → string.
Variable fromRLPSerializedHeader : bytes → result Header.
Variable reassembleBlock : bytes → bytes → result Block.
Variable getBlockByHash : string → result (option Block).
Variable listeners : Event → result unit.

(** X20: the earlier [addContentToHistory] announces only what it wrote.
    Either it writes nothing and emits nothing, or it has written the value
    of a header or a body under the content id of the chain, the block hash
    and the type and has then emitted one ContentAdded for it, and what it
    returns is what the listeners of the event return.  It throws before
    anything is changed when the content id cannot be made, for receipts and
    for unknown content types; a throw after a change comes from a listener.
    What a header updates besides the store is left alone by every other
    type. *)
Theorem legacy_store_announces_what_it_wrote
    (chainId : Z) (contentType : HistoryNetworkContentTypes) (blockHash : string)
    (value : bytes) (st : State Aux) :
  let r := addContentToHistory Aux Header Block headerEffects getHistoryNetworkContentId
             fromHexString toHexString fromRLPSerializedHeader reassembleBlock
             getBlockByHash listeners chainId contentType blockHash value st in
  let e := ContentAdded blockHash contentType (toHexString value) in
  ((db Aux r.1 = db Aux st ∧ events Aux r.1 = events Aux st)
   ∨ (∃ contentId,
        getHistoryNetworkContentId chainId blockHash contentType = Ok contentId
        ∧ (contentType = BlockHeader ∨ contentType = BlockBody)
        ∧ db Aux r.1 = <[contentId := toHexString value]> (db Aux st)
        ∧ events Aux r.1 = events Aux st ++ [e]
        ∧ r.2 = listeners e))
  ∧ (is_Throw (getHistoryNetworkContentId chainId blockHash contentType)
     ∨ contentType = Receipt ∨ contentType = Unknown →
     is_Throw r.2 ∧ r.1 = st)
  ∧ (is_Throw r.2 → r.1 = st ∨ is_Throw (listeners e))
  ∧ (contentType ≠ BlockHeader → aux Aux r.1 = aux Aux st).
Proof.
  intros r e. subst r e. unfold addContentToHistory.
  destruct (getHistoryNetworkContentId chainId blockHash contentType)
    as [contentId|m] eqn:Hid.
  2:{ simpl. split; [by left|]. split; [intros _; split; [by eexists|done]|].
      split; [by left|done]. }
  destruct contentType.
  - destruct (fromRLPSerializedHeader value) as [header|]; simpl.
    + destruct (headerEffects header (aux Aux st)) as [aux' [[]|m]]; simpl.
      * split; [right; exists contentId; by auto|].
        split; [intros [[? ?]|[|]]; done|]. split; [by right|done].
      * split; [by left|]. split; [intros [[? ?]|[|]]; done|].
        split; [by intros [? ?]|done].
    + split; [by left|]. split; [intros [[? ?]|[|]]; done|].
      split; [by left|done].
  - destruct (validBlock _ _ _ _ _ _ _ _ _) as [[]|m]; simpl.
    + split; [right; exists contentId; by auto|].
      split; [intros [[? ?]|[|]]; done|]. split; [by right|done].
    + split; [by left|]. split; [intros [[? ?]|[|]]; done|].
      split; [by left|done].
    + split; [by left|]. split; [intros [[? ?]|[|]]; done|].
      split; [by left|done].
  - simpl. split; [by left|]. split; [intros _; split; [by eexists|done]|].
    split; [by left|done].
  - simpl. split; [by left|]. split; [intros _; split; [by eexists|done]|].
    split; [by left|done].
Qed.

End legacy_store.

Section refused_data.
Import Utp UtpHandlers.

(** X21: when the congestion controller refuses a DATA packet, the socket
    sends a RESET and then sends the DATA packet all the same: two packets go
    out with the same seq_nr, the RESET first, the state stays Reset and the
    seq_nr is used up.  When it lets the packet through, the DATA packet alone
    is sent and the state is Connected. *)
Theorem refused_data_packet_follows_its_reset (payload : bytes) (s : UtpSocket) :
  let refused := sendDataPacket_gated false payload s in
  let passed := sendDataPacket_gated true payload s in
  let dataPacket :=
    {| Packet.pType := ST_DATA; Packet.extension := 0;
       Packet.connectionId := rcvConnectionId s; Packet.seqNr := seqNr s;
       Packet.ackNr := ackNr s; Packet.bitmask := None;
       Packet.payload := Some payload |} in
  let resetPacket :=
    {| Packet.pType := ST_RESET; Packet.extension := 0;
       Packet.connectionId := rcvConnectionId s; Packet.seqNr := seqNr s;
       Packet.ackNr := ackNr s; Packet.bitmask := None;
       Packet.payload := None |} in
  sent refused = sent s ++ [resetPacket; dataPacket]
  ∧ state refused = Some Reset
  ∧ seqNr refused = seqNr s + 1
  ∧ sent passed = sent s ++ [dataPacket]
  ∧ state passed = Some Connected
  ∧ seqNr passed = seqNr s + 1
  ∧ passed = sendDataPacket payload s.
Proof.
  intros refused passed dataPacket resetPacket.
  split; [|done].
  subst refused. unfold sendDataPacket_gated. simpl. by rewrite <- app_assoc.
Qed.

End refused_data.


Lemma legacy_store_announces_what_it_wrote_witness :
  let st := HistoryLegacy.mkState unit ∅ [] () in
  (HistoryLegacy.addContentToHistory unit unit unit MoreSamples.no_effects
     MoreSamples.content_id Samples.hexToBytes Samples.toHexString MoreSamples.any_header
     MoreSamples.any_block MoreSamples.block_not_found MoreSamples.quiet_listeners
     1 HistoryLegacy.Receipt "h1" [] st).1 = st.
Proof.
  intros st.
  apply (legacy_store_announces_what_it_wrote unit unit unit MoreSamples.no_effects
           MoreSamples.content_id Samples.hexToBytes Samples.toHexString
           MoreSamples.any_header MoreSamples.any_block MoreSamples.block_not_found
           MoreSamples.quiet_listeners 1 HistoryLegacy.Receipt "h1" [] st).
  right. by left.
Defined.

(** ** Packets out of order *)
Section reordering.
Import Utp UtpHandlers.
Variable bitmap : list Z.


Lemma set_lookup_full {A} (a : list (option A)) (k : nat) (v : A) (i : nat) :
  JsArray.set a (Z.of_nat k) v !! i
  = if decide (i = k) then Some (Some v)
    else if decide (i < length a)%nat then a !! i
    else if decide (i < k)%nat then Some None else None.
Proof.
  unfold JsArray.set. destruct (Z.ltb_spec (Z.of_nat k) 0) as [|_]; [lia|].
  rewrite Nat2Z.id.
  destruct (Nat.ltb_spec k (length a)) as [Hin|Hout].
  - destruct (decide (i = k)) as [->|Hne].
    + by rewrite list_lookup_insert_eq.
    + rewrite list_lookup_insert_ne by done.
      destruct (decide (i < length a)%nat); [done|].
      rewrite lookup_ge_None_2 by lia. destruct (decide (i < k)%nat); [lia|done].
  - destruct (decide (i = k)) as [->|Hne].
    + rewrite lookup_app_r by lia. rewrite lookup_app_r by (rewrite length_replicate; lia).
      rewrite length_replicate. replace (_ - _ - _)%nat with 0%nat by lia. done.
    + destruct (decide (i < length a)%nat) as [Hi|Hi].
      * by rewrite lookup_app_l.
      * rewrite lookup_app_r by lia.
        destruct (decide (i < k)%nat) as [Hik|Hik].
        -- rewrite lookup_app_l by (rewrite length_replicate; lia).
           by rewrite lookup_replicate_2 by lia.
        -- rewrite lookup_app_r by (rewrite length_replicate; lia).
           rewrite length_replicate.
           destruct (i - length a - (k - length a))%nat eqn:E; [lia|]. done.
Qed.

Lemma length_set {A} (a : list (option A)) (k : nat) (v : A) :
  length (JsArray.set a (Z.of_nat k) v) = (length a `max` S k)%nat.
Proof.
  unfold JsArray.set. destruct (Z.ltb_spec (Z.of_nat k) 0) as [|_]; [lia|].
  rewrite Nat2Z.id.
  destruct (Nat.ltb_spec k (length a)) as [Hin|Hout].
  - rewrite length_insert. lia.
  - rewrite !length_app, length_replicate. simpl. lia.
Qed.

Lemma last_lookup' {A} (l : list A) : last l = l !! pred (length l).
Proof. apply last_lookup. Qed.

Lemma record_from_recordPacket first packet s :
  record_from first (ackNrs s) →
  record_from first (ackNrs (recordPacket packet s))
  ∧ (∀ x, Some x ∈ ackNrs s → Some x ∈ ackNrs (recordPacket packet s))
  ∧ (first ≤ Packet.seqNr packet → Some (Packet.seqNr packet) ∈ ackNrs (recordPacket packet s)).
Proof.
  intros (H0 & Hoff & Hlast). rewrite ackNrs_recordPacket.
  assert (Hg : JsArray.get (ackNrs s) 0 = Some first) by (by rewrite get_0_lookup, H0).
  rewrite Hg.
  destruct (Z.ltb_spec (Packet.seqNr packet - first) 0) as [Hneg|Hpos].
  { rewrite set_negative by done. split; [done|]. split; [done|]. lia. }
  set (k := Z.to_nat (Packet.seqNr packet - first)).
  replace (Packet.seqNr packet - first) with (Z.of_nat k) by lia.
  assert (Hseq : Packet.seqNr packet = first + Z.of_nat k) by lia.
  split; [split; [|split]|split].
  - rewrite set_lookup_full. destruct (decide (0%nat = k)) as [<-|_].
    + do 2 f_equal. lia.
    + destruct (decide (0 < length (ackNrs s))%nat); [done|].
      apply lookup_lt_Some in H0. lia.
  - intros i x. rewrite set_lookup_full.
    destruct (decide (i = k)) as [->|_]; [intros [= <-]; lia|].
    destruct (decide (i < length (ackNrs s))%nat); [apply Hoff|].
    by destruct (decide (i < k)%nat).
  - intros o. rewrite last_lookup', length_set, set_lookup_full.
    destruct (decide (_ = k)) as [_|Hne]; [intros [= <-]; by eexists|].
    destruct (decide (_ < length (ackNrs s))%nat) as [Hlt|Hge].
    + replace (pred (length (ackNrs s) `max` S k)) with (pred (length (ackNrs s))) by lia.
      rewrite <- last_lookup'. apply Hlast.
    + destruct (decide (_ < k)%nat); [lia|done].
  - intros x Hx. apply list_elem_of_lookup in Hx as [i Hi].
    apply list_elem_of_lookup. exists i. rewrite set_lookup_full.
    destruct (decide (i = k)) as [->|_].
    + rewrite (Hoff _ _ Hi). by rewrite Hseq.
    + apply lookup_lt_Some in Hi as Hlt. by rewrite decide_True.
  - intros _. apply list_elem_of_lookup. exists k. rewrite set_lookup_full.
    by rewrite decide_True.
Qed.

Lemma record_from_receive first packets : ∀ s,
  record_from first (ackNrs s) →
  record_from first (ackNrs (receive bitmap packets s))
  ∧ (∀ x, Some x ∈ ackNrs s → Some x ∈ ackNrs (receive bitmap packets s))
  ∧ (∀ p, p ∈ packets → first ≤ Packet.seqNr p →
       Some (Packet.seqNr p) ∈ ackNrs (receive bitmap packets s)).
Proof.
  induction packets as [|q packets IH]; intros s Hs.
  - split; [done|]. split; [done|]. intros p Hp. by apply elem_of_nil in Hp.
  - destruct (record_from_recordPacket first q (markConnected s)) as (H1 & H2 & H3).
    { by rewrite ackNrs_markConnected. }
    rewrite <- (ackNrs_handleDataPacket bitmap) in H1, H2, H3.
    rewrite ackNrs_markConnected in H2.
    destruct (IH _ H1) as (I1 & I2 & I3).
    split; [exact I1|]. split; [intros x Hx; by apply I2, H2|].
    intros p Hp Hle. apply elem_of_cons in Hp as [->|Hp].
    + by apply I2, H3.
    + by apply I3.
Qed.

(** A record that holds exactly the seq_nrs [first .. first + k - 1]. *)
Lemma record_from_complete first (k : nat) a :
  record_from first a →
  (∀ x, Some x ∈ a ↔ first ≤ x < first + Z.of_nat k) →
  a = run_of first k.
Proof.
  intros (H0 & Hoff & Hlast) Hall.
  assert (Hat : ∀ i : nat, (i < k)%nat → a !! i = Some (Some (first + Z.of_nat i))).
  { intros i Hi.
    assert (Hin : Some (first + Z.of_nat i) ∈ a) by (apply Hall; lia).
    apply list_elem_of_lookup in Hin as [j Hj].
    pose proof (Hoff _ _ Hj). assert (j = i) as -> by lia. exact Hj. }
  assert (Hlen : length a = k).
  { destruct (decide (length a ≤ k)%nat) as [Hle|Hgt].
    - destruct (decide (length a < k)%nat) as [Hlt|]; [|lia].
      specialize (Hat (length a) Hlt). apply lookup_lt_Some in Hat. lia.
    - destruct (last a) as [o|] eqn:El.
      + destruct (Hlast o eq_refl) as [x ->].
        rewrite last_lookup' in El. pose proof (Hoff _ _ El) as Hx.
        assert (Hin : Some x ∈ a) by (apply list_elem_of_lookup; by eexists).
        apply Hall in Hin. lia.
      + apply last_None in El. subst a. simpl in Hgt. lia. }
  apply list_eq. intros i. unfold run_of.
  destruct (decide (i < k)%nat) as [Hi|Hi].
  - rewrite Hat by done. rewrite list_lookup_fmap, lookup_seq_lt by done. done.
  - rewrite lookup_ge_None_2 by lia.
    rewrite lookup_ge_None_2; [done|]. rewrite length_fmap, length_seq. lia.
Qed.

(** X22: the order in which DATA packets arrive does not matter for what is
    recorded, as long as the packet with the lowest seq_nr comes first: when
    the seq_nrs of the packets handled by a socket made by the constructor,
    retransmissions included, are exactly the k numbers from the first
    packet's seq_nr on, ackNrs ends as these k numbers in ascending order,
    without a hole. *)
Theorem reordered_packets_are_all_recorded
    (options : UtpSocketOptions) (p0 : Packet.t) (rest : list Packet.t) (k : nat) :
  (∀ x, x ∈ Packet.seqNr <$> (p0 :: rest)
        ↔ Packet.seqNr p0 ≤ x < Packet.seqNr p0 + Z.of_nat k) →
  ackNrs (receive bitmap (p0 :: rest) (constructor options))
  = run_of (Packet.seqNr p0) k.
Proof.
  intros Hseqs. set (first := Packet.seqNr p0) in *.
  set (s1 := (handleDataPacket bitmap p0 (constructor options)).1).
  assert (Ha1 : ackNrs s1 = [Some first]).
  { by apply (handleDataPacket_first bitmap p0 (constructor options)). }
  assert (H1 : record_from first (ackNrs s1)).
  { rewrite Ha1. split; [done|]. split.
    - intros [|i] x Hi; simpl in Hi; [injection Hi as <-; lia | done].
    - intros o [= <-]. by eexists. }
  destruct (record_from_receive first rest s1 H1) as (I1 & I2 & I3).
  change (receive bitmap (p0 :: rest) (constructor options)) with (receive bitmap rest s1).
  apply record_from_complete; [exact I1|].
  intros x. split.
  - intros Hx. apply Hseqs.
    destruct (receive_recorded_from bitmap rest s1 x Hx) as [Hin|Hin].
    + rewrite Ha1 in Hin. apply list_elem_of_singleton in Hin as [= ->].
      rewrite fmap_cons. apply list_elem_of_here.
    + rewrite fmap_cons. by apply list_elem_of_further.
  - intros Hx. apply Hseqs in Hx as Hin. rewrite fmap_cons in Hin.
    apply elem_of_cons in Hin as [->|Hin].
    + apply I2. rewrite Ha1. apply list_elem_of_here.
    + apply list_elem_of_fmap in Hin as (p & -> & Hp). apply I3; [done|]. lia.
Qed.

End reordering.

Lemma reordered_packets_are_all_recorded_witness :
  Utp.ackNrs
    (UtpHandlers.receive Samples.bitmap
       [Samples.data 5 []; Samples.data 8 []; Samples.data 6 []; Samples.data 8 [];
        Samples.data 7 []]
       (Utp.constructor
          {| Utp.o_type := Utp.READ; Utp.o_content := None; Utp.o_remoteAddress := "0xabc";
             Utp.o_rcvId := 258; Utp.o_sndId := 259; Utp.o_seqNr := 100;
             Utp.o_ackNr := 0 |}))
  = [Some 5; Some 6; Some 7; Some 8].
Proof.
  apply (reordered_packets_are_all_recorded Samples.bitmap _ (Samples.data 5 [])
           [Samples.data 8 []; Samples.data 6 []; Samples.data 8 []; Samples.data 7 []] 4).
  intros x. simpl. rewrite !elem_of_cons, elem_of_nil. lia.
Defined.

(** ** A header with an altered proof *)
Section tampered_header.
Import Merkle History HistoryReads.
Variable hash : bytes → bytes → bytes.
Variable uintToChunk : N → bytes.
Variable historicalEpochs : list bytes.
Variable hexToBytes : string → result bytes.
Variable toHexString : bytes → string.
Variable getContentKey : HistoryNetworkContentType → bytes → string.
Variable BlockHeaderWithProof_deserialize : bytes → result (bytes * option (list bytes)).
Variable fromRLPSerializedHeader : bytes → result Header.
Variable EpochAccumulator_deserialize : bytes → result (list HeaderRecord).

(** The proof made for a block of a stored epoch accumulator: 15 witnesses,
    the first of which is the total difficulty of the block's record. *)
Lemma generateInclusionProof_shape
    (blockNumber : N) (st : State) (epochHash : bytes) (epoch : string) (raw : bytes)
    (accumulator : list HeaderRecord) (r : HeaderRecord) :
  epochRootByBlocknumber historicalEpochs blockNumber = Some epochHash →
  retrieve (getContentKey EpochAccumulator epochHash) st = Some epoch →
  hexToBytes epoch = Ok raw →
  EpochAccumulator_deserialize raw = Ok accumulator →
  (length accumulator ≤ N.to_nat 8192)%nat →
  accumulator !! N.to_nat (blockNumber mod 8192) = Some r →
  ∃ ws,
    generateInclusionProof hash uintToChunk historicalEpochs hexToBytes getContentKey
      EpochAccumulator_deserialize blockNumber st
    = Ok (uintToChunk (totalDifficulty r) :: ws)
    ∧ length (uintToChunk (totalDifficulty r) :: ws) = 15%nat.
Proof.
  intros Hroot Hdb Hhex Hdec Hlen Hrec.
  destruct (createSingleProof_record hash uintToChunk accumulator blockNumber r Hrec Hlen)
    as (ws0 & Hproof).
  destruct (createSingleProof_accepted hash _ _ _ _ Hproof) as (Hl & _).
  rewrite blockNumberToGindex_depth in Hl.
  exists ws0. split; [|exact Hl].
  unfold generateInclusionProof. rewrite Hroot, Hdb, Hhex. simpl.
  rewrite Hdec. simpl. rewrite Hproof. done.
Qed.

(** X23: a pre-merge header that carries the proof made by
    generateInclusionProof with any one byte of any witness changed is
    refused by validateHeader, which throws "Received block header with
    invalid proof" and leaves the store and the block index as they were,
    unless the changed proof holds a second preimage of the hash at a node
    on the way of the generated proof.  Nothing is asked of the hash. *)
Theorem header_with_tampered_proof_is_refused
    (value headerBytes : bytes) (header : Header) (hashKey : string) (st : State)
    (epochHash : bytes) (epoch : string) (raw : bytes)
    (accumulator : list HeaderRecord) (r : HeaderRecord) (witnesses : list bytes)
    (i j : nat) (w : bytes) (b0 b : byte) :
  (number header < MERGE_BLOCK)%N →
  epochRootByBlocknumber historicalEpochs (number header) = Some epochHash →
  retrieve (getContentKey EpochAccumulator epochHash) st = Some epoch →
  hexToBytes epoch = Ok raw →
  EpochAccumulator_deserialize raw = Ok accumulator →
  hashTreeRoot hash uintToChunk accumulator = epochHash →
  (length accumulator ≤ N.to_nat 8192)%nat →
  accumulator !! N.to_nat (number header mod 8192) = Some r →
  hexToBytes hashKey = Ok (blockHash r) →
  generateInclusionProof hash uintToChunk historicalEpochs hexToBytes getContentKey
    EpochAccumulator_deserialize (number header) st = Ok witnesses →
  witnesses !! i = Some w → w !! j = Some b0 → b ≠ b0 →
  BlockHeaderWithProof_deserialize value = Ok (headerBytes, Some (tamper witnesses i j b)) →
  fromRLPSerializedHeader headerBytes = Ok header →
  validateHeader hash historicalEpochs hexToBytes toHexString getContentKey
    BlockHeaderWithProof_deserialize fromRLPSerializedHeader value hashKey st
  = (st, Throw "Received block header with invalid proof")
  ∨ second_preimage hash (blockNumberToGindex (number header)) (blockHash r)
      witnesses (tamper witnesses i j b).
Proof.
  intros Hpre Hroot Hdb Hhex Hdec Htree Hlen Hrec Hleaf Hgen Hw Hb Hne Hd Hhd.
  pose proof (generated_proof_verifies hash uintToChunk historicalEpochs hexToBytes
                getContentKey EpochAccumulator_deserialize _ _ _ _ _ _ _ _ _
                Hroot Hdb Hhex Hdec Htree Hlen Hrec Hleaf Hgen) as Hv.
  destruct (generateInclusionProof_shape _ _ _ _ _ _ _ Hroot Hdb Hhex Hdec Hlen Hrec)
    as (ws & Hgen' & Hl).
  rewrite Hgen in Hgen'. injection Hgen' as Hws. rewrite <- Hws in Hl.
  destruct (verify_other_witnesses hash historicalEpochs hexToBytes witnesses
              (tamper witnesses i j b) hashKey (blockHash r) (number header))
    as [[m Hm]|Hpre'].
  - unfold epochRootByBlocknumber in Hroot. by rewrite Hroot.
  - exact Hleaf.
  - exact Hv.
  - exact Hl.
  - by rewrite tamper_length.
  - by eapply tamper_changes.
  - left. unfold validateHeader. rewrite Hd, Hhd, Hm.
    destruct (N.ltb_spec (number header) MERGE_BLOCK); [done|lia].
  - by right.
Qed.

End tampered_header.

Lemma header_with_tampered_proof_is_refused_witness :
  History.validateHeader Samples.pair_hash [Samples.epoch_root] Samples.hexToBytes
    Samples.toHexString Samples.getContentKey MoreSamples.header_with_tampered_proof_1
    MoreSamples.header_1 ["007"%byte] "h1" Samples.node
  = (Samples.node, Throw "Received block header with invalid proof").
Proof.
  destruct (generateInclusionProof_shape Samples.pair_hash Samples.chunk_of
              [Samples.epoch_root] Samples.hexToBytes Samples.getContentKey
              Samples.decode_accumulator 1 Samples.node Samples.epoch_root "epoch"
              (String.list_byte_of_string "epoch") Samples.accumulator
              {| History.blockHash := String.list_byte_of_string "h1";
                 History.totalDifficulty := 34 |})
    as (ws & Hgen & _).
  { reflexivity. }
  { apply lookup_singleton_eq. }
  { reflexivity. }
  { reflexivity. }
  { simpl. lia. }
  { reflexivity. }
  destruct (header_with_tampered_proof_is_refused Samples.pair_hash Samples.chunk_of
           [Samples.epoch_root] Samples.hexToBytes Samples.toHexString
           Samples.getContentKey MoreSamples.header_with_tampered_proof_1 MoreSamples.header_1
           Samples.decode_accumulator
           ["007"%byte] ["007"%byte]
           {| History.number := 1; History.header_hash := ["007"%byte] |}
           "h1" Samples.node Samples.epoch_root "epoch"
           (String.list_byte_of_string "epoch") Samples.accumulator
           {| History.blockHash := String.list_byte_of_string "h1";
              History.totalDifficulty := 34 |}
           (Samples.chunk_of 34 :: ws) 0%nat 0%nat ["034"%byte] "034"%byte "000"%byte)
    as [Hrefused|Hpre].
  - reflexivity.
  - reflexivity.
  - apply lookup_singleton_eq.
  - reflexivity.
  - reflexivity.
  - unfold Samples.epoch_root. reflexivity.
  - simpl. lia.
  - reflexivity.
  - reflexivity.
  - exact Hgen.
  - reflexivity.
  - reflexivity.
  - discriminate.
  - unfold MoreSamples.header_with_tampered_proof_1. by rewrite Hgen.
  - reflexivity.
  - exact Hrefused.
  - exfalso. revert Hpre.
    apply collision_free_no_second_preimage, pair_hash_collision_free.
Defined.

(** ** ackNr when packets come out of order *)
Section contiguous.
Import Utp UtpHandlers.
Variable bitmap : list Z.

Lemma record_from_offsets first a : record_from first a → recorded_at_offsets a.
Proof.
  intros (H0 & Hoff & _) i x Hi. exists first. split; [by rewrite get_0_lookup, H0|].
  by apply Hoff.
Qed.

Lemma includes_elem (a : list (option Z)) (x : Z) :
  JsArray.includes a x = true ↔ Some x ∈ a.
Proof. unfold JsArray.includes. apply bool_decide_eq_true. Qed.

Lemma length_recordPacket first packet s :
  record_from first (ackNrs s) →
  (length (ackNrs s) ≤ length (ackNrs (recordPacket packet s)))%nat.
Proof.
  intros (H0 & _). rewrite ackNrs_recordPacket, get_0_lookup, H0. simpl.
  destruct (Z.ltb_spec (Packet.seqNr packet - first) 0) as [Hneg|Hpos].
  { by rewrite set_negative. }
  replace (Packet.seqNr packet - first)
    with (Z.of_nat (Z.to_nat (Packet.seqNr packet - first))) by lia.
  rewrite length_set. lia.
Qed.

Lemma handleDataPacket_unexpected packet s :
  isExpected packet (markConnected s) = false →
  ackNr (handleDataPacket bitmap packet s).1 = ackNr s.
Proof.
  intros He. unfold handleDataPacket. rewrite He.
  destruct (generateSelectiveAckBitMask _ _);
    change (ackNr (recordPacket packet (markConnected s)) = ackNr s);
    by rewrite ackNr_recordPacket, ackNr_markConnected.
Qed.

(** Once more than one seq_nr is recorded and ackNr is the end of the run
    from the first one, every further DATA packet keeps it so. *)
Lemma handleDataPacket_contiguous first m packet s :
  record_from first (ackNrs s) →
  (1 < length (ackNrs s))%nat →
  ackNr s = Some m →
  contiguous_up_to first m (ackNrs s) →
  let s' := (handleDataPacket bitmap packet s).1 in
  record_from first (ackNrs s')
  ∧ (1 < length (ackNrs s'))%nat
  ∧ ∃ m', ackNr s' = Some m' ∧ contiguous_up_to first m' (ackNrs s').
Proof.
  intros Hrec Hlen Hack (Hle & Hrun & Hend) s'.
  destruct (record_from_recordPacket first packet (markConnected s)) as (R1 & R2 & R3).
  { by rewrite ackNrs_markConnected. }
  pose proof (length_recordPacket first packet (markConnected s)) as Hl.
  rewrite ackNrs_markConnected in Hl, R2. specialize (Hl Hrec).
  pose proof (ackNrs_handleDataPacket bitmap packet s) as Ha. fold s' in Ha.
  rewrite <- Ha in R1, R2, R3, Hl.
  split; [exact R1|]. split; [lia|].
  destruct (isExpected packet (markConnected s)) eqn:He.
  - assert (Hseq : Packet.seqNr packet = m + 1).
    { unfold isExpected in He. rewrite ackNrs_markConnected, ackNr_markConnected, Hack in He.
      destruct (Nat.ltb_spec 1 (length (ackNrs s))); [|lia]. apply Z.eqb_eq in He. lia. }
    destruct (handleDataPacket_expected bitmap packet s He) as [_ Hm]. fold s' in Hm.
    destruct (lastInOrder_run packet (recordPacket packet (markConnected s)) first)
      as (m' & Hm' & Hge & Hrun' & Hend').
    + rewrite <- Ha. by eapply record_from_offsets.
    + rewrite <- Ha, get_0_lookup. destruct R1 as (-> & _). done.
    + lia.
    + rewrite <- Ha.
      replace (Packet.seqNr packet - first)
        with (Z.of_nat (Z.to_nat (Packet.seqNr packet - first))) by lia.
      rewrite get_nonneg.
      assert (Hin : Some (Packet.seqNr packet) ∈ ackNrs s') by (apply R3; lia).
      apply list_elem_of_lookup in Hin as [i Hi].
      destruct R1 as (_ & Hoff & _). pose proof (Hoff _ _ Hi) as Hx.
      replace (Z.to_nat (Packet.seqNr packet - first)) with i by lia. by rewrite Hi.
    + rewrite <- Ha in Hrun', Hend'. exists m'. split; [by rewrite Hm|].
      split; [lia|]. split; [|exact Hend'].
      intros x Hx. destruct (decide (x ≤ m)) as [Hxm|Hxm].
      * apply includes_elem, R2, includes_elem, Hrun. lia.
      * apply Hrun'. lia.
  - exists m. split; [unfold s'; by rewrite (handleDataPacket_unexpected packet s He)|].
    split; [done|]. split.
    + intros x Hx. by apply includes_elem, R2, includes_elem, Hrun.
    + apply not_true_is_false. intros Hin%includes_elem.
      rewrite Ha in Hin. apply list_elem_of_lookup in Hin as [i Hi].
      destruct (recordPacket_recorded_from packet (markConnected s) i (m + 1)) as [H|H].
      * by rewrite Hi.
      * rewrite ackNrs_markConnected in H.
        apply not_true_iff_false in Hend. apply Hend, includes_lookup. by exists i.
      * apply isExpected_false_iff in He as [_ Hne]. apply Hne. rewrite Hack. f_equal. lia.
Qed.

Lemma receive_contiguous first packets : ∀ s m,
  record_from first (ackNrs s) →
  (1 < length (ackNrs s))%nat →
  ackNr s = Some m →
  contiguous_up_to first m (ackNrs s) →
  ∃ m', ackNr (receive bitmap packets s) = Some m'
        ∧ contiguous_up_to first m' (ackNrs (receive bitmap packets s)).
Proof.
  induction packets as [|p packets IH]; intros s m Hrec Hlen Hack Hc.
  - by exists m.
  - destruct (handleDataPacket_contiguous first m p s Hrec Hlen Hack Hc)
      as (H1 & H2 & m' & H3 & H4).
    exact (IH _ m' H1 H2 H3 H4).
Qed.

Lemma receive_cons p packets s :
  receive bitmap (p :: packets) s = receive bitmap packets (handleDataPacket bitmap p s).1.
Proof. reflexivity. Qed.

(** The socket after its first two DATA packets came in order. *)
Lemma first_two_in_order (options : UtpSocketOptions) (p0 p1 : Packet.t) :
  Packet.seqNr p1 = Packet.seqNr p0 + 1 →
  let s2 := (handleDataPacket bitmap p1
               (handleDataPacket bitmap p0 (constructor options)).1).1 in
  ackNrs s2 = [Some (Packet.seqNr p0); Some (Packet.seqNr p0 + 1)]
  ∧ ackNr s2 = Some (Packet.seqNr p0 + 1)
  ∧ record_from (Packet.seqNr p0) (ackNrs s2)
  ∧ contiguous_up_to (Packet.seqNr p0) (Packet.seqNr p0 + 1) (ackNrs s2).
Proof.
  intros Hseq s2. subst s2.
  destruct (handleDataPacket_first bitmap p0 (constructor options)) as [Ha1 Hk1]; [done|].
  destruct (handleDataPacket_in_order bitmap p1
              (handleDataPacket bitmap p0 (constructor options)).1 (Packet.seqNr p0) 1)
    as [Ha2 Hk2].
  { lia. }
  { rewrite Ha1. unfold run_of. simpl. do 2 f_equal. lia. }
  { rewrite Hk1. f_equal. lia. }
  { lia. }
  cbv zeta in Ha2, Hk2.
  set (s2 := (handleDataPacket bitmap p1
                (handleDataPacket bitmap p0 (constructor options)).1).1) in *.
  assert (Ha2' : ackNrs s2 = [Some (Packet.seqNr p0); Some (Packet.seqNr p0 + 1)]).
  { rewrite Ha2. unfold run_of. simpl. do 2 f_equal. f_equal. lia. }
  split; [exact Ha2'|]. split; [rewrite Hk2; f_equal|]. rewrite Ha2'. split.
  - split; [done|]. split.
    + intros [|[|i]] x Hi; simpl in Hi;
        [injection Hi as <-; lia | injection Hi as <-; lia | done].
    + intros o [= <-]. by eexists.
  - split; [lia|]. split.
    + intros x Hx. apply includes_elem.
      assert (x = Packet.seqNr p0 ∨ x = Packet.seqNr p0 + 1) as [-> | ->] by lia;
        [apply list_elem_of_here | apply list_elem_of_further, list_elem_of_here].
    + apply not_true_is_false. intros Hin%includes_elem.
      repeat (apply elem_of_cons in Hin as [Hin|Hin]; [injection Hin; lia|]).
      by apply elem_of_nil in Hin.
Qed.

(** X24: once the first two DATA packets have reached a socket made by the
    constructor in order, ackNr is at all times the largest seq_nr up to
    which nothing is missing: whatever packets follow, in whatever order,
    every seq_nr from the first packet's to ackNr is recorded and ackNr + 1
    is not. *)
Theorem ackNr_is_the_end_of_the_contiguous_run
    (options : UtpSocketOptions) (p0 p1 : Packet.t) (rest : list Packet.t) :
  Packet.seqNr p1 = Packet.seqNr p0 + 1 →
  let s := receive bitmap (p0 :: p1 :: rest) (constructor options) in
  ∃ m, ackNr s = Some m
       ∧ Packet.seqNr p1 ≤ m
       ∧ (∀ x, Packet.seqNr p0 ≤ x ≤ m → JsArray.includes (ackNrs s) x = true)
       ∧ JsArray.includes (ackNrs s) (m + 1) = false.
Proof.
  intros Hseq s. subst s.
  destruct (first_two_in_order options p0 p1 Hseq) as (Ha2 & Hk2 & Hrec2 & Hc2).
  cbv zeta in Ha2, Hk2, Hrec2, Hc2. rewrite !receive_cons.
  set (s2 := (handleDataPacket bitmap p1
                (handleDataPacket bitmap p0 (constructor options)).1).1) in *.
  destruct (receive_contiguous (Packet.seqNr p0) rest s2 (Packet.seqNr p0 + 1))
    as (m & Hm & Hle & Hrun & Hend); [done | rewrite Ha2; simpl; lia | done | done |].
  exists m. split; [exact Hm|]. split; [|split; [exact Hrun | exact Hend]].
  destruct (decide (Packet.seqNr p1 ≤ m)) as [|Hlt]; [done|]. exfalso.
  destruct (record_from_receive bitmap (Packet.seqNr p0) rest s2 Hrec2) as (_ & Hkeep & _).
  assert (Hin : Some (Packet.seqNr p0 + 1) ∈ ackNrs (receive bitmap rest s2)).
  { apply Hkeep. rewrite Ha2. apply list_elem_of_further, list_elem_of_here. }
  apply includes_elem in Hin. replace (Packet.seqNr p0 + 1) with (m + 1) in Hin by lia.
  congruence.
Qed.

(** X25: when the first two DATA packets reach a socket made by the
    constructor in order and the seq_nrs of all the packets it handles,
    retransmissions included, are exactly the k numbers from the first
    packet's seq_nr on, then, in whatever order the others came, ackNrs ends
    as these k numbers in ascending order and ackNr as the last of them. *)
Theorem reordered_transfer_ends_fully_acknowledged
    (options : UtpSocketOptions) (p0 p1 : Packet.t) (rest : list Packet.t) (k : nat) :
  Packet.seqNr p1 = Packet.seqNr p0 + 1 →
  (∀ x, x ∈ Packet.seqNr <$> (p0 :: p1 :: rest)
        ↔ Packet.seqNr p0 ≤ x < Packet.seqNr p0 + Z.of_nat k) →
  let s := receive bitmap (p0 :: p1 :: rest) (constructor options) in
  ackNrs s = run_of (Packet.seqNr p0) k
  ∧ ackNr s = Some (Packet.seqNr p0 + Z.of_nat k - 1).
Proof.
  intros Hseq Hseqs s. subst s.
  destruct (first_two_in_order options p0 p1 Hseq) as (Ha2 & Hk2 & Hrec2 & Hc2).
  cbv zeta in Ha2, Hk2, Hrec2, Hc2. rewrite !receive_cons.
  set (s2 := (handleDataPacket bitmap p1
                (handleDataPacket bitmap p0 (constructor options)).1).1) in *.
  set (first := Packet.seqNr p0) in *.
  destruct (record_from_receive bitmap first rest s2 Hrec2) as (I1 & I2 & I3).
  assert (Hall : ∀ x, Some x ∈ ackNrs (receive bitmap rest s2)
                      ↔ first ≤ x < first + Z.of_nat k).
  { intros x. split.
    - intros Hx. apply Hseqs.
      destruct (receive_recorded_from bitmap rest s2 x Hx) as [Hin|Hin].
      + rewrite Ha2 in Hin. rewrite !fmap_cons.
        apply elem_of_cons in Hin as [[= ->]|Hin]; [apply list_elem_of_here|].
        apply list_elem_of_singleton in Hin as [= ->].
        rewrite Hseq. apply list_elem_of_further, list_elem_of_here.
      + rewrite !fmap_cons. by do 2 apply list_elem_of_further.
    - intros Hx. apply Hseqs in Hx as Hin. rewrite !fmap_cons in Hin.
      apply elem_of_cons in Hin as [->|Hin];
        [apply I2; rewrite Ha2; apply list_elem_of_here|].
      apply elem_of_cons in Hin as [->|Hin].
      + apply I2. rewrite Ha2, Hseq. apply list_elem_of_further, list_elem_of_here.
      + apply list_elem_of_fmap in Hin as (p & -> & Hp). apply I3; [done|]. lia. }
  split; [by apply record_from_complete|].
  destruct (receive_contiguous first rest s2 (first + 1))
    as (m & Hm & Hle & Hrun & Hend); [done | rewrite Ha2; simpl; lia | done | done |].
  rewrite Hm. f_equal.
  assert (Hin : Some m ∈ ackNrs (receive bitmap rest s2)).
  { apply includes_elem, Hrun. lia. }
  apply Hall in Hin.
  destruct (decide (m + 1 < first + Z.of_nat k)) as [Hlt|]; [|lia].
  assert (Hin' : Some (m + 1) ∈ ackNrs (receive bitmap rest s2)) by (apply Hall; lia).
  apply includes_elem in Hin'. congruence.
Qed.

End contiguous.

Lemma ackNr_is_the_end_of_the_contiguous_run_witness :
  let s := UtpHandlers.receive Samples.bitmap
             [Samples.data 1 []; Samples.data 2 []; Samples.data 5 []; Samples.data 3 []]
             (Utp.constructor
                {| Utp.o_type := Utp.READ; Utp.o_content := None;
                   Utp.o_remoteAddress := "0xabc";
                   Utp.o_rcvId := 258; Utp.o_sndId := 259; Utp.o_seqNr := 100;
                   Utp.o_ackNr := 0 |}) in
  ∃ m, Utp.ackNr s = Some m
       ∧ 2 ≤ m
       ∧ (∀ x, 1 ≤ x ≤ m → JsArray.includes (Utp.ackNrs s) x = true)
       ∧ JsArray.includes (Utp.ackNrs s) (m + 1) = false.
Proof.
  apply (ackNr_is_the_end_of_the_contiguous_run Samples.bitmap _ (Samples.data 1 [])
           (Samples.data 2 []) [Samples.data 5 []; Samples.data 3 []]).
  reflexivity.
Defined.

Lemma reordered_transfer_ends_fully_acknowledged_witness :
  let s := UtpHandlers.receive Samples.bitmap
             [Samples.data 1 []; Samples.data 2 []; Samples.data 5 []; Samples.data 3 [];
              Samples.data 5 []; Samples.data 4 []]
             (Utp.constructor
                {| Utp.o_type := Utp.READ; Utp.o_content := None;
                   Utp.o_remoteAddress := "0xabc";
                   Utp.o_rcvId := 258; Utp.o_sndId := 259; Utp.o_seqNr := 100;
                   Utp.o_ackNr := 0 |}) in
  Utp.ackNrs s = [Some 1; Some 2; Some 3; Some 4; Some 5] ∧ Utp.ackNr s = Some 5.
Proof.
  apply (reordered_transfer_ends_fully_acknowledged Samples.bitmap _ (Samples.data 1 [])
           (Samples.data 2 [])
           [Samples.data 5 []; Samples.data 3 []; Samples.data 5 []; Samples.data 4 []] 5).
  - reflexivity.
  - intros x. simpl. rewrite !elem_of_cons, elem_of_nil. lia.
Defined.
